(** * PDF password recovery: candidate generation and search control

    A shallow embedding of [password_generator.py], [pdf_recovery.py] and the
    two worker threads of [main.py], followed by the properties of the
    candidate generator, the memory checks and the search worker.

    Conventions of the embedding.
    - Python integers that count things are [Z]; password lengths are [nat]
      (they are used as [repeat] arguments of [itertools.product], which
      raises on a negative value, and come from spin boxes with minimum 1).
    - Python floats are Rocq's primitive binary64 floats.
    - A [return] from inside nested loops is the [Return] constructor of
      [flow]; falling through to the next statement is [Next].
    - Callbacks are functions over an observer state [W] chosen by the caller,
      so that a callback may remember what it has seen and change its answer.  *)

From Stdlib Require Import ZArith List String Ascii Bool Lia Arith.
From Stdlib Require Import DecimalString Floats Uint63.
Import ListNotations.

Open Scope Z_scope.
Open Scope list_scope.

(** ** Control flow shared by the loops *)

Inductive flow (A : Type) : Type :=
| Next (a : A)
| Return (a : A).
Arguments Next {A} a.
Arguments Return {A} a.

Definition flow_bind {A : Type} (m : flow A) (k : A -> flow A) : flow A :=
  match m with
  | Next a => k a
  | Return a => Return a
  end.

Notation "x <- m ;; k" := (flow_bind m (fun x => k))
  (at level 61, m at next level, right associativity).

Definition flow_state {A : Type} (m : flow A) : A :=
  match m with
  | Next a => a
  | Return a => a
  end.

Definition returned {A : Type} (m : flow A) : bool :=
  match m with
  | Next _ => false
  | Return _ => true
  end.

(** [for x in xs: body]  with early return. *)
Fixpoint for_each {X A : Type} (xs : list X) (body : X -> A -> flow A) (a : A)
  : flow A :=
  match xs with
  | [] => Next a
  | x :: rest => a' <- body x a ;; for_each rest body a'
  end.

(** [range(lo, hi)] on non-negative integers. *)
Definition range (lo hi : nat) : list nat := seq lo (hi - lo).

(** [str(n)] for a non-negative integer. *)
Definition str_of_nat (n : nat) : string :=
  NilEmpty.string_of_uint (Nat.to_uint n).

(** ** password_generator.py *)

Module password_generator.

(** [self.MAX_PASSWORDS]: an integer, or [float('inf')]. *)
Inductive limit : Type :=
| Finite (n : Z)
| Infinity.

(** [x > m] and [x >= m] for an integer [x] against the limit. *)
Definition gt_limit (x : Z) (m : limit) : bool :=
  match m with
  | Finite n => n <? x
  | Infinity => false
  end.

Definition ge_limit (x : Z) (m : limit) : bool :=
  match m with
  | Finite n => n <=? x
  | Infinity => false
  end.

Record PasswordGenerator : Type := {
  min_length : nat;
  max_length : nat;
  use_lowercase : bool;
  use_uppercase : bool;
  use_digits : bool;
  use_special : bool;
  MAX_PASSWORDS : limit
}.

(** [PasswordGenerator.__init__] *)
Definition init (min_length max_length : nat)
  (use_lowercase use_uppercase use_digits use_special no_limit : bool)
  : PasswordGenerator :=
  {| min_length := min_length;
     max_length := max_length;
     use_lowercase := use_lowercase;
     use_uppercase := use_uppercase;
     use_digits := use_digits;
     use_special := use_special;
     MAX_PASSWORDS := if no_limit then Infinity else Finite 1000000 |}.

Definition ascii_lowercase : string := "abcdefghijklmnopqrstuvwxyz".
Definition ascii_uppercase : string := "ABCDEFGHIJKLMNOPQRSTUVWXYZ".
Definition digits : string := "0123456789".
Definition special_chars : string := "!@#$%^&*".

(** [''.join(c) for c in itertools.product(chars, repeat=n)], in the order
    in which the iterator yields. *)
Fixpoint product_chars (chars : list ascii) (n : nat) : list string :=
  match n with
  | O => [EmptyString]
  | S n' => flat_map (fun c => map (String c) (product_chars chars n')) chars
  end.

Definition product (chars : string) (n : nat) : list string :=
  product_chars (list_ascii_of_string chars) n.

(** The character set built at the top of [generate_passwords]. *)
Definition charset (self : PasswordGenerator) : string :=
  let chars := EmptyString in
  let chars := if use_lowercase self then (chars ++ ascii_lowercase)%string else chars in
  let chars := if use_uppercase self then (chars ++ ascii_uppercase)%string else chars in
  let chars := if use_digits self then (chars ++ digits)%string else chars in
  let chars := if use_special self then (chars ++ special_chars)%string else chars in
  if (String.length chars =? 0)%nat then ascii_lowercase else chars.

(** [PasswordGenerator.estimate_count] *)
Definition estimate_count (self : PasswordGenerator) : Z :=
  let char_count := 0 in
  let char_count := if use_lowercase self then char_count + 26 else char_count in
  let char_count := if use_uppercase self then char_count + 26 else char_count in
  let char_count := if use_digits self then char_count + 10 else char_count in
  let char_count := if use_special self then char_count + 8 else char_count in
  let char_count := if char_count =? 0 then 26 else char_count in
  let total :=
    fold_left (fun total length => total + char_count ^ Z.of_nat length)
      (range (min_length self) (max_length self + 1)) 0 in
  match MAX_PASSWORDS self with
  | Infinity => total
  | Finite m => Z.min total m
  end.

(** One invocation of a callback, as seen from the generator. *)
Inductive call : Type :=
| ProgressCall (current_count total_estimated : Z)
| PatternCall (current_pattern : string).

Section Generate.

Variable W : Type.

Record callbacks : Type := {
  progress_callback : option (Z -> Z -> W -> bool * W);
  pattern_callback : option (string -> W -> bool * W)
}.

(** The local variables of [generate_passwords], the observer state the
    callbacks act on, and the log of the calls made so far. *)
Record gen_state : Type := {
  passwords : list string;
  count : Z;
  world : W;
  calls : list call
}.

Variable self : PasswordGenerator.
Variable cbs : callbacks.

(** [progress_callback(c, t)]; the truth value of the result is returned. *)
Definition call_progress (f : Z -> Z -> W -> bool * W) (c t : Z) (st : gen_state)
  : bool * gen_state :=
  let '(r, w) := f c t (world st) in
  (r, {| passwords := passwords st; count := count st; world := w;
         calls := calls st ++ [ProgressCall c t] |}).

(** [pattern_callback(p)] *)
Definition call_pattern (f : string -> W -> bool * W) (p : string) (st : gen_state)
  : bool * gen_state :=
  let '(r, w) := f p (world st) in
  (r, {| passwords := passwords st; count := count st; world := w;
         calls := calls st ++ [PatternCall p] |}).

(** [if progress_callback: progress_callback(c, t)] with the result unused. *)
Definition notify_progress (c t : Z) (st : gen_state) : gen_state :=
  match progress_callback cbs with
  | Some f => snd (call_progress f c t st)
  | None => st
  end.

(** [if pattern_callback: pattern_callback(label)] with the result unused. *)
Definition notify_pattern (label : string) (st : gen_state) : gen_state :=
  match pattern_callback cbs with
  | Some f => snd (call_pattern f label st)
  | None => st
  end.

Variable total_estimate : Z.
Variable progress_interval : Z.

(** The body shared by the five candidate loops: append, count, the two
    periodic reports and the hard stop. *)
Definition emit (pattern : string) (st : gen_state) : flow gen_state :=
  let st :=
    {| passwords := passwords st ++ [pattern]; count := count st + 1;
       world := world st; calls := calls st |} in
  st <- match progress_callback cbs with
        | Some f =>
            if count st mod progress_interval =? 0 then
              let '(ok, st') := call_progress f (count st) total_estimate st in
              if ok then Next st' else Return st'
            else Next st
        | None => Next st
        end ;;
  st <- match pattern_callback cbs with
        | Some f =>
            if count st mod (progress_interval * 10) =? 0 then
              let '(ok, st') := call_pattern f pattern st in
              if ok then Next st' else Return st'
            else Next st
        | None => Next st
        end ;;
  if ge_limit (count st) (MAX_PASSWORDS self) then
    Return (notify_progress (count st) total_estimate st)
  else Next st.

(** The body of [for length in range(min_length, max_length + 1)]. *)
Definition length_body (chars : string) (length : nat) (st : gen_state)
  : flow gen_state :=
  let combinations_count := Z.of_nat (String.length chars) ^ Z.of_nat length in
  if gt_limit (combinations_count + count st) (MAX_PASSWORDS self) then
    if (length <=? 3)%nat then
      let st := notify_pattern
        ("Length " ++ str_of_nat length ++ " passwords with all chars")%string st in
      for_each (product chars length) emit st
    else
      st <- (if use_lowercase self then
               let lowercase_chars := ascii_lowercase in
               let st := notify_pattern
                 ("Length " ++ str_of_nat length ++ " lowercase passwords")%string st in
               for_each (product lowercase_chars length) emit st
             else Next st) ;;
      st <- (if use_digits self then
               let st := notify_pattern
                 ("Length " ++ str_of_nat length ++ " numeric passwords")%string st in
               for_each (product digits length) emit st
             else Next st) ;;
      if (4 <=? length)%nat && use_lowercase self && use_digits self then
        let half := (length / 2)%nat in
        let st := notify_pattern
          ("Length " ++ str_of_nat length ++ " mixed letter-number passwords")%string st in
        for_each (product ascii_lowercase half)
          (fun letters =>
             for_each (product digits (length - half))
               (fun digit_part => emit (letters ++ digit_part)%string))
          st
      else Next st
  else
    let st := notify_pattern
      ("All length " ++ str_of_nat length ++ " combinations")%string st in
    for_each (product chars length) emit st.

End Generate.

Arguments passwords {W} _.
Arguments count {W} _.
Arguments world {W} _.
Arguments calls {W} _.
Arguments progress_callback {W} _.
Arguments pattern_callback {W} _.

(** [max(1, min(10000, total_estimate // 100))] *)
Definition progress_interval_of (total_estimate : Z) : Z :=
  Z.max 1 (Z.min 10000 (total_estimate / 100)).

(** The loop over the lengths, with the parameters [generate_passwords]
    fixes before it. *)
Definition run_lengths {W : Type} (self : PasswordGenerator) (cbs : callbacks W)
  (lengths : list nat) (st : gen_state W) : flow (gen_state W) :=
  let total_estimate := estimate_count self in
  for_each lengths
    (length_body W self cbs total_estimate (progress_interval_of total_estimate)
       (charset self))
    st.

(** The state after the initial [progress_callback(0, total_estimate)]. *)
Definition start_state {W : Type} (self : PasswordGenerator) (cbs : callbacks W)
  (w : W) : gen_state W :=
  notify_progress W cbs 0 (estimate_count self)
    {| passwords := []; count := 0; world := w; calls := [] |}.

(** [PasswordGenerator.generate_passwords]: the final state of the locals;
    the returned list is its [passwords] field. *)
Definition generate_passwords_state {W : Type} (self : PasswordGenerator)
  (cbs : callbacks W) (w : W) : gen_state W :=
  match run_lengths self cbs
          (range (min_length self) (max_length self + 1))
          (start_state self cbs w) with
  | Return st => st
  | Next st => notify_progress W cbs (count st) (estimate_count self) st
  end.

Definition generate_passwords {W : Type} (self : PasswordGenerator)
  (cbs : callbacks W) (w : W) : list string :=
  passwords (generate_passwords_state self cbs w).

End password_generator.

(** ** Python floats *)

(** [float(z)] for [0 <= z < 2^63]; every integer below [2^53] converts
    exactly. *)
Definition float_of_int (z : Z) : float := PrimFloat.of_uint63 (Uint63.of_Z z).

(** [a / b] on integers: the quotient of the two conversions, which is what
    Python computes when both operands are below [2^53]. *)
Definition true_div (a b : Z) : float :=
  PrimFloat.div (float_of_int a) (float_of_int b).

(** [x > y] on floats. *)
Definition float_gt (x y : float) : bool := PrimFloat.ltb y x.

(** [int(x)]: truncation toward zero; [None] where Python raises (infinities
    and NaN). *)
Definition int_of_float (x : float) : option Z :=
  match Prim2SF x with
  | S754_zero _ => Some 0
  | S754_finite s m e =>
      let magnitude :=
        if 0 <=? e then Z.pos m * 2 ^ e else Z.pos m / 2 ^ (- e) in
      Some (if s then - magnitude else magnitude)
  | S754_infinity _ => None
  | S754_nan => None
  end.

(** What [psutil.Process().memory_info().rss] gives when it is asked. *)
Inductive memory_reading : Type :=
| NoPsutil                 (* the import fails *)
| Rss (bytes : Z)          (* resident set size, in bytes *)
| ReadingFailed.           (* any other exception *)

(** [rss / (1024 * 1024)] *)
Definition memory_mb_of (bytes : Z) : float := true_div bytes (1024 * 1024).

(** ** pdf_recovery.py *)

Module pdf_recovery.

(** The exceptions the file system and the PDF reader raise; each is an
    instance of Python's [Exception]. *)
Inductive exn : Type :=
| OSError (msg : string)
| PdfReadError (msg : string)
| OtherError (msg : string).

Definition exn_message (e : exn) : string :=
  match e with
  | OSError msg => msg
  | PdfReadError msg => msg
  | OtherError msg => msg
  end.

Inductive result (A : Type) : Type :=
| Ok (a : A)
| Raise (e : exn).
Arguments Ok {A} a.
Arguments Raise {A} e.

Definition bind {A B : Type} (m : result A) (k : A -> result B) : result B :=
  match m with
  | Ok a => k a
  | Raise e => Raise e
  end.

Section Recovery.

Variables File Reader : Type.

(** The collaborators of [try_password]: the built-in [open], the file's
    context-manager exit, and PyPDF2's reader. *)
Record pdf_library : Type := {
  open_rb : string -> result File;
  close : File -> result unit;
  PdfReader : File -> result Reader;
  is_encrypted : Reader -> result bool;
  decrypt : Reader -> string -> result Z
}.

Variable lib : pdf_library.

(** [with open(path, 'rb') as file: body] *)
Definition with_open {A : Type} (path : string) (body : File -> result A)
  : result A :=
  bind (open_rb lib path) (fun file =>
    match body file with
    | Ok a => bind (close lib file) (fun _ => Ok a)
    | Raise e =>
        match close lib file with
        | Ok _ => Raise e
        | Raise e' => Raise e'
        end
    end).

(** The [try] block of [try_password]. *)
Definition try_password_attempt (pdf_path password : string) : result bool :=
  with_open pdf_path (fun file =>
    bind (PdfReader lib file) (fun reader =>
    bind (is_encrypted lib reader) (fun encrypted =>
      if encrypted then
        bind (decrypt lib reader password) (fun r =>
          if negb (r =? 0) then Ok true else Ok false)
      else Ok true))).

(** [PDFPasswordRecovery.try_password]: the result of the call and the
    lines it prints. *)
Definition try_password (pdf_path password : string)
  : result bool * list string :=
  match try_password_attempt pdf_path password with
  | Ok b => (Ok b, [])
  | Raise e =>
      (Ok false, [("Error trying password: " ++ exn_message e)%string])
  end.

(** [os.path.exists] *)
Variable path_exists : string -> bool.

(** The [try] block of [validate_pdf]. *)
Definition validate_pdf_attempt (pdf_path : string) : result (bool * string) :=
  if negb (path_exists pdf_path) then Ok (false, "File does not exist"%string)
  else
    with_open pdf_path (fun file =>
      match PdfReader lib file with
      | Raise _ => Ok (false, "Invalid PDF file format"%string)
      | Ok reader =>
          bind (is_encrypted lib reader) (fun encrypted =>
            if negb encrypted
            then Ok (false, "PDF is not password protected"%string)
            else Ok (true, "Valid password-protected PDF"%string))
      end).

(** [PDFPasswordRecovery.validate_pdf] *)
Definition validate_pdf (pdf_path : string) : bool * string :=
  match validate_pdf_attempt pdf_path with
  | Ok answer => answer
  | Raise e => (false, ("Error: " ++ exn_message e)%string)
  end.

End Recovery.

Arguments open_rb {File Reader} _.
Arguments close {File Reader} _.
Arguments PdfReader {File Reader} _.
Arguments is_encrypted {File Reader} _.
Arguments decrypt {File Reader} _.
Arguments try_password {File Reader} _ _ _.
Arguments try_password_attempt {File Reader} _ _ _.
Arguments validate_pdf_attempt {File Reader} _ _ _.
Arguments validate_pdf {File Reader} _ _ _.

End pdf_recovery.

(** ** main.py: PasswordGenerationThread *)

(** The attributes and the signal that [check_memory_usage] and [cancel]
    touch. *)
Module PasswordGenerationThread.

Inductive signal : Type :=
| memory_warning (memory_mb : float).

Record thread : Type := {
  memory_limit_mb : Z;
  cancelled : bool;
  emitted : list signal
}.

(** [cancel] *)
Definition cancel (self : thread) : thread :=
  {| memory_limit_mb := memory_limit_mb self;
     cancelled := true;
     emitted := emitted self |}.

Definition emit (s : signal) (self : thread) : thread :=
  {| memory_limit_mb := memory_limit_mb self;
     cancelled := cancelled self;
     emitted := emitted self ++ [s] |}.

(** [check_memory_usage]; [PSUTIL_AVAILABLE] is false exactly when the
    reading is [NoPsutil]. *)
Definition check_memory_usage (reading : memory_reading) (self : thread)
  : thread :=
  match reading with
  | NoPsutil => self
  | ReadingFailed => self
  | Rss bytes =>
      let memory_mb := memory_mb_of bytes in
      let self :=
        if float_gt memory_mb
             (PrimFloat.mul (float_of_int (memory_limit_mb self)) 0.8)
        then emit (memory_warning memory_mb) self else self in
      if float_gt memory_mb
           (PrimFloat.mul (float_of_int (memory_limit_mb self)) 0.95)
      then cancel self else self
  end.

End PasswordGenerationThread.

(** ** main.py: PasswordGenerationThread.run *)

(** [a / b] on integers of any size: Python rounds the exact quotient to
    the nearest float, ties to even, and raises where the divisor is zero
    or the quotient is too large. *)
Definition spec_float_of_int (z : Z) : spec_float :=
  match z with
  | Z0 => S754_zero false
  | Zpos p => S754_finite false p 0
  | Zneg p => S754_finite true p 0
  end.

Definition int_true_div (a b : Z) : string + float :=
  if b =? 0 then inl "division by zero"%string
  else
    match SFdiv prec emax (spec_float_of_int a) (spec_float_of_int b) with
    | S754_infinity _ =>
        inl "integer division result too large for a float"%string
    | q => inr (SF2Prim q)
    end.

(** [int(x)] with the message of the exception Python raises. *)
Definition int_of_float_or_raise (x : float) : string + Z :=
  match int_of_float x with
  | Some v => inr v
  | None =>
      if PrimFloat.is_nan x
      then inl "cannot convert float NaN to integer"%string
      else inl "cannot convert float infinity to integer"%string
  end.

(** [f"{n:,}"]: the decimal digits in groups of three. *)
Fixpoint group_digits (reversed : list ascii) (in_group : nat) : list ascii :=
  match reversed with
  | [] => []
  | d :: rest =>
      if (in_group =? 3)%nat
      then ","%char :: d :: group_digits rest 1
      else d :: group_digits rest (S in_group)
  end.

Definition str_with_commas (n : nat) : string :=
  string_of_list_ascii
    (rev (group_digits (rev (list_ascii_of_string (str_of_nat n))) 0)).

(** [run] with the two callbacks it hands to the generator.  The thread is
    the observer state of the generator's callbacks.  An exception raised
    inside a callback leaves [generate_passwords] for the [except] clause of
    [run]; here it is recorded in [raised], the callbacks do nothing from
    then on, and [run] looks at [raised] when the generator is back.  Log
    lines, [QApplication.processEvents] and [time.sleep] have no part in
    what is modelled. *)
Module PasswordGenerationRun.

Inductive signal : Type :=
| progress_update (value : Z)
| password_list_ready (password_list : list string)
| generation_failed (message : string)
| current_pattern_update (pattern : string)
| memory_warning (memory_mb : float)
| processing_large_list (size : Z).

(** [char_options] *)
Record options : Type := {
  lowercase : bool;
  uppercase : bool;
  digits : bool;
  special : bool
}.

(** The attributes of the thread, the signals emitted so far, the exception
    on its way to [run], and how often the flag and the memory were read. *)
Record thread : Type := {
  min_length : nat;
  max_length : nat;
  char_options : options;
  no_limit : bool;
  memory_limit_mb : Z;
  cancelled : bool;
  emitted : list signal;
  raised : option string;
  checks : nat;
  probes : nat
}.

(** The surroundings of one run: whether the controlling thread has called
    [cancel] by the time [check_cancelled] locks the mutex for the [k]-th
    time, and what the [k]-th memory probe reads. *)
Record surroundings : Type := {
  cancel_called : nat -> bool;
  memory_at : nat -> memory_reading
}.

(** [PasswordGenerationThread.__init__] *)
Definition init (min_length max_length : nat) (char_options : options)
  (no_limit : bool) (memory_limit_mb : Z) : thread :=
  {| min_length := min_length;
     max_length := max_length;
     char_options := char_options;
     no_limit := no_limit;
     memory_limit_mb := memory_limit_mb;
     cancelled := false;
     emitted := [];
     raised := None;
     checks := 0;
     probes := 0 |}.

Definition emit (s : signal) (self : thread) : thread :=
  {| min_length := min_length self;
     max_length := max_length self;
     char_options := char_options self;
     no_limit := no_limit self;
     memory_limit_mb := memory_limit_mb self;
     cancelled := cancelled self;
     emitted := emitted self ++ [s];
     raised := raised self;
     checks := checks self;
     probes := probes self |}.

Definition raise (message : string) (self : thread) : thread :=
  {| min_length := min_length self;
     max_length := max_length self;
     char_options := char_options self;
     no_limit := no_limit self;
     memory_limit_mb := memory_limit_mb self;
     cancelled := cancelled self;
     emitted := emitted self;
     raised := Some message;
     checks := checks self;
     probes := probes self |}.

Section Run.

Variable env : surroundings.

(** [check_cancelled]: the flag as it stands when the mutex is held, after
    the calls of [cancel] that came before. *)
Definition check_cancelled (self : thread) : bool * thread :=
  let result := cancelled self || cancel_called env (checks self) in
  (result,
   {| min_length := min_length self;
      max_length := max_length self;
      char_options := char_options self;
      no_limit := no_limit self;
      memory_limit_mb := memory_limit_mb self;
      cancelled := result;
      emitted := emitted self;
      raised := raised self;
      checks := S (checks self);
      probes := probes self |}).

(** [check_memory_usage], as embedded in [PasswordGenerationThread], on the
    flag and the signals of this thread. *)
Definition check_memory_usage (self : thread) : thread :=
  let checked :=
    PasswordGenerationThread.check_memory_usage (memory_at env (probes self))
      {| PasswordGenerationThread.memory_limit_mb := memory_limit_mb self;
         PasswordGenerationThread.cancelled := cancelled self;
         PasswordGenerationThread.emitted := [] |} in
  {| min_length := min_length self;
     max_length := max_length self;
     char_options := char_options self;
     no_limit := no_limit self;
     memory_limit_mb := memory_limit_mb self;
     cancelled := PasswordGenerationThread.cancelled checked;
     emitted :=
       emitted self
       ++ map (fun s => match s with
                        | PasswordGenerationThread.memory_warning memory_mb =>
                            memory_warning memory_mb
                        end)
            (PasswordGenerationThread.emitted checked);
     raised := raised self;
     checks := checks self;
     probes := S (probes self) |}.

(** [min(int((count / total) * 100), 99)] *)
Definition progress_of (count total : Z) : string + Z :=
  match int_true_div count total with
  | inl message => inl message
  | inr ratio =>
      match int_of_float_or_raise (PrimFloat.mul ratio 100) with
      | inl message => inl message
      | inr percent => inr (Z.min percent 99)
      end
  end.

(** The nested [progress_callback(count, total)] *)
Definition progress_callback (count total : Z) (self : thread)
  : bool * thread :=
  let '(is_cancelled, self) := check_cancelled self in
  if is_cancelled then (false, self)
  else
    let self :=
      if count mod 10000 =? 0 then check_memory_usage self else self in
    match progress_of count total with
    | inl message => (false, raise message self)
    | inr progress => (true, emit (progress_update progress) self)
    end.

(** The nested [pattern_callback(pattern)] *)
Definition pattern_callback (pattern : string) (self : thread)
  : bool * thread :=
  let '(is_cancelled, self) := check_cancelled self in
  if is_cancelled then (false, self)
  else (true, emit (current_pattern_update pattern) self).

(** A callback is not entered once an exception is on its way. *)
Definition unless_raised (callback : thread -> bool * thread) (self : thread)
  : bool * thread :=
  match raised self with
  | Some _ => (false, self)
  | None => callback self
  end.

Definition callbacks_of_run : password_generator.callbacks thread :=
  {| password_generator.progress_callback :=
       Some (fun count total => unless_raised (progress_callback count total));
     password_generator.pattern_callback :=
       Some (fun pattern => unless_raised (pattern_callback pattern)) |}.

(** [PasswordGenerationThread.run] *)
Definition run (self : thread) : thread :=
  let generator :=
    password_generator.init (min_length self) (max_length self)
      (lowercase (char_options self)) (uppercase (char_options self))
      (digits (char_options self)) (special (char_options self))
      (no_limit self) in
  let self := emit (progress_update 0) self in
  let locals :=
    password_generator.generate_passwords_state generator callbacks_of_run
      self in
  let password_list := password_generator.passwords locals in
  let self := password_generator.world locals in
  match raised self with
  | Some message => emit (generation_failed message) self
  | None =>
      let '(is_cancelled, self) := check_cancelled self in
      if is_cancelled then self
      else
        let self :=
          if (100000 <? List.length password_list)%nat then
            let self := emit (progress_update 99) self in
            let self :=
              emit (current_pattern_update
                      ("Processing "
                       ++ str_with_commas (List.length password_list)
                       ++ " passwords")%string) self in
            emit (processing_large_list
                    (Z.of_nat (List.length password_list))) self
          else self in
        let self := emit (progress_update 100) self in
        emit (password_list_ready password_list) self
  end.

End Run.

End PasswordGenerationRun.

(** ** main.py: PasswordRecoveryThread *)

Module PasswordRecoveryThread.

Import pdf_recovery.

Inductive signal : Type :=
| progress_update (value : Z)
| password_found (password : string)
| password_not_found
| memory_warning (memory_mb : float)
| current_password_update (password : string).

(** How [run] ended: by one of its two final signals, or by the bare
    [return] taken when the thread is cancelled. *)
Inductive verdict : Type :=
| Found (password : string)
| NotFound
| Cancelled.

(** Where the worker stands in [run]. *)
Inductive position : Type :=
| NotStarted                        (* [start] has not been called *)
| LoopHead (i : nat)                (* [while i < total], then [check_cancelled] *)
| PauseGate (i : nat)               (* entering [check_paused] *)
| Waiting (i : nat)                 (* inside [resume_condition.wait] *)
| Woken (i : nat)                   (* [wait] has returned *)
| BatchStep (i j end_batch : nat)   (* [for j in range(i, end_batch)] *)
| BatchEnd (i end_batch : nat)      (* after the [for] loop *)
| Stopped (v : verdict).            (* [run] has returned *)

Section Thread.

Variables File Reader : Type.

(** The attributes of the thread, the worker's position, the signals emitted
    so far and the calls of [try_password] made so far. *)
Record thread : Type := {
  pdf_path : string;
  password_list : list string;
  memory_limit_mb : Z;
  paused : bool;
  cancelled : bool;
  current_position : nat;
  at_ : position;
  emitted : list signal;
  attempts : list (nat * string)
}.

(** The surroundings of one run: the state of the file system and of the
    PDF reader when candidate [j] is tried, and what the memory probe reads
    after the batch that starts at [i]. *)
Record surroundings : Type := {
  library_at : nat -> pdf_library File Reader;
  memory_at : nat -> memory_reading
}.

Variable env : surroundings.

(** [PasswordRecoveryThread.__init__] *)
Definition init (pdf_path : string) (password_list : list string)
  (memory_limit_mb : Z) : thread :=
  {| pdf_path := pdf_path;
     password_list := password_list;
     memory_limit_mb := memory_limit_mb;
     paused := false;
     cancelled := false;
     current_position := 0;
     at_ := NotStarted;
     emitted := [];
     attempts := [] |}.

Definition set_flags (paused' cancelled' : bool) (self : thread) : thread :=
  {| pdf_path := pdf_path self;
     password_list := password_list self;
     memory_limit_mb := memory_limit_mb self;
     paused := paused';
     cancelled := cancelled';
     current_position := current_position self;
     at_ := at_ self;
     emitted := emitted self;
     attempts := attempts self |}.

Definition goto (p : position) (self : thread) : thread :=
  {| pdf_path := pdf_path self;
     password_list := password_list self;
     memory_limit_mb := memory_limit_mb self;
     paused := paused self;
     cancelled := cancelled self;
     current_position := current_position self;
     at_ := p;
     emitted := emitted self;
     attempts := attempts self |}.

Definition emit (s : signal) (self : thread) : thread :=
  {| pdf_path := pdf_path self;
     password_list := password_list self;
     memory_limit_mb := memory_limit_mb self;
     paused := paused self;
     cancelled := cancelled self;
     current_position := current_position self;
     at_ := at_ self;
     emitted := emitted self ++ [s];
     attempts := attempts self |}.

Definition set_current_position (n : nat) (self : thread) : thread :=
  {| pdf_path := pdf_path self;
     password_list := password_list self;
     memory_limit_mb := memory_limit_mb self;
     paused := paused self;
     cancelled := cancelled self;
     current_position := n;
     at_ := at_ self;
     emitted := emitted self;
     attempts := attempts self |}.

Definition record_attempt (j : nat) (password : string) (self : thread) : thread :=
  {| pdf_path := pdf_path self;
     password_list := password_list self;
     memory_limit_mb := memory_limit_mb self;
     paused := paused self;
     cancelled := cancelled self;
     current_position := current_position self;
     at_ := at_ self;
     emitted := emitted self;
     attempts := attempts self ++ [(j, password)] |}.

(** [QThread.start]: [run] begins with [i = self.current_position]. *)
Definition start (self : thread) : thread :=
  goto (LoopHead (current_position self)) self.

(** A waiting worker leaves [wait] when [wakeAll] is called, and only then;
    a call that finds no waiting worker is lost. *)
Definition wakeAll (self : thread) : thread :=
  match at_ self with
  | Waiting i => goto (Woken i) self
  | _ => self
  end.

(** [pause], [resume] and [cancel]; each runs under the mutex. *)
Definition pause (self : thread) : thread :=
  set_flags true (cancelled self) self.

Definition resume (self : thread) : thread :=
  wakeAll (set_flags false (cancelled self) self).

Definition cancel (self : thread) : thread :=
  wakeAll (set_flags false true self).

(** [check_cancelled] *)
Definition check_cancelled (self : thread) : bool := cancelled self.

(** [check_memory_usage] *)
Definition check_memory_usage (reading : memory_reading) (self : thread)
  : thread :=
  match reading with
  | NoPsutil => self
  | ReadingFailed => self
  | Rss bytes =>
      let memory_mb := memory_mb_of bytes in
      let self :=
        if float_gt memory_mb
             (PrimFloat.mul (float_of_int (memory_limit_mb self)) 0.8)
        then emit (memory_warning memory_mb) self else self in
      if float_gt memory_mb (float_of_int (memory_limit_mb self))
      then cancel self else self
  end.

(** [recovery.try_password(password)] for the candidate at index [j], as a
    truth value. *)
Definition try_at (self : thread) (j : nat) (password : string) : bool :=
  match fst (try_password (library_at env j) (pdf_path self) password) with
  | Ok b => b
  | Raise _ => false
  end.

(** [int(end_batch / total * 100)]; [run] computes it inside the loop only,
    where [total] is positive and the product is finite. *)
Definition progress_of (end_batch total : nat) : Z :=
  match int_of_float
          (PrimFloat.mul (true_div (Z.of_nat end_batch) (Z.of_nat total)) 100)
  with
  | Some v => v
  | None => 0
  end.

(** One step of the worker inside [run]; [None] when the worker cannot move
    (the thread is not started, it waits on the condition, or [run] has
    returned). *)
Definition worker_step (self : thread) : option thread :=
  let total := List.length (password_list self) in
  let batch_size := 100%nat in
  match at_ self with
  | NotStarted => None
  | LoopHead i =>
      if (i <? total)%nat then
        if check_cancelled self then Some (goto (Stopped Cancelled) self)
        else Some (goto (PauseGate i) self)
      else
        Some (goto (Stopped NotFound) (emit password_not_found self))
  | PauseGate i =>
      if paused self then Some (goto (Waiting i) self)
      else Some (goto (BatchStep i i (Nat.min (i + batch_size) total)) self)
  | Waiting i => None
  | Woken i =>
      Some (goto (BatchStep i i (Nat.min (i + batch_size) total)) self)
  | BatchStep i j end_batch =>
      if (j <? end_batch)%nat then
        let password := nth j (password_list self) EmptyString in
        let self :=
          if (j mod 10 =? 0)%nat
          then emit (current_password_update password) self else self in
        let self := record_attempt j password self in
        if try_at self j password then
          Some (goto (Stopped (Found password))
                  (emit (password_found password) self))
        else
          Some (goto (BatchStep i (S j) end_batch)
                  (set_current_position (j + 1) self))
      else Some (goto (BatchEnd i end_batch) self)
  | BatchEnd i end_batch =>
      let progress := progress_of end_batch total in
      let self := emit (progress_update progress) self in
      let self :=
        if (i mod 1000 =? 0)%nat
        then check_memory_usage (memory_at env i) self else self in
      Some (goto (LoopHead end_batch) self)
  | Stopped _ => None
  end.

(** What can happen next: the worker moves, or the controlling thread calls
    one of the three methods. *)
Inductive action : Type :=
| Tick
| Pause
| Resume
| Cancel.

Definition act (a : action) (self : thread) : thread :=
  match a with
  | Tick =>
      match worker_step self with
      | Some self' => self'
      | None => self
      end
  | Pause => pause self
  | Resume => resume self
  | Cancel => cancel self
  end.

Definition exec (schedule : list action) (self : thread) : thread :=
  fold_left (fun s a => act a s) schedule self.

End Thread.

Arguments library_at {File Reader} _.
Arguments memory_at {File Reader} _.
Arguments try_at {File Reader} _ _ _ _.
Arguments worker_step {File Reader} _ _.
Arguments act {File Reader} _ _ _.
Arguments exec {File Reader} _ _ _.

End PasswordRecoveryThread.

(** ** main.py: the observer's handlers of the search signals *)

Module PDFPasswordRecoveryApp.

Import PasswordRecoveryThread.

Record window : Type := {
  progress_bar : Z;
  result_label : string
}.

(** [update_progress] *)
Definition update_progress (value : Z) (self : window) : window :=
  {| progress_bar := value; result_label := result_label self |}.

(** [on_password_found] *)
Definition on_password_found (password : string) (self : window) : window :=
  {| progress_bar := 100;
     result_label := ("Password Found: " ++ password)%string |}.

(** [on_password_not_found] *)
Definition on_password_not_found (self : window) : window :=
  {| progress_bar := 100;
     result_label := "No password found. Try different options." |}.

(** The slot connected to each signal in [start_password_recovery]. *)
Definition deliver (s : signal) (self : window) : window :=
  match s with
  | progress_update value => update_progress value self
  | password_found password => on_password_found password self
  | password_not_found => on_password_not_found self
  | memory_warning _ => self
  | current_password_update _ => self
  end.

End PDFPasswordRecoveryApp.

(** * The vocabulary of the properties *)

Import password_generator.

(** ** The estimate *)

(** The estimate as the specification words it: the number of characters of
    the selected classes, [26] when none is selected, and the sum of its
    powers over the lengths, capped unless the generator is unlimited. *)
Definition selected_size (lowercase uppercase digit special : bool) : Z :=
  (if lowercase then 26 else 0) + (if uppercase then 26 else 0)
  + (if digit then 10 else 0) + (if special then 8 else 0).

Definition charset_size (lowercase uppercase digit special : bool) : Z :=
  if negb (lowercase || uppercase || digit || special) then 26
  else selected_size lowercase uppercase digit special.

(** [sum_of_powers n lo k] is the sum of [n ^ L] for [lo <= L < lo + k]. *)
Fixpoint sum_of_powers (n : Z) (lo k : nat) : Z :=
  match k with
  | O => 0
  | S k' => n ^ Z.of_nat lo + sum_of_powers n (S lo) k'
  end.

Definition spec_estimate (min_length max_length : nat)
  (lowercase uppercase digit special unlimited : bool) : Z :=
  let total :=
    sum_of_powers (charset_size lowercase uppercase digit special)
      min_length (max_length + 1 - min_length) in
  if unlimited then total else Z.min total 1000000.

(** ** Runs of the generator *)

(** No callback ever asks the generator to stop. *)
Definition never_cancels {W : Type} (cbs : callbacks W) : Prop :=
  (forall f, progress_callback cbs = Some f ->
             forall c t w, fst (f c t w) = true)
  /\ (forall f, pattern_callback cbs = Some f ->
                forall p w, fst (f p w) = true).

(** The candidates of a given length in a list, in their order. *)
Definition of_length (L : nat) (pw : list string) : list string :=
  filter (fun s => (String.length s =? L)%nat) pw.

(** The callbacks that are not there. *)
Definition no_callbacks : callbacks unit :=
  {| progress_callback := None; pattern_callback := None |}.

(** What the nested loops of lines 171 to 176 of [generate_passwords] run
    through: lowercase prefixes of length [L // 2], each followed by the
    digit suffixes of the remaining length. *)
Definition mixed (L : nat) : list string :=
  flat_map
    (fun letters =>
       map (fun digit_part => (letters ++ digit_part)%string)
         (product digits (L - L / 2)))
    (product ascii_lowercase (L / 2)).

(** What the three guarded loops of lines 114 to 192 of [generate_passwords]
    run through at a length above 3, guarded as the code guards them: by the
    options [use_lowercase] and [use_digits] themselves. *)
Definition fallback (self : PasswordGenerator) (L : nat) : list string :=
  (if use_lowercase self then product ascii_lowercase L else [])
  ++ (if use_digits self then product digits L else [])
  ++ (if use_lowercase self && use_digits self then mixed L else []).

(** ** The candidates as the specification words them *)

(** The character classes: the 26 lowercase letters, the 26 uppercase
    letters and the 10 digits, by their character codes, and the 8 special
    symbols, of which the specification fixes the number only. *)
Definition spec_lowercase : list ascii := map ascii_of_nat (seq 97 26).
Definition spec_uppercase : list ascii := map ascii_of_nat (seq 65 26).
Definition spec_digit : list ascii := map ascii_of_nat (seq 48 10).
Definition spec_special : list ascii := list_ascii_of_string "!@#$%^&*".

(** A class is active when it is selected; lowercase is also active when no
    class is selected. *)
Definition lowercase_active (lowercase uppercase digit special : bool) : bool :=
  lowercase || negb (lowercase || uppercase || digit || special).

(** The active character set: the active classes in the order lowercase,
    uppercase, digits, special. *)
Definition spec_charset (lowercase uppercase digit special : bool)
  : list ascii :=
  (if lowercase_active lowercase uppercase digit special
   then spec_lowercase else [])
  ++ (if uppercase then spec_uppercase else [])
  ++ (if digit then spec_digit else [])
  ++ (if special then spec_special else []).

(** The string of [n] positions that shows [k] on an odometer whose wheels
    carry the alphabet: the leftmost position is the most significant. *)
Fixpoint odometer (alphabet : list ascii) (n k : nat) : string :=
  match n with
  | O => EmptyString
  | S m =>
      String (nth (k / List.length alphabet ^ m) alphabet Ascii.zero)
        (odometer alphabet m (k mod List.length alphabet ^ m))
  end.

(** The full cartesian product of the alphabet at length [n] in odometer
    order, the rightmost position varying fastest: the odometer read at
    [0], [1], ..., [len(alphabet) ** n - 1]. *)
Definition spec_product (alphabet : list ascii) (n : nat) : list string :=
  map (odometer alphabet n) (seq 0 (List.length alphabet ^ n)).

(** The structured fallback at length [L]: the lowercase product if
    lowercase is active, the digit product if digits are active, and, if
    [L >= 4] and both are active, the lowercase prefixes of length
    [L / 2] each followed by the digit suffixes of length [L - L / 2],
    prefix in the outer loop. *)
Definition spec_mixed (L : nat) : list string :=
  flat_map
    (fun prefix =>
       map (fun suffix => (prefix ++ suffix)%string)
         (spec_product spec_digit (L - L / 2)))
    (spec_product spec_lowercase (L / 2)).

Definition spec_fallback (lowercase uppercase digit special : bool) (L : nat)
  : list string :=
  (if lowercase_active lowercase uppercase digit special
   then spec_product spec_lowercase L else [])
  ++ (if digit then spec_product spec_digit L else [])
  ++ (if (4 <=? L)%nat && lowercase_active lowercase uppercase digit special
         && digit
      then spec_mixed L else []).

(** ** The memory checks *)

(** The warning threshold [self.memory_limit_mb * 0.8]. *)
Definition warning_threshold (memory_limit_mb : Z) : float :=
  PrimFloat.mul (float_of_int memory_limit_mb) 0.8.

(** ** The decryption attempt and the search *)

(** The attempt succeeds: the file opens, parses and closes, and the
    document is either not encrypted or decrypted by the password. *)
Definition opens_with_password {File Reader : Type}
  (lib : pdf_recovery.pdf_library File Reader) (pdf_path password : string)
  : Prop :=
  exists file reader,
    pdf_recovery.open_rb lib pdf_path = pdf_recovery.Ok file
    /\ pdf_recovery.PdfReader lib file = pdf_recovery.Ok reader
    /\ (exists u, pdf_recovery.close lib file = pdf_recovery.Ok u)
    /\ (pdf_recovery.is_encrypted lib reader = pdf_recovery.Ok false
        \/ (pdf_recovery.is_encrypted lib reader = pdf_recovery.Ok true
            /\ exists v,
                 pdf_recovery.decrypt lib reader password = pdf_recovery.Ok v
                 /\ v <> 0)).

(** The candidate at index [j]. *)
Definition candidate (self : PasswordRecoveryThread.thread) (j : nat) : string :=
  nth j (PasswordRecoveryThread.password_list self) EmptyString.

(** No memory sample exceeds the ceiling, so that [check_memory_usage]
    never cancels. *)
Definition calm {File Reader : Type}
  (env : PasswordRecoveryThread.surroundings File Reader) (limit : Z) : Prop :=
  forall i bytes,
    PasswordRecoveryThread.memory_at env i = Rss bytes ->
    float_gt (memory_mb_of bytes) (float_of_int limit) = false.

(** The attempts at the indices [k], [k + 1], ..., [n - 1] of the list [pl],
    in this order. *)
Definition tests (pl : list string) (k n : nat) : list (nat * string) :=
  map (fun j => (j, nth j pl EmptyString)) (seq k (n - k)).

(** The observer's window after the signals were delivered in order. *)
Definition deliver_all (signals : list PasswordRecoveryThread.signal)
  (w : PDFPasswordRecoveryApp.window) : PDFPasswordRecoveryApp.window :=
  fold_left (fun w s => PDFPasswordRecoveryApp.deliver s w) signals w.

(** * Properties of the candidate generator *)

(** ** The estimate *)

Definition char_count_of (self : PasswordGenerator) : Z :=
  charset_size (use_lowercase self) (use_uppercase self)
    (use_digits self) (use_special self).

Lemma fold_left_powers (n : Z) (k lo : nat) (acc : Z) :
  fold_left (fun total length => total + n ^ Z.of_nat length) (seq lo k) acc
  = acc + sum_of_powers n lo k.
Proof.
  revert lo acc.
  induction k as [|k IH]; intros lo acc; simpl.
  - lia.
  - rewrite IH. lia.
Qed.

Lemma estimate_count_unfold (self : PasswordGenerator) :
  estimate_count self =
  let total :=
    sum_of_powers (char_count_of self) (min_length self)
      (max_length self + 1 - min_length self) in
  match MAX_PASSWORDS self with
  | Infinity => total
  | Finite m => Z.min total m
  end.
Proof.
  unfold estimate_count, char_count_of, charset_size, selected_size, range.
  cbv zeta.
  rewrite fold_left_powers.
  destruct (use_lowercase self), (use_uppercase self), (use_digits self),
    (use_special self); reflexivity.
Qed.

(** C7. [estimate_count] is a function of the generator's options alone and
    equals the capped sum of the powers of the character count ([26] for
    lowercase, [26] for uppercase, [10] for digits, [8] for special
    characters, [26] when nothing is selected): the sum itself when the
    generator is unlimited, its minimum with 1,000,000 otherwise.  For
    lengths 1 to 2 over lowercase letters and digits it is 1332. *)
Theorem estimate_count_is_capped_sum :
  (forall (min_len max_len : nat) (lo up di sp unlimited : bool),
      estimate_count (init min_len max_len lo up di sp unlimited)
      = spec_estimate min_len max_len lo up di sp unlimited)
  /\ estimate_count (init 1 2 true false true false false) = 1332.
Proof.
  split.
  - intros min_len max_len lo up di sp unlimited.
    rewrite estimate_count_unfold.
    unfold spec_estimate, char_count_of; simpl.
    destruct unlimited; reflexivity.
  - reflexivity.
Qed.

(** ** Loops with early return *)

Lemma for_each_app {X A : Type} (xs ys : list X) (body : X -> A -> flow A) (a : A) :
  for_each (xs ++ ys) body a = (a' <- for_each xs body a ;; for_each ys body a').
Proof.
  revert a.
  induction xs as [|x xs IH]; intro a; simpl.
  - reflexivity.
  - destruct (body x a) as [a'|a']; simpl.
    + apply IH.
    + reflexivity.
Qed.

Lemma for_each_map {X Y A : Type} (g : X -> Y) (xs : list X)
  (body : Y -> A -> flow A) (a : A) :
  for_each (map g xs) body a = for_each xs (fun x => body (g x)) a.
Proof.
  revert a.
  induction xs as [|x xs IH]; intro a; simpl.
  - reflexivity.
  - destruct (body (g x) a) as [a'|a']; simpl; [apply IH | reflexivity].
Qed.

(** Two nested loops visit the pairs in the order of the flattened list. *)
Lemma for_each_nested {X Y Z A : Type} (g : X -> Y -> Z) (xs : list X)
  (ys : list Y) (body : Z -> A -> flow A) (a : A) :
  for_each xs (fun x => for_each ys (fun y => body (g x y))) a
  = for_each (flat_map (fun x => map (g x) ys) xs) body a.
Proof.
  revert a.
  induction xs as [|x xs IH]; intro a; simpl.
  - reflexivity.
  - rewrite for_each_app, for_each_map.
    destruct (for_each ys (fun y => body (g x y)) a) as [a'|a']; simpl.
    + apply IH.
    + reflexivity.
Qed.

(** ** Strings and products *)

Lemma string_length_app (s t : string) :
  String.length (s ++ t)%string = (String.length s + String.length t)%nat.
Proof.
  induction s as [|c s IH]; simpl.
  - reflexivity.
  - now rewrite IH.
Qed.

Lemma length_list_ascii_of_string (s : string) :
  List.length (list_ascii_of_string s) = String.length s.
Proof.
  induction s as [|c s IH]; simpl; [reflexivity | now rewrite IH].
Qed.

Lemma product_chars_strlen (chars : list ascii) (n : nat) (s : string) :
  In s (product_chars chars n) -> String.length s = n.
Proof.
  revert s.
  induction n as [|n IH]; intros s Hin; simpl in Hin.
  - destruct Hin as [<-|[]]. reflexivity.
  - apply in_flat_map in Hin. destruct Hin as [c [_ Hin]].
    apply in_map_iff in Hin. destruct Hin as [t [<- Ht]].
    simpl. now rewrite (IH t Ht).
Qed.

Lemma product_chars_length (chars : list ascii) (n : nat) :
  Z.of_nat (List.length (product_chars chars n))
  = Z.of_nat (List.length chars) ^ Z.of_nat n.
Proof.
  induction n as [|n IH].
  - reflexivity.
  - cbn [product_chars].
    rewrite (flat_map_constant_length (c := List.length (product_chars chars n))).
    + rewrite Nat2Z.inj_mul, IH, Nat2Z.inj_succ, Z.pow_succ_r by lia.
      reflexivity.
    + intros c _. apply length_map.
Qed.

Lemma product_strlen (chars : string) (n : nat) :
  Forall (fun s => String.length s = n) (product chars n).
Proof. apply Forall_forall. intro s. apply product_chars_strlen. Qed.

Lemma product_length (chars : string) (n : nat) :
  Z.of_nat (List.length (product chars n))
  = Z.of_nat (String.length chars) ^ Z.of_nat n.
Proof.
  unfold product. now rewrite product_chars_length, length_list_ascii_of_string.
Qed.

(** The order of [itertools.product]: the rightmost position varies
    fastest. *)
Example product_order :
  product "ab" 2 = ["aa"; "ab"; "ba"; "bb"]%string.
Proof. reflexivity. Qed.

Example generate_single_digits :
  generate_passwords (init 1 1 false false true false false) no_callbacks tt
  = ["0"; "1"; "2"; "3"; "4"; "5"; "6"; "7"; "8"; "9"]%string.
Proof. reflexivity. Qed.

(** The character set has as many characters as [estimate_count] counts. *)
Lemma charset_length (self : PasswordGenerator) :
  Z.of_nat (String.length (charset self)) = char_count_of self.
Proof.
  unfold charset, char_count_of.
  destruct (use_lowercase self), (use_uppercase self), (use_digits self),
    (use_special self); reflexivity.
Qed.

Lemma char_count_bounds (self : PasswordGenerator) :
  8 <= char_count_of self <= 70.
Proof.
  unfold char_count_of.
  destruct (use_lowercase self), (use_uppercase self), (use_digits self),
    (use_special self); cbv; split; discriminate.
Qed.

Lemma char_count_classes (self : PasswordGenerator) :
  (if use_lowercase self then 26 else 0) + (if use_digits self then 10 else 0)
  <= char_count_of self.
Proof.
  unfold char_count_of.
  destruct (use_lowercase self), (use_uppercase self), (use_digits self),
    (use_special self); cbv; discriminate.
Qed.

(** ** Counting the fallback *)

Lemma pow_sum_lower (a b : Z) (k : nat) :
  0 <= a -> 0 <= b -> (0 < k)%nat ->
  a ^ Z.of_nat k + b ^ Z.of_nat k <= (a + b) ^ Z.of_nat k.
Proof. intros Ha Hb Hk. apply Z.pow_add_lower; lia. Qed.

(** Splitting the exponent: the pure powers and one mixed term fit under the
    power of the sum. *)
Lemma pow_split_lower (a b : Z) (h r : nat) :
  0 <= a -> 0 <= b -> (0 < h)%nat -> (0 < r)%nat ->
  a ^ Z.of_nat (h + r) + b ^ Z.of_nat (h + r)
  + a ^ Z.of_nat h * b ^ Z.of_nat r
  <= (a + b) ^ Z.of_nat (h + r).
Proof.
  intros Ha Hb Hh Hr.
  rewrite Nat2Z.inj_add, !Z.pow_add_r by lia.
  pose proof (pow_sum_lower a b h Ha Hb Hh) as H1.
  pose proof (pow_sum_lower a b r Ha Hb Hr) as H2.
  pose proof (Z.pow_nonneg a (Z.of_nat h) Ha) as Pah.
  pose proof (Z.pow_nonneg a (Z.of_nat r) Ha) as Par.
  pose proof (Z.pow_nonneg b (Z.of_nat h) Hb) as Pbh.
  pose proof (Z.pow_nonneg b (Z.of_nat r) Hb) as Pbr.
  set (ah := a ^ Z.of_nat h) in *. set (ar := a ^ Z.of_nat r) in *.
  set (bh := b ^ Z.of_nat h) in *. set (br := b ^ Z.of_nat r) in *.
  set (sh := (a + b) ^ Z.of_nat h) in *. set (sr := (a + b) ^ Z.of_nat r) in *.
  assert (Hprod : (ah + bh) * (ar + br) <= sh * sr)
    by (apply Z.mul_le_mono_nonneg; lia).
  nia.
Qed.


(** The sum of [n ^ L] over a list of lengths. *)
Fixpoint powers_over (n : Z) (ls : list nat) : Z :=
  match ls with
  | [] => 0
  | L :: rest => n ^ Z.of_nat L + powers_over n rest
  end.

Lemma powers_over_seq (n : Z) (k lo : nat) :
  powers_over n (seq lo k) = sum_of_powers n lo k.
Proof.
  revert lo. induction k as [|k IH]; intro lo; simpl; [reflexivity|].
  now rewrite IH.
Qed.

Lemma powers_over_nonneg (n : Z) (ls : list nat) :
  0 <= n -> 0 <= powers_over n ls.
Proof.
  intro Hn. induction ls as [|L ls IH]; simpl; [lia|].
  pose proof (Z.pow_nonneg n (Z.of_nat L) Hn). lia.
Qed.

Lemma Forall_firstn_of {A : Type} (P : A -> Prop) (k : nat) (xs : list A) :
  Forall P xs -> Forall P (firstn k xs).
Proof.
  intro H. rewrite <- (firstn_skipn k xs) in H.
  now apply Forall_app in H.
Qed.


Lemma of_length_all (L : nat) (pw : list string) :
  Forall (fun s => String.length s = L) pw -> of_length L pw = pw.
Proof.
  induction 1 as [|s pw Hs _ IH]; simpl; [reflexivity|].
  rewrite (proj2 (Nat.eqb_eq _ _) Hs). now rewrite IH.
Qed.

Lemma of_length_none (L : nat) (pw : list string) :
  Forall (fun s => String.length s <> L) pw -> of_length L pw = [].
Proof.
  induction 1 as [|s pw Hs _ IH]; simpl; [reflexivity|].
  now rewrite (proj2 (Nat.eqb_neq _ _) Hs).
Qed.

Lemma of_length_app (L : nat) (xs ys : list string) :
  of_length L (xs ++ ys) = of_length L xs ++ of_length L ys.
Proof. apply filter_app. Qed.


(** ** What one candidate loop does to the generator's state *)

Section CandidateLoops.

Variable W : Type.
Variable self : PasswordGenerator.
Variable cbs : callbacks W.
Variable total interval : Z.

Local Notation "'state'" := (gen_state W).
Local Notation "'emit_one'" := (emit W self cbs total interval).

(** A progress call reports a count between [lo] and [hi], against the
    estimate [total]. *)
Definition call_ok (lo hi : Z) (c : call) : Prop :=
  match c with
  | ProgressCall n t => lo <= n <= hi /\ t = total
  | PatternCall _ => True
  end.

(** [st'] is [st] after appending exactly [added]. *)
Definition extends (st st' : state) (added : list string) : Prop :=
  passwords st' = passwords st ++ added
  /\ count st' = count st + Z.of_nat (List.length added)
  /\ exists new, calls st' = calls st ++ new
                 /\ Forall (call_ok (count st) (count st')) new.

Lemma call_ok_widen (lo hi lo' hi' : Z) (c : call) :
  lo' <= lo -> hi <= hi' -> call_ok lo hi c -> call_ok lo' hi' c.
Proof. destruct c; simpl; intuition lia. Qed.

Lemma extends_refl (st : state) : extends st st [].
Proof.
  repeat split; simpl.
  - now rewrite app_nil_r.
  - lia.
  - exists []. split; [now rewrite app_nil_r | constructor].
Qed.

Lemma extends_trans (a b c : state) (xs ys : list string) :
  extends a b xs -> extends b c ys -> extends a c (xs ++ ys).
Proof.
  intros (Hp1 & Hc1 & n1 & Hl1 & Hf1) (Hp2 & Hc2 & n2 & Hl2 & Hf2).
  repeat split.
  - now rewrite Hp2, Hp1, app_assoc.
  - rewrite Hc2, Hc1, length_app. lia.
  - exists (n1 ++ n2). split.
    + now rewrite Hl2, Hl1, app_assoc.
    + apply Forall_app. split.
      * eapply Forall_impl; [|exact Hf1]. intro x. apply call_ok_widen; lia.
      * eapply Forall_impl; [|exact Hf2]. intro x. apply call_ok_widen; lia.
Qed.

Lemma call_progress_extends (f : Z -> Z -> W -> bool * W) (st : state) :
  extends st (snd (call_progress W f (count st) total st)) [].
Proof.
  unfold call_progress. destruct (f (count st) total (world st)) as [r w].
  repeat split; simpl.
  - now rewrite app_nil_r.
  - lia.
  - exists [ProgressCall (count st) total]. split; [reflexivity|].
    constructor; [simpl; lia | constructor].
Qed.

Lemma call_pattern_extends (f : string -> W -> bool * W) (p : string) (st : state) :
  extends st (snd (call_pattern W f p st)) [].
Proof.
  unfold call_pattern. destruct (f p (world st)) as [r w].
  repeat split; simpl.
  - now rewrite app_nil_r.
  - lia.
  - exists [PatternCall p]. split; [reflexivity|].
    constructor; [exact I | constructor].
Qed.

Lemma notify_progress_extends (st : state) :
  extends st (notify_progress W cbs (count st) total st) [].
Proof.
  unfold notify_progress. destruct (progress_callback cbs).
  - apply call_progress_extends.
  - apply extends_refl.
Qed.

Lemma notify_pattern_extends (label : string) (st : state) :
  extends st (notify_pattern W cbs label st) [].
Proof.
  unfold notify_pattern. destruct (pattern_callback cbs).
  - apply call_pattern_extends.
  - apply extends_refl.
Qed.

Lemma extends_count_same (st st' : state) :
  extends st st' [] -> count st' = count st.
Proof. intros (_ & Hc & _). simpl in Hc. lia. Qed.

(** The state right after [passwords.append(pattern); count += 1]. *)
Definition appended (pattern : string) (st : state) : state :=
  {| passwords := passwords st ++ [pattern]; count := count st + 1;
     world := world st; calls := calls st |}.

Lemma appended_extends (pattern : string) (st : state) :
  extends st (appended pattern st) [pattern].
Proof.
  unfold extends, appended; cbn [passwords count calls List.length].
  split; [reflexivity|]. split; [lia|].
  exists []. split; [now rewrite app_nil_r | constructor].
Qed.

(** Whatever the callbacks answer, [emit] appends its candidate and counts
    it; it goes on only below the limit. *)
Lemma emit_extends (pattern : string) (st : state) :
  extends st (flow_state (emit_one pattern st)) [pattern]
  /\ (returned (emit_one pattern st) = false ->
      ge_limit (count st + 1) (MAX_PASSWORDS self) = false).
Proof.
  unfold emit. fold (appended pattern st).
  pose proof (appended_extends pattern st) as H0.
  set (s0 := appended pattern st) in *.
  assert (Hs0 : count s0 = count st + 1) by reflexivity.
  (* the progress report *)
  assert (H1 : forall r1,
    r1 = match progress_callback cbs with
         | Some f =>
             if count s0 mod interval =? 0
             then let '(ok, st') := call_progress W f (count s0) total s0 in
                  if ok then Next st' else Return st'
             else Next s0
         | None => Next s0
         end -> extends s0 (flow_state r1) []).
  { intros r1 ->. destruct (progress_callback cbs) as [f|].
    - destruct (count s0 mod interval =? 0).
      + pose proof (call_progress_extends f s0) as Hx.
        destruct (call_progress W f (count s0) total s0) as [ok s1].
        destruct ok; exact Hx.
      + apply extends_refl.
    - apply extends_refl. }
  match goal with |- context [flow_bind ?m _] => specialize (H1 m eq_refl);
    destruct m as [s1|s1] end; simpl in H1.
  2:{ split; [|discriminate].
      change [pattern] with ([pattern] ++ []). eapply extends_trans; eassumption. }
  simpl.
  pose proof (extends_count_same _ _ H1) as Hs1.
  assert (H2 : forall r2,
    r2 = match pattern_callback cbs with
         | Some f =>
             if count s1 mod (interval * 10) =? 0
             then let '(ok, st') := call_pattern W f pattern s1 in
                  if ok then Next st' else Return st'
             else Next s1
         | None => Next s1
         end -> extends s1 (flow_state r2) []).
  { intros r2 ->. destruct (pattern_callback cbs) as [f|].
    - destruct (count s1 mod (interval * 10) =? 0).
      + pose proof (call_pattern_extends f pattern s1) as Hx.
        destruct (call_pattern W f pattern s1) as [ok s2].
        destruct ok; exact Hx.
      + apply extends_refl.
    - apply extends_refl. }
  match goal with |- context [flow_bind ?m _] => specialize (H2 m eq_refl);
    destruct m as [s2|s2] end; simpl in H2.
  2:{ split; [|discriminate]. simpl.
      change [pattern] with ([pattern] ++ [] ++ []).
      eapply extends_trans; [eassumption|].
      eapply extends_trans; eassumption. }
  simpl.
  pose proof (extends_count_same _ _ H2) as Hs2.
  assert (H12 : extends st s2 [pattern]).
  { change [pattern] with ([pattern] ++ [] ++ []).
    eapply extends_trans; [eassumption|].
    eapply extends_trans; eassumption. }
  destruct (ge_limit (count s2) (MAX_PASSWORDS self)) eqn:Hge; simpl.
  - split; [|discriminate].
    rewrite <- (app_nil_r [pattern]).
    eapply extends_trans; [exact H12 | apply notify_progress_extends].
  - split; [exact H12|]. intros _. rewrite <- Hge. f_equal. lia.
Qed.

(** The state stays below the limit until a loop returns. *)
Definition below_limit (st : state) : Prop :=
  forall m, MAX_PASSWORDS self = Finite m -> count st < m.

Definition within_limit (st : state) : Prop :=
  forall m, MAX_PASSWORDS self = Finite m -> count st <= m.

(** [r] is the outcome of a loop over the candidates [xs] started in [st]:
    a prefix of [xs] was appended, all of it unless the loop returned, and
    the limit was respected. *)
Definition emits (xs : list string) (st : state) (r : flow state) : Prop :=
  exists k : nat,
    extends st (flow_state r) (firstn k xs)
    /\ (returned r = false -> firstn k xs = xs)
    /\ (below_limit st ->
        within_limit (flow_state r)
        /\ (returned r = false -> below_limit (flow_state r))).

Lemma emits_nil (st : state) : emits [] st (Next st).
Proof.
  exists 0%nat. split; [apply extends_refl|]. split; [reflexivity|].
  intro Hb. split; [|intros _; exact Hb].
  intros m Hm. specialize (Hb m Hm). cbn [flow_state]. lia.
Qed.

Lemma emits_emit (pattern : string) (st : state) :
  emits [pattern] st (emit_one pattern st).
Proof.
  destruct (emit_extends pattern st) as [Hext Hnext].
  exists 1%nat. split; [exact Hext|]. split; [reflexivity|].
  intro Hb. destruct Hext as (_ & Hc & _).
  cbn [List.length] in Hc.
  split.
  - intros m Hm. specialize (Hb m Hm). lia.
  - intros Hr m Hm. specialize (Hnext Hr). rewrite Hm in Hnext. simpl in Hnext.
    apply Z.leb_gt in Hnext. lia.
Qed.

Lemma emits_bind (xs ys : list string) (st : state) (r : flow state)
  (k : state -> flow state) :
  emits xs st r ->
  (forall st1, r = Next st1 -> emits ys st1 (k st1)) ->
  emits (xs ++ ys) st (flow_bind r k).
Proof.
  intros (n & Hext & Hall & Hlim) Hk.
  destruct r as [st1|st1]; simpl in *.
  - specialize (Hall eq_refl). rewrite Hall in Hext.
    destruct (Hk st1 eq_refl) as (n2 & Hext2 & Hall2 & Hlim2).
    exists (List.length xs + n2)%nat.
    rewrite firstn_app_2.
    split; [eapply extends_trans; eassumption|].
    split.
    + intro Hr. now rewrite (Hall2 Hr).
    + intro Hb. destruct (Hlim Hb) as [_ Hb1]. apply Hlim2. now apply Hb1.
  - exists (Nat.min n (List.length xs)).
    assert (Hfirst : firstn (Nat.min n (List.length xs)) (xs ++ ys) = firstn n xs).
    { rewrite firstn_app.
      replace (Nat.min n (List.length xs) - List.length xs)%nat with 0%nat by lia.
      simpl. rewrite app_nil_r.
      destruct (Nat.le_ge_cases n (List.length xs)) as [Hle|Hge].
      - now rewrite Nat.min_l.
      - rewrite Nat.min_r by assumption.
        now rewrite firstn_all, firstn_all2. }
    rewrite Hfirst.
    split; [exact Hext|]. split; [discriminate|exact Hlim].
Qed.

(** A notification in front of a loop changes neither list nor count. *)
Lemma emits_after (xs : list string) (st st0 : state) (r : flow state) :
  extends st st0 [] -> emits xs st0 r -> emits xs st r.
Proof.
  intros H0 (n & Hext & Hall & Hlim).
  pose proof (extends_count_same _ _ H0) as Hc.
  exists n. split; [exact (extends_trans _ _ _ [] _ H0 Hext)|].
  split; [exact Hall|].
  intro Hb. apply Hlim. intros m Hm. rewrite Hc. now apply Hb.
Qed.

Lemma emits_for_each (xs : list string) (st : state) :
  emits xs st (for_each xs emit_one st).
Proof.
  revert st.
  induction xs as [|x xs IH]; intro st.
  - apply emits_nil.
  - change (x :: xs) with ([x] ++ xs). simpl for_each.
    apply emits_bind; [apply emits_emit|].
    intros st1 _. apply IH.
Qed.


(** ** The candidates of one length *)

(** The candidates the generator sets out to emit at length [L] when [cnt]
    candidates have been emitted before. *)
Definition candidates (L : nat) (cnt : Z) : list string :=
  if gt_limit (Z.of_nat (String.length (charset self)) ^ Z.of_nat L + cnt)
       (MAX_PASSWORDS self)
  then if (L <=? 3)%nat then product (charset self) L else fallback self L
  else product (charset self) L.

Local Notation "'body'" :=
  (length_body W self cbs total interval (charset self)).

Lemma length_body_emits (L : nat) (st : state) :
  emits (candidates L (count st)) st (body L st).
Proof.
  unfold length_body, candidates.
  destruct (gt_limit _ (MAX_PASSWORDS self)).
  - destruct (L <=? 3)%nat eqn:HL.
    + eapply emits_after; [apply notify_pattern_extends | apply emits_for_each].
    + apply Nat.leb_gt in HL.
      replace (4 <=? L)%nat with true by (symmetry; apply Nat.leb_le; lia).
      unfold fallback. cbn [andb].
      apply emits_bind.
      { destruct (use_lowercase self).
        - eapply emits_after; [apply notify_pattern_extends | apply emits_for_each].
        - apply emits_nil. }
      intros st1 _. apply emits_bind.
      { destruct (use_digits self).
        - eapply emits_after; [apply notify_pattern_extends | apply emits_for_each].
        - apply emits_nil. }
      intros st2 _.
      destruct (use_lowercase self && use_digits self).
      * eapply emits_after; [apply notify_pattern_extends|].
        rewrite (for_each_nested
                   (fun letters digit_part => (letters ++ digit_part)%string)).
        apply emits_for_each.
      * apply emits_nil.
  - eapply emits_after; [apply notify_pattern_extends | apply emits_for_each].
Qed.

Lemma mixed_strlen (L : nat) : Forall (fun s => String.length s = L) (mixed L).
Proof.
  apply Forall_forall. intros s Hin. unfold mixed in Hin.
  apply in_flat_map in Hin. destruct Hin as [p [Hp Hin]].
  apply in_map_iff in Hin. destruct Hin as [d [<- Hd]].
  apply product_chars_strlen in Hp, Hd.
  rewrite string_length_app, Hp, Hd.
  pose proof (Nat.div_mod_eq L 2). pose proof (Nat.mod_upper_bound L 2). lia.
Qed.

Lemma fallback_strlen (L : nat) :
  Forall (fun s => String.length s = L) (fallback self L).
Proof.
  unfold fallback. repeat (apply Forall_app; split).
  - destruct (use_lowercase self); [apply product_strlen | constructor].
  - destruct (use_digits self); [apply product_strlen | constructor].
  - destruct (use_lowercase self && use_digits self);
      [apply mixed_strlen | constructor].
Qed.

Lemma candidates_strlen (L : nat) (cnt : Z) :
  Forall (fun s => String.length s = L) (candidates L cnt).
Proof.
  unfold candidates.
  destruct (gt_limit _ _); [destruct (L <=? 3)%nat|];
    auto using product_strlen, fallback_strlen.
Qed.


Lemma mixed_length (L : nat) :
  Z.of_nat (List.length (mixed L))
  = 26 ^ Z.of_nat (L / 2) * 10 ^ Z.of_nat (L - L / 2).
Proof.
  unfold mixed.
  rewrite (flat_map_constant_length
             (c := List.length (product digits (L - L / 2)))).
  - rewrite Nat2Z.inj_mul, !product_length. reflexivity.
  - intros p _. apply length_map.
Qed.

Lemma fallback_length (L : nat) :
  (3 < L)%nat ->
  Z.of_nat (List.length (fallback self L)) <= char_count_of self ^ Z.of_nat L.
Proof.
  intro HL.
  pose proof (char_count_classes self) as Hn.
  unfold fallback. rewrite !length_app, !Nat2Z.inj_add.
  assert (Hh : (0 < L / 2)%nat /\ (0 < L - L / 2)%nat /\ (L / 2 + (L - L / 2) = L)%nat).
  { pose proof (Nat.div_mod_eq L 2). pose proof (Nat.mod_upper_bound L 2). lia. }
  destruct Hh as (Hh1 & Hh2 & Hh3).
  pose proof (pow_split_lower 26 10 _ _ ltac:(lia) ltac:(lia) Hh1 Hh2) as Hsplit.
  rewrite Hh3 in Hsplit.
  destruct (use_lowercase self), (use_digits self); cbn [andb List.length];
    rewrite ?product_length, ?mixed_length; cbn [String.length ascii_lowercase digits].
  - etransitivity; [|apply Z.pow_le_mono_l; split; [|exact Hn]; lia].
    change (Z.of_nat 26) with 26. change (Z.of_nat 10) with 10.
    change (26 + 10) with 36 in *. lia.
  - etransitivity; [|apply Z.pow_le_mono_l; split; [|exact Hn]; lia].
    change (Z.of_nat 26) with 26. change (26 + 0) with 26. lia.
  - etransitivity; [|apply Z.pow_le_mono_l; split; [|exact Hn]; lia].
    change (Z.of_nat 10) with 10. change (0 + 10) with 10. lia.
  - apply Z.pow_nonneg. lia.
Qed.

Lemma candidates_length (L : nat) (cnt : Z) :
  Z.of_nat (List.length (candidates L cnt)) <= char_count_of self ^ Z.of_nat L.
Proof.
  unfold candidates. rewrite charset_length.
  destruct (gt_limit _ _).
  - destruct (L <=? 3)%nat eqn:HL.
    + rewrite product_length, charset_length. lia.
    + apply Nat.leb_gt in HL. now apply fallback_length.
  - rewrite product_length, charset_length. lia.
Qed.


(** ** The loop over the lengths *)

(** The outcome of the loop over the lengths [ls] started in [st]: what was
    appended has lengths taken from [ls], is no more than the full products
    hold, and respects the limit. *)
Definition run_outcome (ls : list nat) (st : state) (r : flow state) : Prop :=
  exists added : list string,
    extends st (flow_state r) added
    /\ Forall (fun s => In (String.length s) ls) added
    /\ Z.of_nat (List.length added) <= powers_over (char_count_of self) ls
    /\ (below_limit st ->
        within_limit (flow_state r)
        /\ (returned r = false -> below_limit (flow_state r))).

Lemma run_emits (ls : list nat) (st : state) :
  run_outcome ls st (for_each ls body st).
Proof.
  revert st.
  induction ls as [|L ls IH]; intro st.
  - exists []. split; [apply extends_refl|]. split; [constructor|].
    split; [simpl; lia|]. intro Hb. split; [|intros _; exact Hb].
    intros m Hm. specialize (Hb m Hm). cbn [for_each flow_state]. lia.
  - cbn [for_each].
    destruct (length_body_emits L st) as (k & Hext & Hall & Hlim).
    pose proof (candidates_strlen L (count st)) as Hlen.
    pose proof (candidates_length L (count st)) as Hsize.
    assert (Hk : Z.of_nat (List.length (firstn k (candidates L (count st))))
                 <= char_count_of self ^ Z.of_nat L).
    { rewrite length_firstn. lia. }
    assert (HkL : Forall (fun s => In (String.length s) (L :: ls))
                    (firstn k (candidates L (count st)))).
    { apply Forall_firstn_of. eapply Forall_impl; [|exact Hlen].
      intros s ->. now left. }
    pose proof (char_count_bounds self) as Hn.
    destruct (body L st) as [s1|s1]; cbn [flow_bind flow_state returned] in *.
    + destruct (IH s1) as (added & Hext2 & Hin2 & Hsize2 & Hlim2).
      exists (firstn k (candidates L (count st)) ++ added).
      split; [eapply extends_trans; eassumption|].
      split.
      { apply Forall_app. split; [exact HkL|].
        eapply Forall_impl; [|exact Hin2]. intros s Hs. now right. }
      split.
      { rewrite length_app, Nat2Z.inj_add. cbn [powers_over]. lia. }
      intro Hb. apply Hlim2. now apply Hlim.
    + exists (firstn k (candidates L (count st))).
      split; [exact Hext|]. split; [exact HkL|].
      split.
      { cbn [powers_over].
        pose proof (powers_over_nonneg (char_count_of self) ls ltac:(lia)). lia. }
      exact Hlim.
Qed.


(** Lengths processed after [L] add no candidate of length [L]. *)
Lemma rest_of_run (L : nat) (ls : list nat) (st : state) (r1 : flow state)
  (added : list string) :
  extends st (flow_state r1) added ->
  (forall x, In x ls -> x <> L) ->
  of_length L (passwords (flow_state (a <- r1 ;; for_each ls body a)))
  = of_length L (passwords st ++ added).
Proof.
  intros (Hp & _) Hls.
  destruct r1 as [s1|s1]; cbn [flow_bind flow_state] in *.
  - destruct (run_emits ls s1) as (added' & (Hp' & _) & Hlen & _).
    rewrite Hp', Hp, of_length_app.
    rewrite (of_length_none L added'); [now rewrite app_nil_r|].
    eapply Forall_impl; [|exact Hlen].
    intros s Hs. now apply Hls.
  - now rewrite Hp.
Qed.


(** ** Runs in which no callback cancels *)

Section Uncancelled.

Hypothesis no_cancel : never_cancels cbs.

(** What fits under the limit of a list of candidates. *)
Definition quota (st : state) (xs : list string) : list string :=
  match MAX_PASSWORDS self with
  | Finite m => firstn (Z.to_nat (m - count st)) xs
  | Infinity => xs
  end.

(** A loop over [xs] that is never cancelled appends what fits under the
    limit and returns exactly when the limit is reached. *)
Definition fills (xs : list string) (st : state) (r : flow state) : Prop :=
  below_limit st ->
  extends st (flow_state r) (quota st xs)
  /\ returned r
     = ge_limit (count st + Z.of_nat (List.length xs)) (MAX_PASSWORDS self).

Lemma emit_returns (pattern : string) (st : state) :
  returned (emit_one pattern st)
  = ge_limit (count st + 1) (MAX_PASSWORDS self).
Proof.
  destruct no_cancel as [Hprog Hpat].
  unfold emit. fold (appended pattern st).
  set (s0 := appended pattern st).
  assert (Hc0 : count s0 = count st + 1) by reflexivity.
  assert (H1 : exists s1,
    match progress_callback cbs with
    | Some f =>
        if count s0 mod interval =? 0
        then let '(ok, st') := call_progress W f (count s0) total s0 in
             if ok then Next st' else Return st'
        else Next s0
    | None => Next s0
    end = Next s1 /\ count s1 = count s0).
  { destruct (progress_callback cbs) as [f|] eqn:Hf.
    - destruct (count s0 mod interval =? 0).
      + unfold call_progress.
        pose proof (Hprog f eq_refl (count s0) total (world s0)) as Hok.
        destruct (f (count s0) total (world s0)) as [ok w']. simpl in Hok.
        subst ok. eexists. split; reflexivity.
      + eexists. split; reflexivity.
    - eexists. split; reflexivity. }
  destruct H1 as (s1 & -> & Hc1). cbn [flow_bind].
  assert (H2 : exists s2,
    match pattern_callback cbs with
    | Some f =>
        if count s1 mod (interval * 10) =? 0
        then let '(ok, st') := call_pattern W f pattern s1 in
             if ok then Next st' else Return st'
        else Next s1
    | None => Next s1
    end = Next s2 /\ count s2 = count s1).
  { destruct (pattern_callback cbs) as [f|] eqn:Hf.
    - destruct (count s1 mod (interval * 10) =? 0).
      + unfold call_pattern.
        pose proof (Hpat f eq_refl pattern (world s1)) as Hok.
        destruct (f pattern (world s1)) as [ok w']. simpl in Hok.
        subst ok. eexists. split; reflexivity.
      + eexists. split; reflexivity.
    - eexists. split; reflexivity. }
  destruct H2 as (s2 & -> & Hc2). cbn [flow_bind].
  replace (count st + 1) with (count s2) by lia.
  destruct (ge_limit (count s2) (MAX_PASSWORDS self)); reflexivity.
Qed.

Lemma fills_nil (st : state) : fills [] st (Next st).
Proof.
  intro Hb. split.
  - unfold quota. destruct (MAX_PASSWORDS self); rewrite ?firstn_nil;
      apply extends_refl.
  - cbn [returned List.length]. unfold below_limit in Hb.
    destruct (MAX_PASSWORDS self) as [m|]; cbn [ge_limit]; [|reflexivity].
    specialize (Hb m eq_refl). symmetry. apply Z.leb_gt. lia.
Qed.

Lemma fills_emit (pattern : string) (st : state) :
  fills [pattern] st (emit_one pattern st).
Proof.
  intro Hb. split.
  - replace (quota st [pattern]) with [pattern]; [apply emit_extends|].
    unfold quota. unfold below_limit in Hb.
    destruct (MAX_PASSWORDS self) as [m|]; [|reflexivity].
    specialize (Hb m eq_refl).
    destruct (Z.to_nat (m - count st)) eqn:Hn; [lia|].
    cbn [firstn]. now rewrite firstn_nil.
  - apply emit_returns.
Qed.

Lemma fills_bind (xs ys : list string) (st : state) (r : flow state)
  (k : state -> flow state) :
  fills xs st r ->
  (forall st1, r = Next st1 -> fills ys st1 (k st1)) ->
  fills (xs ++ ys) st (flow_bind r k).
Proof.
  intros Hx Hk Hb. destruct (Hx Hb) as [Hext Hret].
  unfold quota, below_limit in *.
  destruct r as [st1|st1]; cbn [flow_bind flow_state returned] in *.
  - assert (Hb1 : forall m, MAX_PASSWORDS self = Finite m -> count st1 < m).
    { intros m Hm. rewrite Hm in *. cbn [ge_limit] in Hret.
      symmetry in Hret. apply Z.leb_gt in Hret.
      destruct Hext as (_ & Hc & _).
      rewrite length_firstn in Hc. lia. }
    destruct (Hk st1 eq_refl Hb1) as [Hext2 Hret2]. unfold quota in Hext2.
    destruct (MAX_PASSWORDS self) as [m|] eqn:Hm; cbn [ge_limit] in *.
    + symmetry in Hret. apply Z.leb_gt in Hret.
      assert (Hfull : firstn (Z.to_nat (m - count st)) xs = xs)
        by (apply firstn_all2; lia).
      rewrite Hfull in Hext.
      assert (Hc1 : count st1 = count st + Z.of_nat (List.length xs))
        by apply Hext.
      split.
      * replace (firstn (Z.to_nat (m - count st)) (xs ++ ys))
          with (xs ++ firstn (Z.to_nat (m - count st1)) ys).
        { eapply extends_trans; eassumption. }
        rewrite firstn_app, Hfull. f_equal. f_equal. lia.
      * rewrite Hret2, Hc1, length_app. f_equal. lia.
    + split; [eapply extends_trans; eassumption | exact Hret2].
  - destruct (MAX_PASSWORDS self) as [m|] eqn:Hm; cbn [ge_limit] in *;
      [|discriminate].
    symmetry in Hret. apply Z.leb_le in Hret. specialize (Hb m eq_refl).
    split.
    + replace (firstn (Z.to_nat (m - count st)) (xs ++ ys))
        with (firstn (Z.to_nat (m - count st)) xs); [exact Hext|].
      rewrite firstn_app.
      replace (Z.to_nat (m - count st) - List.length xs)%nat with 0%nat by lia.
      now rewrite firstn_O, app_nil_r.
    + symmetry. apply Z.leb_le. rewrite length_app. lia.
Qed.

Lemma fills_after (xs : list string) (st st0 : state) (r : flow state) :
  extends st st0 [] -> fills xs st0 r -> fills xs st r.
Proof.
  intros H0 Hf Hb.
  pose proof (extends_count_same _ _ H0) as Hc.
  destruct Hf as [Hext Hret].
  { intros m Hm. rewrite Hc. now apply Hb. }
  unfold quota in *. rewrite Hc in *.
  split; [exact (extends_trans _ _ _ [] _ H0 Hext) | exact Hret].
Qed.

Lemma fills_for_each (xs : list string) (st : state) :
  fills xs st (for_each xs emit_one st).
Proof.
  revert st.
  induction xs as [|x xs IH]; intro st.
  - apply fills_nil.
  - change (x :: xs) with ([x] ++ xs). simpl for_each.
    apply fills_bind; [apply fills_emit|].
    intros st1 _. apply IH.
Qed.

Lemma length_body_fills (L : nat) (st : state) :
  fills (candidates L (count st)) st (body L st).
Proof.
  unfold length_body, candidates.
  destruct (gt_limit _ (MAX_PASSWORDS self)).
  - destruct (L <=? 3)%nat eqn:HL.
    + eapply fills_after; [apply notify_pattern_extends | apply fills_for_each].
    + apply Nat.leb_gt in HL.
      replace (4 <=? L)%nat with true by (symmetry; apply Nat.leb_le; lia).
      unfold fallback. cbn [andb].
      apply fills_bind.
      { destruct (use_lowercase self).
        - eapply fills_after; [apply notify_pattern_extends | apply fills_for_each].
        - apply fills_nil. }
      intros st1 _. apply fills_bind.
      { destruct (use_digits self).
        - eapply fills_after; [apply notify_pattern_extends | apply fills_for_each].
        - apply fills_nil. }
      intros st2 _.
      destruct (use_lowercase self && use_digits self).
      * eapply fills_after; [apply notify_pattern_extends|].
        rewrite (for_each_nested
                   (fun letters digit_part => (letters ++ digit_part)%string)).
        apply fills_for_each.
      * apply fills_nil.
  - eapply fills_after; [apply notify_pattern_extends | apply fills_for_each].
Qed.

(** The limit is the one [__init__] sets, or none. *)
Hypothesis limit_of_init :
  forall m, MAX_PASSWORDS self = Finite m -> m = 1000000.

(** For lengths up to 3 the candidates are the full product, whichever way
    the comparison with the limit goes. *)
Lemma candidates_short (L : nat) (cnt : Z) :
  (L <= 3)%nat -> candidates L cnt = product (charset self) L.
Proof.
  intro HL. unfold candidates.
  rewrite (proj2 (Nat.leb_le L 3) HL).
  now destruct (gt_limit _ _).
Qed.

Lemma pow70_bound (L : nat) : (L <= 3)%nat -> 70 ^ Z.of_nat L <= 343000.
Proof.
  intro HL. change 343000 with (70 ^ Z.of_nat 3).
  apply Z.pow_le_mono_r; lia.
Qed.

(** The lengths up to 3 are emitted in full and leave the loop running. *)
Lemma short_lengths_run (k lo : nat) (st : state) :
  (lo + k <= 4)%nat ->
  0 <= count st < 70 ^ Z.of_nat lo ->
  exists st',
    for_each (seq lo k) body st = Next st'
    /\ passwords st'
       = passwords st ++ List.concat (map (product (charset self)) (seq lo k))
    /\ 0 <= count st' < 70 ^ Z.of_nat (lo + k).
Proof.
  revert lo st.
  induction k as [|k IH]; intros lo st Hlo Hc.
  - exists st. cbn [seq for_each map List.concat].
    rewrite app_nil_r, Nat.add_0_r. auto.
  - cbn [seq for_each map List.concat].
    assert (Hlo3 : (lo <= 3)%nat) by lia.
    pose proof (pow70_bound lo Hlo3) as H70.
    pose proof (char_count_bounds self) as Hn.
    assert (Hpow : 0 <= char_count_of self ^ Z.of_nat lo <= 70 ^ Z.of_nat lo).
    { split; [apply Z.pow_nonneg; lia | apply Z.pow_le_mono_l; lia]. }
    assert (Hb : below_limit st).
    { intros m Hm. rewrite (limit_of_init m Hm). lia. }
    destruct (length_body_fills lo st Hb) as [Hext Hret].
    rewrite (candidates_short lo (count st) Hlo3) in Hext, Hret.
    pose proof (product_length (charset self) lo) as Hlen.
    rewrite charset_length in Hlen. rewrite Hlen in Hret.
    assert (Hq : quota st (product (charset self) lo)
                 = product (charset self) lo).
    { unfold quota. destruct (MAX_PASSWORDS self) as [m|] eqn:Hm; [|reflexivity].
      rewrite (limit_of_init m eq_refl). apply firstn_all2. lia. }
    rewrite Hq in Hext.
    assert (Hnext : returned (body lo st) = false).
    { rewrite Hret. destruct (MAX_PASSWORDS self) as [m|] eqn:Hm;
        cbn [ge_limit]; [|reflexivity].
      rewrite (limit_of_init m eq_refl). apply Z.leb_gt. lia. }
    destruct (body lo st) as [s1|s1]; cbn [returned] in Hnext; [|discriminate].
    cbn [flow_bind flow_state] in *.
    destruct Hext as (Hp1 & Hc1 & _). rewrite Hlen in Hc1.
    destruct (IH (S lo) s1) as (st' & Hrun & Hp' & Hc').
    + lia.
    + rewrite Hc1, Nat2Z.inj_succ, Z.pow_succ_r by lia. lia.
    + exists st'. split; [exact Hrun|]. split.
      * now rewrite Hp', Hp1, app_assoc.
      * now replace (lo + S k)%nat with (S lo + k)%nat by lia.
Qed.


End Uncancelled.


End CandidateLoops.

Arguments extends {W} total st st' added.
Arguments below_limit {W} self st.
Arguments within_limit {W} self st.
Arguments quota {W} self st xs.

(** ** Whole runs of [generate_passwords] *)

Definition initial_state {W : Type} (w : W) : gen_state W :=
  {| passwords := []; count := 0; world := w; calls := [] |}.

(** The loop of a whole run and the state it ends in. *)
Definition whole_run {W : Type} (self : PasswordGenerator) (cbs : callbacks W)
  (w : W) : flow (gen_state W) :=
  run_lengths self cbs (range (min_length self) (max_length self + 1))
    (start_state self cbs w).

Lemma start_state_extends {W : Type} (self : PasswordGenerator)
  (cbs : callbacks W) (w : W) :
  extends (estimate_count self) (initial_state w) (start_state self cbs w) [].
Proof.
  unfold start_state. fold (initial_state w).
  change 0 with (count (initial_state w)) at 1.
  apply notify_progress_extends.
Qed.

Lemma generate_passwords_state_eq {W : Type} (self : PasswordGenerator)
  (cbs : callbacks W) (w : W) :
  extends (estimate_count self) (flow_state (whole_run self cbs w))
    (generate_passwords_state self cbs w) [].
Proof.
  unfold generate_passwords_state. fold (whole_run self cbs w).
  destruct (whole_run self cbs w) as [st|st]; cbn [flow_state].
  - apply notify_progress_extends.
  - apply extends_refl.
Qed.

Lemma generate_passwords_of_run {W : Type} (self : PasswordGenerator)
  (cbs : callbacks W) (w : W) :
  generate_passwords self cbs w = passwords (flow_state (whole_run self cbs w)).
Proof.
  unfold generate_passwords.
  destruct (generate_passwords_state_eq self cbs w) as (Hp & _).
  now rewrite Hp, app_nil_r.
Qed.

(** What every run satisfies, whatever the callbacks do. *)
Lemma generate_outcome {W : Type} (self : PasswordGenerator)
  (cbs : callbacks W) (w : W) :
  let st := generate_passwords_state self cbs w in
  count st = Z.of_nat (List.length (passwords st))
  /\ Forall (fun s => In (String.length s)
                        (range (min_length self) (max_length self + 1)))
       (passwords st)
  /\ count st
     <= sum_of_powers (char_count_of self) (min_length self)
          (max_length self + 1 - min_length self)
  /\ (forall m, MAX_PASSWORDS self = Finite m -> 0 < m -> count st <= m)
  /\ Forall (call_ok (estimate_count self) 0 (count st)) (calls st).
Proof.
  intro st.
  pose proof (start_state_extends self cbs w) as H0.
  pose proof (generate_passwords_state_eq self cbs w) as H2.
  fold st in H2.
  destruct (run_emits W self cbs (estimate_count self)
              (progress_interval_of (estimate_count self))
              (range (min_length self) (max_length self + 1))
              (start_state self cbs w))
    as (added & H1 & Hlen & Hsize & Hlim).
  fold (run_lengths self cbs (range (min_length self) (max_length self + 1))
          (start_state self cbs w)) in H1, Hlim.
  fold (whole_run self cbs w) in H1, Hlim.
  pose proof (extends_count_same _ _ _ _ H0) as Hc0.
  pose proof (extends_count_same _ _ _ _ H2) as Hc2.
  pose proof (extends_trans _ _ _ _ _ _ _ H0 (extends_trans _ _ _ _ _ _ _ H1 H2))
    as Hall.
  destruct Hall as (Hp & Hc & new & Hcalls & Hok).
  cbn [initial_state passwords count calls app] in Hp, Hc, Hcalls, Hok.
  rewrite app_nil_r in Hp. rewrite app_nil_r in Hc.
  split; [rewrite Hc, Hp; lia|].
  split; [now rewrite Hp|].
  split.
  { rewrite Hc. unfold range in Hsize. now rewrite powers_over_seq in Hsize. }
  split.
  { intros m Hm Hpos. rewrite Hc2.
    apply Hlim; [|exact Hm].
    intros m' Hm'. rewrite Hc0. cbn [initial_state count].
    rewrite Hm in Hm'. injection Hm' as <-. exact Hpos. }
  now rewrite Hcalls.
Qed.

(** C1. With the limit in force ([no_limit = False]), [estimate_count] is at
    most 1,000,000 and the list [generate_passwords] returns has at most
    1,000,000 elements, for all lengths, every choice of character classes
    and every behaviour of the two callbacks. *)
Theorem limited_generator_stays_within_cap :
  forall (W : Type) (min_len max_len : nat) (lo up di sp : bool)
         (cbs : callbacks W) (w : W),
    let self := init min_len max_len lo up di sp false in
    estimate_count self <= 1000000
    /\ Z.of_nat (List.length (generate_passwords self cbs w)) <= 1000000.
Proof.
  intros W min_len max_len lo up di sp cbs w self.
  split.
  - rewrite estimate_count_unfold. cbn [self init MAX_PASSWORDS]. cbv zeta. lia.
  - destruct (generate_outcome self cbs w) as (Hc & _ & _ & Hm & _).
    unfold generate_passwords. rewrite <- Hc.
    apply Hm; [reflexivity | lia].
Qed.

(** C10. In every run of [generate_passwords] the number of candidates
    emitted is at most [estimate_count()]: the final count and the length of
    the returned list are, and every call of the progress callback passes a
    count that is at most the total estimate it passes along, which is
    [estimate_count()].  This holds whether or not a callback cancels. *)
Theorem emitted_count_within_estimate :
  forall (W : Type) (min_len max_len : nat) (lo up di sp unlimited : bool)
         (cbs : callbacks W) (w : W),
    let self := init min_len max_len lo up di sp unlimited in
    let st := generate_passwords_state self cbs w in
    count st <= estimate_count self
    /\ Z.of_nat (List.length (generate_passwords self cbs w))
       <= estimate_count self
    /\ Forall (fun c => match c with
                        | ProgressCall n t =>
                            0 <= n <= t /\ t = estimate_count self
                        | PatternCall _ => True
                        end) (calls st).
Proof.
  intros W min_len max_len lo up di sp unlimited cbs w self st.
  destruct (generate_outcome self cbs w) as (Hc & _ & Hsum & Hm & Hcalls).
  fold st in Hc, Hsum, Hm, Hcalls.
  assert (Hest : count st <= estimate_count self).
  { rewrite estimate_count_unfold. cbv zeta.
    destruct unlimited; cbn [self init MAX_PASSWORDS] in *.
    - exact Hsum.
    - specialize (Hm 1000000 eq_refl ltac:(lia)). lia. }
  split; [exact Hest|].
  split; [unfold generate_passwords; fold st; lia|].
  eapply Forall_impl; [|exact Hcalls].
  intros [n t|p]; cbn [call_ok]; [|trivial].
  intros [Hn ->]. split; [lia | reflexivity].
Qed.

Lemma of_length_products (chars : string) (L : nat) (ls : list nat) :
  ~ In L ls -> of_length L (List.concat (map (product chars) ls)) = [].
Proof.
  induction ls as [|x ls IH]; intro Hnot; cbn [map List.concat].
  - reflexivity.
  - rewrite of_length_app, IH by (intro; apply Hnot; now right).
    rewrite app_nil_r. apply of_length_none.
    eapply Forall_impl; [|apply product_strlen].
    intros s -> ->. apply Hnot. now left.
Qed.

Lemma init_limit (min_len max_len : nat) (lo up di sp unlimited : bool) :
  forall m,
    MAX_PASSWORDS (init min_len max_len lo up di sp unlimited) = Finite m ->
    m = 1000000.
Proof.
  intros m. cbn [init MAX_PASSWORDS]. destruct unlimited; congruence.
Qed.

Lemma range_split (lo hi L : nat) :
  (lo <= L <= hi)%nat ->
  range lo (hi + 1) = range lo L ++ L :: seq (S L) (hi - L).
Proof.
  intros H. unfold range.
  replace (hi + 1 - lo)%nat with ((L - lo) + S (hi - L))%nat by lia.
  rewrite seq_app. cbn [seq].
  now replace (lo + (L - lo))%nat with L by lia.
Qed.

Lemma no_callbacks_never_cancel : never_cancels no_callbacks.
Proof. split; intros f H; discriminate H. Defined.

(** ** The code's products against the odometer *)

Lemma seq_from (s len : nat) : seq s len = map (fun j => (s + j)%nat) (seq 0 len).
Proof.
  revert s. induction len as [|len IH]; intro s; cbn [seq map]; [reflexivity|].
  rewrite Nat.add_0_r. f_equal.
  rewrite (IH (S s)), (IH 1%nat), map_map.
  apply map_ext. intro j. lia.
Qed.

Lemma seq_mul (a b : nat) :
  seq 0 (a * b)
  = flat_map (fun i => map (fun j => (i * b + j)%nat) (seq 0 b)) (seq 0 a).
Proof.
  induction a as [|a IH]; [reflexivity|].
  rewrite seq_S, flat_map_app. cbn [flat_map Nat.add]. rewrite app_nil_r.
  replace (S a * b)%nat with (a * b + b)%nat by lia.
  rewrite seq_app, IH. f_equal. apply seq_from.
Qed.

Lemma nth_seq_map {A : Type} (l : list A) (d : A) :
  map (fun i => nth i l d) (seq 0 (List.length l)) = l.
Proof.
  induction l as [|a l IH]; [reflexivity|].
  cbn [List.length seq map nth]. f_equal.
  rewrite <- seq_shift, map_map. exact IH.
Qed.

Lemma map_flat_map {A B C : Type} (f : B -> C) (g : A -> list B) (l : list A) :
  map f (flat_map g l) = flat_map (fun x => map f (g x)) l.
Proof.
  induction l as [|x l IH]; [reflexivity|].
  cbn [flat_map]. now rewrite map_app, IH.
Qed.

Lemma flat_map_map {A B C : Type} (f : B -> list C) (g : A -> B) (l : list A) :
  flat_map f (map g l) = flat_map (fun x => f (g x)) l.
Proof.
  induction l as [|x l IH]; [reflexivity|].
  cbn [map flat_map]. now rewrite IH.
Qed.

Lemma flat_map_ext_in {A B : Type} (f g : A -> list B) (l : list A) :
  (forall x, In x l -> f x = g x) -> flat_map f l = flat_map g l.
Proof.
  induction l as [|x l IH]; intro H; [reflexivity|].
  cbn [flat_map]. rewrite (H x (or_introl eq_refl)), IH; [reflexivity|].
  intros y Hy. apply H. now right.
Qed.

(** The code's product is the odometer read from 0 upwards. *)
Lemma product_chars_odometer (chars : list ascii) (n : nat) :
  product_chars chars n = spec_product chars n.
Proof.
  unfold spec_product.
  induction n as [|n IH]; [reflexivity|].
  cbn [product_chars]. rewrite IH.
  set (P := (List.length chars ^ n)%nat).
  rewrite Nat.pow_succ_r', seq_mul, map_flat_map.
  rewrite <- (nth_seq_map chars Ascii.zero) at 1.
  rewrite flat_map_map.
  apply flat_map_ext_in. intros i _.
  rewrite !map_map. apply map_ext_in. intros j Hj.
  apply in_seq in Hj. cbn [odometer]. fold P.
  assert (HP : P <> 0%nat) by lia.
  rewrite <- (Nat.div_unique (i * P + j) P i j) by lia.
  rewrite <- (Nat.mod_unique (i * P + j) P i j) by lia.
  reflexivity.
Qed.

Lemma charset_is_spec_charset (min_len max_len : nat)
  (lo up di sp unlimited : bool) :
  list_ascii_of_string
    (charset (init min_len max_len lo up di sp unlimited))
  = spec_charset lo up di sp.
Proof. destruct lo, up, di, sp; vm_compute; reflexivity. Qed.

Lemma product_is_spec_product (min_len max_len : nat)
  (lo up di sp unlimited : bool) (L : nat) :
  product (charset (init min_len max_len lo up di sp unlimited)) L
  = spec_product (spec_charset lo up di sp) L.
Proof.
  unfold product. now rewrite charset_is_spec_charset, product_chars_odometer.
Qed.

Lemma mixed_is_spec_mixed (L : nat) : mixed L = spec_mixed L.
Proof.
  unfold mixed, spec_mixed, product.
  rewrite !product_chars_odometer. reflexivity.
Qed.

(** With a class selected the code's guards are the specification's. *)
Lemma fallback_is_spec_fallback (min_len max_len : nat)
  (lo up di sp unlimited : bool) (L : nat) :
  lo || up || di || sp = true ->
  (3 < L)%nat ->
  fallback (init min_len max_len lo up di sp unlimited) L
  = spec_fallback lo up di sp L.
Proof.
  intros Hsel HL. unfold fallback, spec_fallback, lowercase_active.
  cbn [init use_lowercase use_digits].
  rewrite Hsel. cbn [negb]. rewrite orb_false_r.
  replace (4 <=? L)%nat with true by (symmetry; apply Nat.leb_le; lia).
  cbn [andb]. rewrite mixed_is_spec_mixed.
  unfold product. rewrite !product_chars_odometer. reflexivity.
Qed.


(** C5. In a run of [generate_passwords] in which no callback cancels, the
    candidates of a length [L <= 3] between the minimum and the maximum
    length are, in the order of their emission, exactly the full cartesian
    product of the active character set at length [L] in odometer order
    (the rightmost position varies fastest): the selected classes in the
    order lowercase, uppercase, digits, special, lowercase when none is
    selected.  This holds whether or not the generator is limited and
    whichever way the comparison with the limit goes. *)
Theorem short_lengths_fully_covered :
  forall (W : Type) (min_len max_len : nat) (lo up di sp unlimited : bool)
         (cbs : callbacks W) (w : W) (L : nat),
    never_cancels cbs ->
    (min_len <= L <= max_len)%nat ->
    (L <= 3)%nat ->
    let self := init min_len max_len lo up di sp unlimited in
    of_length L (generate_passwords self cbs w)
    = spec_product (spec_charset lo up di sp) L.
Proof.
  intros W min_len max_len lo up di sp unlimited cbs w L Hnc HL H3 self.
  rewrite <- (product_is_spec_product min_len max_len lo up di sp unlimited L).
  fold self.
  rewrite generate_passwords_of_run. unfold whole_run, run_lengths.
  cbn [self init min_length max_length]. fold self.
  rewrite (range_split min_len max_len L HL).
  change (L :: seq (S L) (max_len - L)) with ([L] ++ seq (S L) (max_len - L)).
  rewrite app_assoc, for_each_app.
  set (total := estimate_count self).
  set (interval := progress_interval_of total).
  pose proof (start_state_extends self cbs w) as H0.
  fold total in H0.
  destruct H0 as (Hp0 & Hc0 & _).
  cbn [initial_state passwords count List.length app] in Hp0, Hc0.
  assert (Hseq : range min_len L ++ [L] = seq min_len (L - min_len + 1)).
  { unfold range. rewrite seq_app. cbn [seq].
    now replace (min_len + (L - min_len))%nat with L by lia. }
  rewrite Hseq.
  destruct (short_lengths_run W self cbs total interval Hnc
              (init_limit min_len max_len lo up di sp unlimited)
              (L - min_len + 1) min_len (start_state self cbs w))
    as (s1 & Hrun & Hp1 & _).
  { lia. }
  { rewrite Hc0. split; [lia|]. apply Z.pow_pos_nonneg; lia. }
  rewrite Hrun.
  rewrite (rest_of_run W self cbs total interval L (seq (S L) (max_len - L))
             s1 (Next s1) []).
  - rewrite app_nil_r, Hp1, Hp0. cbn [app].
    rewrite <- Hseq, map_app, concat_app, of_length_app.
    rewrite of_length_products.
    + cbn [map List.concat app]. rewrite app_nil_r.
      apply of_length_all, product_strlen.
    + unfold range. rewrite in_seq. lia.
  - apply extends_refl.
  - intros x Hx. apply in_seq in Hx. lia.
Qed.

(** An instance of C5: length 1 over the lowercase letters. *)
Lemma short_lengths_fully_covered_witness :
  never_cancels no_callbacks
  /\ (1 <= 1 <= 1)%nat
  /\ (1 <= 3)%nat
  /\ of_length 1
       (generate_passwords (init 1 1 true false false false false)
          no_callbacks tt)
     = spec_product (spec_charset true false false false) 1.
Proof.
  split; [exact no_callbacks_never_cancel|].
  split; [lia|]. split; [lia|].
  apply (short_lengths_fully_covered unit 1 1 true false false false false
           no_callbacks tt 1 no_callbacks_never_cancel); lia.
Defined.

(** The loops of a length above 3, on the code: what they append is what
    [fallback] lists, cut where the count reaches the limit. *)
Lemma fallback_run :
  forall (W : Type) (min_len max_len : nat) (lo up di sp : bool)
         (cbs : callbacks W) (w : W) (L : nat) (st : gen_state W),
    let self := init min_len max_len lo up di sp false in
    never_cancels cbs ->
    (min_len <= L <= max_len)%nat ->
    (3 < L)%nat ->
    run_lengths self cbs (range min_len L) (start_state self cbs w) = Next st ->
    1000000 < Z.of_nat (String.length (charset self)) ^ Z.of_nat L + count st ->
    of_length L (generate_passwords self cbs w)
    = firstn (Z.to_nat (1000000 - count st)) (fallback self L)
    /\ (count st + Z.of_nat (List.length (fallback self L)) <= 1000000 ->
        of_length L (generate_passwords self cbs w) = fallback self L).
Proof.
  intros W min_len max_len lo up di sp cbs w L st self Hnc HL H3 Hreach Hover.
  assert (Hmain : of_length L (generate_passwords self cbs w)
                  = firstn (Z.to_nat (1000000 - count st)) (fallback self L)).
  { rewrite generate_passwords_of_run. unfold whole_run.
    cbn [self init min_length max_length]. fold self.
    rewrite (range_split min_len max_len L HL).
    unfold run_lengths in *.
    set (total := estimate_count self) in *.
    set (interval := progress_interval_of total) in *.
    rewrite for_each_app, Hreach. cbn [flow_bind for_each].
    (* what the earlier lengths left behind *)
    pose proof (start_state_extends self cbs w) as H0.
    fold total in H0.
    destruct (run_emits W self cbs total interval (range min_len L)
                (start_state self cbs w)) as (added1 & H1 & Hlen1 & _ & Hlim1).
    rewrite Hreach in H1, Hlim1. cbn [flow_state returned] in H1, Hlim1.
    assert (Hb : below_limit self st).
    { apply Hlim1; [|reflexivity].
      intros m Hm. rewrite (extends_count_same _ _ _ _ H0).
      cbn [initial_state count].
      rewrite (init_limit min_len max_len lo up di sp false m Hm). lia. }
    pose proof (extends_trans _ _ _ _ _ _ _ H0 H1) as (Hp01 & _).
    cbn [initial_state passwords app] in Hp01.
    (* this length *)
    destruct (length_body_fills W self cbs total interval Hnc L st Hb)
      as [Hext _].
    assert (Hcand : candidates self L (count st) = fallback self L).
    { unfold candidates. cbn [self init MAX_PASSWORDS gt_limit].
      rewrite (proj2 (Z.ltb_lt _ _) Hover).
      now rewrite (proj2 (Nat.leb_gt L 3) H3). }
    rewrite Hcand in Hext. unfold quota in Hext.
    cbn [self init MAX_PASSWORDS] in Hext. fold self in Hext.
    rewrite (rest_of_run W self cbs total interval L _ st _ _ Hext).
    - rewrite Hp01, of_length_app.
      rewrite (of_length_none L added1).
      + cbn [app]. apply of_length_all, Forall_firstn_of, fallback_strlen.
      + eapply Forall_impl; [|exact Hlen1].
        intros s Hs. unfold range in Hs. apply in_seq in Hs. lia.
    - intros x Hx. apply in_seq in Hx. lia. }
  split; [exact Hmain|].
  intro Hfit. rewrite Hmain. apply firstn_all2. lia.
Qed.

(** X19. Take a limited generator with at least one class selected, a run
    in which no callback cancels, and a length [L > 3] that the loop reaches
    in state [st] with [len(chars) ** L + count] above the limit.  The
    candidates of length [L] in the returned list are then, in order, the
    full lowercase product at length [L] if lowercase is active, the full
    digit product at length [L] if digits are active, and, if both are, the
    lowercase prefixes of length [L // 2] each followed by every digit
    suffix of the remaining length (prefix in the outer loop, suffix in the
    inner one), each product in odometer order, cut where the count reaches
    the limit; when the limit is not reached inside this length they are
    all there. *)
Theorem fallback_emitted_in_order :
  forall (W : Type) (min_len max_len : nat) (lo up di sp : bool)
         (cbs : callbacks W) (w : W) (L : nat) (st : gen_state W),
    let self := init min_len max_len lo up di sp false in
    lo || up || di || sp = true ->
    never_cancels cbs ->
    (min_len <= L <= max_len)%nat ->
    (3 < L)%nat ->
    run_lengths self cbs (range min_len L) (start_state self cbs w) = Next st ->
    1000000
    < Z.of_nat (List.length (spec_charset lo up di sp)) ^ Z.of_nat L
      + count st ->
    of_length L (generate_passwords self cbs w)
    = firstn (Z.to_nat (1000000 - count st)) (spec_fallback lo up di sp L)
    /\ (count st + Z.of_nat (List.length (spec_fallback lo up di sp L))
        <= 1000000 ->
        of_length L (generate_passwords self cbs w)
        = spec_fallback lo up di sp L).
Proof.
  intros W min_len max_len lo up di sp cbs w L st self Hsel Hnc HL H3 Hreach
    Hover.
  rewrite <- (fallback_is_spec_fallback min_len max_len lo up di sp false L
                Hsel H3).
  fold self.
  apply (fallback_run W min_len max_len lo up di sp cbs w L st Hnc HL H3
           Hreach).
  rewrite <- (charset_is_spec_charset min_len max_len lo up di sp false)
    in Hover.
  rewrite length_list_ascii_of_string in Hover. exact Hover.
Qed.

(** An instance of X19: length 4 over lowercase letters and digits, where
    [36 ** 4] exceeds the limit at the first length. *)
Definition lowercase_digits_4 : PasswordGenerator :=
  init 4 4 true false true false false.

Lemma fallback_emitted_in_order_witness :
  true || false || true || false = true
  /\ never_cancels no_callbacks
  /\ (4 <= 4 <= 4)%nat
  /\ (3 < 4)%nat
  /\ run_lengths lowercase_digits_4 no_callbacks (range 4 4)
       (start_state lowercase_digits_4 no_callbacks tt)
     = Next (start_state lowercase_digits_4 no_callbacks tt)
  /\ 1000000
     < Z.of_nat (List.length (spec_charset true false true false))
       ^ Z.of_nat 4
       + count (start_state lowercase_digits_4 no_callbacks tt)
  /\ of_length 4 (generate_passwords lowercase_digits_4 no_callbacks tt)
     = firstn
         (Z.to_nat
            (1000000 - count (start_state lowercase_digits_4 no_callbacks tt)))
         (spec_fallback true false true false 4)
  /\ (count (start_state lowercase_digits_4 no_callbacks tt)
      + Z.of_nat (List.length (spec_fallback true false true false 4))
      <= 1000000 ->
      of_length 4 (generate_passwords lowercase_digits_4 no_callbacks tt)
      = spec_fallback true false true false 4).
Proof.
  assert (Hreach : run_lengths lowercase_digits_4 no_callbacks (range 4 4)
                     (start_state lowercase_digits_4 no_callbacks tt)
                   = Next (start_state lowercase_digits_4 no_callbacks tt))
    by reflexivity.
  assert (Hover : 1000000
                  < Z.of_nat (List.length (spec_charset true false true false))
                    ^ Z.of_nat 4
                    + count (start_state lowercase_digits_4 no_callbacks tt))
    by (vm_compute; reflexivity).
  split; [reflexivity|].
  split; [exact no_callbacks_never_cancel|].
  split; [lia|]. split; [lia|]. split; [exact Hreach|]. split; [exact Hover|].
  apply (fallback_emitted_in_order unit 4 4 true false true false
           no_callbacks tt 4 (start_state lowercase_digits_4 no_callbacks tt)
           eq_refl no_callbacks_never_cancel);
    [lia | lia | exact Hreach | exact Hover].
Defined.

(** ** The fallback when no class is selected *)

Lemma spec_product_head (alphabet : list ascii) (n : nat) :
  alphabet <> [] ->
  exists rest, spec_product alphabet n = odometer alphabet n 0 :: rest.
Proof.
  intro Hne. unfold spec_product.
  assert (Hpos : (List.length alphabet ^ n <> 0)%nat).
  { apply Nat.pow_nonzero. destruct alphabet; [contradiction | discriminate]. }
  destruct (List.length alphabet ^ n)%nat as [|m]; [contradiction|].
  cbn [seq map]. eexists. reflexivity.
Qed.

Lemma spec_product_length (alphabet : list ascii) (n : nat) :
  Z.of_nat (List.length (spec_product alphabet n))
  = Z.of_nat (List.length alphabet) ^ Z.of_nat n.
Proof.
  unfold spec_product. now rewrite length_map, length_seq, Nat2Z.inj_pow.
Qed.

(** The policy with no class selected, lengths 5 to 5, limited. *)
Definition no_class_5 : PasswordGenerator :=
  init 5 5 false false false false false.

(** C6 on the code.  With no class selected the character set is the
    lowercase letters (the code's default, and the specification's active
    class), the estimate is 1,000,000, and at length 5 the comparison with
    the limit sends the loop to the fallback.  The fallback there tests the
    options [use_lowercase] and [use_digits] themselves, both false, and
    emits nothing: [generate_passwords] returns the empty list, where the
    claim has the lowercase product at length 5, which starts with [aaaaa]
    and holds [26 ** 5] strings, emitted up to the limit. *)
Theorem fallback_ignores_the_lowercase_default :
  charset no_class_5 = "abcdefghijklmnopqrstuvwxyz"%string
  /\ list_ascii_of_string (charset no_class_5)
     = spec_charset false false false false
  /\ lowercase_active false false false false = true
  /\ run_lengths no_class_5 no_callbacks (range 5 5)
       (start_state no_class_5 no_callbacks tt)
     = Next (start_state no_class_5 no_callbacks tt)
  /\ 1000000
     < Z.of_nat (List.length (spec_charset false false false false))
       ^ Z.of_nat 5
       + count (start_state no_class_5 no_callbacks tt)
  /\ estimate_count no_class_5 = 1000000
  /\ generate_passwords no_class_5 no_callbacks tt = []
  /\ hd EmptyString (spec_fallback false false false false 5)
     = "aaaaa"%string
  /\ Z.of_nat (List.length (spec_fallback false false false false 5))
     = 11881376.
Proof.
  split; [reflexivity|]. split; [reflexivity|]. split; [reflexivity|].
  split; [reflexivity|]. split; [vm_compute; reflexivity|].
  split; [vm_compute; reflexivity|]. split; [vm_compute; reflexivity|].
  unfold spec_fallback.
  change (lowercase_active false false false false) with true.
  cbv iota. rewrite andb_false_r, !app_nil_r.
  split.
  - destruct (spec_product_head spec_lowercase 5 ltac:(discriminate))
      as [rest ->].
    cbn [hd]. vm_compute. reflexivity.
  - rewrite spec_product_length. vm_compute. reflexivity.
Qed.

(** When no class is selected the character set defaults to the lowercase
    letters, but the fallback tests the options themselves and is empty. *)
Remark fallback_without_classes (min_len max_len L : nat) (unlimited : bool) :
  charset (init min_len max_len false false false false unlimited)
  = ascii_lowercase
  /\ fallback (init min_len max_len false false false false unlimited) L = [].
Proof. split; reflexivity. Qed.

(** * Further properties of the candidate generator *)

(** ** The characters of the candidates *)

(** Every character of [s] is taken from [alphabet]. *)
Definition uses (alphabet : list ascii) (s : string) : Prop :=
  Forall (fun c => In c alphabet) (list_ascii_of_string s).

Lemma list_ascii_of_string_app (s t : string) :
  list_ascii_of_string (s ++ t)%string
  = list_ascii_of_string s ++ list_ascii_of_string t.
Proof.
  induction s as [|c s IH]; simpl; [reflexivity | now rewrite IH].
Qed.

Lemma uses_app (alphabet : list ascii) (s t : string) :
  uses alphabet (s ++ t)%string <-> uses alphabet s /\ uses alphabet t.
Proof. unfold uses. rewrite list_ascii_of_string_app. apply Forall_app. Qed.

Lemma uses_incl (a b : list ascii) (s : string) :
  incl a b -> uses a s -> uses b s.
Proof.
  intros Hincl Hs. unfold uses in *.
  eapply Forall_impl; [|exact Hs]. intros c Hc. now apply Hincl.
Qed.

Lemma product_chars_uses (chars : list ascii) (n : nat) (s : string) :
  In s (product_chars chars n) -> uses chars s.
Proof.
  revert s.
  induction n as [|n IH]; intros s Hin; simpl in Hin.
  - destruct Hin as [<-|[]]. constructor.
  - apply in_flat_map in Hin. destruct Hin as [c [Hc Hin]].
    apply in_map_iff in Hin. destruct Hin as [t [<- Ht]].
    constructor; [exact Hc | now apply IH].
Qed.

(** Inclusion and absence of repetition, decided by computation. *)
Definition inclb (a b : list ascii) : bool :=
  forallb (fun c => existsb (Ascii.eqb c) b) a.

Lemma inclb_incl (a b : list ascii) : inclb a b = true -> incl a b.
Proof.
  unfold inclb. rewrite forallb_forall. intros H c Hc.
  specialize (H c Hc). apply existsb_exists in H.
  destruct H as [d [Hd Heq]]. apply Ascii.eqb_eq in Heq. now subst d.
Qed.

Fixpoint distinctb (l : list ascii) : bool :=
  match l with
  | [] => true
  | c :: rest => negb (existsb (Ascii.eqb c) rest) && distinctb rest
  end.

Lemma distinctb_NoDup (l : list ascii) : distinctb l = true -> NoDup l.
Proof.
  induction l as [|c l IH]; simpl; intro H; constructor.
  - apply andb_prop in H. destruct H as [H _].
    intro Hin. apply negb_true_iff in H.
    assert (Hex : existsb (Ascii.eqb c) l = true).
    { apply existsb_exists. exists c. split; [exact Hin | apply Ascii.eqb_refl]. }
    congruence.
  - apply IH. apply andb_prop in H. apply H.
Qed.

Definition disjointb (a b : list ascii) : bool :=
  forallb (fun c => negb (existsb (Ascii.eqb c) b)) a.

Lemma disjointb_disjoint (a b : list ascii) (c : ascii) :
  disjointb a b = true -> In c a -> ~ In c b.
Proof.
  unfold disjointb. rewrite forallb_forall. intros H Ha Hb.
  specialize (H c Ha). apply negb_true_iff in H.
  assert (Hex : existsb (Ascii.eqb c) b = true).
  { apply existsb_exists. exists c. split; [exact Hb | apply Ascii.eqb_refl]. }
  congruence.
Qed.

Lemma charset_distinct (self : PasswordGenerator) :
  NoDup (list_ascii_of_string (charset self)).
Proof.
  apply distinctb_NoDup. unfold charset.
  destruct (use_lowercase self), (use_uppercase self), (use_digits self),
    (use_special self); vm_compute; reflexivity.
Qed.

Lemma lowercase_in_charset (self : PasswordGenerator) :
  use_lowercase self = true ->
  incl (list_ascii_of_string ascii_lowercase)
    (list_ascii_of_string (charset self)).
Proof.
  intro H. apply inclb_incl. unfold charset. rewrite H.
  destruct (use_uppercase self), (use_digits self), (use_special self);
    vm_compute; reflexivity.
Qed.

Lemma digits_in_charset (self : PasswordGenerator) :
  use_digits self = true ->
  incl (list_ascii_of_string digits) (list_ascii_of_string (charset self)).
Proof.
  intro H. apply inclb_incl. unfold charset. rewrite H.
  destruct (use_lowercase self), (use_uppercase self), (use_special self);
    vm_compute; reflexivity.
Qed.

Lemma letters_are_not_digits (c : ascii) :
  In c (list_ascii_of_string ascii_lowercase) ->
  ~ In c (list_ascii_of_string digits).
Proof. apply disjointb_disjoint. vm_compute. reflexivity. Qed.

(** ** Lists without repetition *)

Lemma NoDup_firstn_of {A : Type} (k : nat) (xs : list A) :
  NoDup xs -> NoDup (firstn k xs).
Proof.
  intro H. rewrite <- (firstn_skipn k xs) in H.
  now apply NoDup_app_remove_r in H.
Qed.

Lemma NoDup_flat_map_disjoint {A B : Type} (f : A -> list B) (l : list A) :
  NoDup l ->
  (forall x, In x l -> NoDup (f x)) ->
  (forall x y, In x l -> In y l -> x <> y ->
               forall b, In b (f x) -> ~ In b (f y)) ->
  NoDup (flat_map f l).
Proof.
  induction 1 as [|x l Hx Hl IH]; intros Hf Hd; simpl.
  - constructor.
  - apply NoDup_app.
    + apply Hf. now left.
    + apply IH.
      * intros y Hy. apply Hf. now right.
      * intros y z Hy Hz. apply Hd; now right.
    + intros b Hb Hin. apply in_flat_map in Hin.
      destruct Hin as [y [Hy Hby]].
      refine (Hd x y _ _ _ b Hb Hby);
        [now left | now right | intros ->; contradiction].
Qed.

Lemma string_app_inv_head (p s t : string) :
  (p ++ s)%string = (p ++ t)%string -> s = t.
Proof.
  induction p as [|c p IH]; simpl; intro H; [exact H|].
  injection H as H. now apply IH.
Qed.

Lemma string_app_same_length (p q s t : string) :
  String.length p = String.length q ->
  (p ++ s)%string = (q ++ t)%string -> p = q.
Proof.
  revert q.
  induction p as [|c p IH]; intros [|d q] Hlen H; simpl in *;
    try discriminate; [reflexivity|].
  injection H as -> H. f_equal. apply IH; [lia | exact H].
Qed.

Lemma product_chars_nodup (chars : list ascii) (n : nat) :
  NoDup chars -> NoDup (product_chars chars n).
Proof.
  intro Hc. induction n as [|n IH]; cbn [product_chars].
  - constructor; [intros [] | constructor].
  - apply NoDup_flat_map_disjoint; [exact Hc | |].
    + intros c _. apply NoDup_map_NoDup_ForallPairs; [|exact IH].
      intros s t _ _ H. now injection H.
    + intros c d _ _ Hcd s Hs Ht.
      apply in_map_iff in Hs, Ht.
      destruct Hs as [s' [<- _]], Ht as [t' [Ht _]].
      injection Ht as Ht _. now apply Hcd.
Qed.

Lemma mixed_nodup (L : nat) : NoDup (mixed L).
Proof.
  unfold mixed. apply NoDup_flat_map_disjoint.
  - apply product_chars_nodup, distinctb_NoDup. vm_compute. reflexivity.
  - intros p _. apply NoDup_map_NoDup_ForallPairs.
    + intros s t _ _ H. now apply string_app_inv_head in H.
    + apply product_chars_nodup, distinctb_NoDup. vm_compute. reflexivity.
  - intros p q Hp Hq Hpq s Hs Ht.
    apply in_map_iff in Hs, Ht.
    destruct Hs as [d [<- _]], Ht as [d' [Ht _]].
    apply Hpq. symmetry.
    apply (string_app_same_length q p d' d); [|exact Ht].
    apply product_chars_strlen in Hp, Hq. congruence.
Qed.

(** A non-empty string over an alphabet starts with one of its characters. *)
Lemma product_chars_head (chars : list ascii) (n : nat) (s : string) :
  In s (product_chars chars (S n)) ->
  exists c t, s = String c t /\ In c chars.
Proof.
  cbn [product_chars]. intro Hin. apply in_flat_map in Hin.
  destruct Hin as [c [Hc Hin]]. apply in_map_iff in Hin.
  destruct Hin as [t [<- _]]. now exists c, t.
Qed.

Lemma fallback_nodup (self : PasswordGenerator) (L : nat) :
  (3 < L)%nat -> NoDup (fallback self L).
Proof.
  intro HL.
  assert (Hh : exists h r, (L / 2 = S h)%nat /\ (L - L / 2 = S r)%nat).
  { pose proof (Nat.div_mod_eq L 2). pose proof (Nat.mod_upper_bound L 2).
    exists (L / 2 - 1)%nat, (L - L / 2 - 1)%nat. lia. }
  destruct Hh as (h & r & Hh & Hr).
  destruct L as [|L']; [lia|].
  assert (Hlow : NoDup (product ascii_lowercase (S L')))
    by (apply product_chars_nodup, distinctb_NoDup; vm_compute; reflexivity).
  assert (Hdig : NoDup (product digits (S L')))
    by (apply product_chars_nodup, distinctb_NoDup; vm_compute; reflexivity).
  assert (Hld : forall s, In s (product ascii_lowercase (S L')) ->
                          ~ In s (product digits (S L'))).
  { intros s Hs Ht.
    apply product_chars_head in Hs, Ht.
    destruct Hs as (c & t & -> & Hc), Ht as (d & t' & Heq & Hd).
    injection Heq as <- _. now apply (letters_are_not_digits c). }
  assert (Hlm : forall s, In s (product ascii_lowercase (S L')) ->
                          ~ In s (mixed (S L'))).
  { intros s Hs Hm. unfold mixed in Hm. rewrite Hr, Hh in Hm.
    apply in_flat_map in Hm. destruct Hm as [p [_ Hm]].
    apply in_map_iff in Hm. destruct Hm as [d [<- Hd]].
    apply product_chars_uses, uses_app in Hs. destruct Hs as [_ Hs].
    apply product_chars_head in Hd. destruct Hd as (c & t & -> & Hc).
    inversion Hs as [|c' l Hc' _]; subst.
    now apply (letters_are_not_digits c). }
  assert (Hdm : forall s, In s (product digits (S L')) ->
                          ~ In s (mixed (S L'))).
  { intros s Hs Hm. unfold mixed in Hm. rewrite Hr, Hh in Hm.
    apply in_flat_map in Hm. destruct Hm as [p [Hp Hm]].
    apply in_map_iff in Hm. destruct Hm as [d [<- _]].
    apply product_chars_head in Hp. destruct Hp as (c & t & -> & Hc).
    apply product_chars_head in Hs. destruct Hs as (c' & t' & Heq & Hc').
    simpl in Heq. injection Heq as -> _.
    now apply (letters_are_not_digits c'). }
  unfold fallback.
  destruct (use_lowercase self), (use_digits self); cbn [andb app];
    rewrite ?app_nil_r; try assumption; try constructor.
  apply NoDup_app; [exact Hlow | |].
  - apply NoDup_app; [exact Hdig | apply mixed_nodup | exact Hdm].
  - intros s Hs Hin. apply in_app_or in Hin. destruct Hin as [Hin|Hin].
    + now apply (Hld s).
    + now apply (Hlm s).
Qed.

Lemma candidates_nodup (self : PasswordGenerator) (L : nat) (cnt : Z) :
  NoDup (candidates self L cnt).
Proof.
  unfold candidates.
  destruct (gt_limit _ _).
  - destruct (L <=? 3)%nat eqn:HL.
    + apply product_chars_nodup, charset_distinct.
    + apply Nat.leb_gt in HL. now apply fallback_nodup.
  - apply product_chars_nodup, charset_distinct.
Qed.

Lemma fallback_uses (self : PasswordGenerator) (L : nat) :
  Forall (uses (list_ascii_of_string (charset self))) (fallback self L).
Proof.
  unfold fallback.
  destruct (use_lowercase self) eqn:Hlo, (use_digits self) eqn:Hdi;
    cbn [andb]; repeat (apply Forall_app; split); try constructor;
    apply Forall_forall; intros s Hs.
  - apply product_chars_uses in Hs.
    eapply uses_incl; [now apply lowercase_in_charset | exact Hs].
  - apply product_chars_uses in Hs.
    eapply uses_incl; [now apply digits_in_charset | exact Hs].
  - unfold mixed in Hs. apply in_flat_map in Hs. destruct Hs as [p [Hp Hs]].
    apply in_map_iff in Hs. destruct Hs as [d [<- Hd]].
    apply uses_app. split.
    + apply product_chars_uses in Hp.
      eapply uses_incl; [now apply lowercase_in_charset | exact Hp].
    + apply product_chars_uses in Hd.
      eapply uses_incl; [now apply digits_in_charset | exact Hd].
  - apply product_chars_uses in Hs.
    eapply uses_incl; [now apply lowercase_in_charset | exact Hs].
  - apply product_chars_uses in Hs.
    eapply uses_incl; [now apply digits_in_charset | exact Hs].
Qed.

Lemma candidates_uses (self : PasswordGenerator) (L : nat) (cnt : Z) :
  Forall (uses (list_ascii_of_string (charset self))) (candidates self L cnt).
Proof.
  unfold candidates.
  destruct (gt_limit _ _); [destruct (L <=? 3)%nat|];
    try apply fallback_uses;
    apply Forall_forall; intros s Hs; now apply product_chars_uses in Hs.
Qed.


(** ** What every run returns *)

(** A candidate that fits the options: its length is one of [ls] and its
    characters are taken from the character set. *)
Definition well_formed (self : PasswordGenerator) (ls : list nat) (s : string)
  : Prop :=
  In (String.length s) ls /\ uses (list_ascii_of_string (charset self)) s.

Lemma firstn_prefix_app {A : Type} (k n : nat) (xs more : list A) :
  (List.length (firstn k xs) <= n)%nat ->
  firstn k xs = firstn (List.length (firstn k xs)) (firstn n xs ++ more).
Proof.
  intro Hk. rewrite length_firstn in *.
  rewrite firstn_app, length_firstn.
  replace (Nat.min k (List.length xs) - Nat.min n (List.length xs))%nat
    with 0%nat by lia.
  rewrite firstn_O, app_nil_r, firstn_firstn.
  replace (Nat.min (Nat.min k (List.length xs)) n)
    with (Nat.min k (List.length xs)) by lia.
  destruct (Nat.le_ge_cases k (List.length xs)) as [Hle|Hge].
  - now rewrite Nat.min_l.
  - rewrite Nat.min_r by assumption. now rewrite firstn_all, firstn_all2.
Qed.

Lemma powers_over_empty (n : Z) (ls : list nat) :
  0 < n -> powers_over n ls <= 0 -> ls = [].
Proof.
  intros Hn H. destruct ls as [|L ls]; [reflexivity|].
  cbn [powers_over] in H.
  pose proof (powers_over_nonneg n ls ltac:(lia)).
  pose proof (Z.pow_pos_nonneg n (Z.of_nat L) Hn ltac:(lia)). lia.
Qed.

Section ReturnedCandidates.

Variable W : Type.
Variable self : PasswordGenerator.
Variable cbs : callbacks W.
Variables total interval : Z.

Local Notation "'body'" :=
  (length_body W self cbs total interval (charset self)).

(** What the loop over distinct lengths appends has no repetition and fits
    the options. *)
Lemma run_well_formed (ls : list nat) (st : gen_state W) :
  NoDup ls ->
  exists added : list string,
    extends total st (flow_state (for_each ls body st)) added
    /\ NoDup added
    /\ Forall (well_formed self ls) added.
Proof.
  revert st.
  induction ls as [|L ls IH]; intros st Hnd.
  - exists []. split; [apply extends_refl|]. split; constructor.
  - inversion Hnd as [|L' ls' HL Hls]; subst.
    cbn [for_each].
    destruct (length_body_emits W self cbs total interval L st)
      as (k & Hext & _ & _).
    pose proof (candidates_strlen self L (count st)) as Hlen.
    pose proof (candidates_uses self L (count st)) as Huse.
    pose proof (candidates_nodup self L (count st)) as Hdis.
    set (pre := firstn k (candidates self L (count st))) in *.
    assert (Hpre_len : Forall (fun s => String.length s = L) pre)
      by now apply Forall_firstn_of.
    assert (Hpre : Forall (well_formed self (L :: ls)) pre).
    { apply Forall_firstn_of. rewrite Forall_forall in *.
      intros s Hs. split; [left; symmetry; now apply Hlen | now apply Huse]. }
    assert (Hpre_nd : NoDup pre) by now apply NoDup_firstn_of.
    destruct (body L st) as [s1|s1]; cbn [flow_bind flow_state] in *.
    + destruct (IH s1 Hls) as (added & Hext2 & Hnd2 & Hwf2).
      exists (pre ++ added).
      split; [eapply extends_trans; eassumption|].
      split.
      * apply NoDup_app; [exact Hpre_nd | exact Hnd2 |].
        intros s Hs Hin. rewrite Forall_forall in Hpre_len, Hwf2.
        destruct (Hwf2 s Hin) as [Hl _]. rewrite (Hpre_len s Hs) in Hl.
        contradiction.
      * apply Forall_app. split; [exact Hpre|].
        eapply Forall_impl; [|exact Hwf2].
        intros s [Hl Hu]. split; [now right | exact Hu].
    + exists pre. auto.
Qed.

End ReturnedCandidates.

(** ** A cancelled run against the run that is left alone *)

Section Truncation.

Variables W W' : Type.
Variable self : PasswordGenerator.
Variable cbs : callbacks W.
Variable cbs' : callbacks W'.
Variables total interval : Z.

Hypothesis no_cancel : never_cancels cbs'.

Local Notation "'body'" :=
  (length_body W self cbs total interval (charset self)).
Local Notation "'body''" :=
  (length_body W' self cbs' total interval (charset self)).

(** Started with the same count, the run whose callbacks may cancel appends
    a prefix of what the run that is never cancelled appends. *)
Lemma cancelled_run_is_prefix (ls : list nat) (st : gen_state W)
  (st' : gen_state W') :
  count st = count st' ->
  below_limit self st ->
  exists (k : nat) (added added' : list string),
    extends total st (flow_state (for_each ls body st)) added
    /\ extends total st' (flow_state (for_each ls body' st')) added'
    /\ added = firstn k added'.
Proof.
  revert st st'.
  induction ls as [|L ls IH]; intros st st' Hc Hb.
  - exists 0%nat, [], []. cbn [for_each flow_state].
    split; [apply extends_refl|]. split; [apply extends_refl | reflexivity].
  - cbn [for_each].
    assert (Hb' : below_limit self st').
    { intros m Hm. rewrite <- Hc. now apply Hb. }
    destruct (length_body_emits W self cbs total interval L st)
      as (k & Hext & Hall & Hlim).
    destruct (Hlim Hb) as [Hwithin Hbelow].
    destruct (length_body_fills W' self cbs' total interval no_cancel L st' Hb')
      as [Hext' Hret'].
    rewrite <- Hc in Hext', Hret'.
    set (cands := candidates self L (count st)) in *.
    destruct (body L st) as [s1|s1]; cbn [flow_bind flow_state returned] in *.
    + specialize (Hall eq_refl). specialize (Hbelow eq_refl).
      rewrite Hall in Hext.
      assert (Hc1 : count s1 = count st + Z.of_nat (List.length cands))
        by apply Hext.
      assert (Hq : quota self st' cands = cands).
      { unfold quota. destruct (MAX_PASSWORDS self) as [m|] eqn:Hm;
          [|reflexivity].
        specialize (Hbelow m Hm). apply firstn_all2. lia. }
      assert (Hnext : returned (body' L st') = false).
      { rewrite Hret'. destruct (MAX_PASSWORDS self) as [m|] eqn:Hm;
          cbn [ge_limit]; [|reflexivity].
        specialize (Hbelow m Hm). apply Z.leb_gt. lia. }
      rewrite Hq in Hext'.
      destruct (body' L st') as [s1'|s1']; cbn [returned] in Hnext;
        [|discriminate].
      cbn [flow_bind flow_state] in *.
      assert (Hc1' : count s1 = count s1').
      { destruct Hext' as (_ & Hc' & _). lia. }
      destruct (IH s1 s1' Hc1' Hbelow) as (k2 & added & added' & H1 & H2 & Heq).
      exists (List.length cands + k2)%nat, (cands ++ added), (cands ++ added').
      split; [eapply extends_trans; eassumption|].
      split; [eapply extends_trans; eassumption|].
      rewrite firstn_app_2. now f_equal.
    + assert (Hk : forall n, quota self st' cands = firstn n cands ->
                    (List.length (firstn k cands) <= n)%nat
                    \/ MAX_PASSWORDS self = Infinity).
      { intros n Hn. unfold quota in Hn.
        destruct (MAX_PASSWORDS self) as [m|] eqn:Hm; [left | now right].
        specialize (Hwithin m Hm).
        destruct Hext as (_ & Hcs & _). rewrite length_firstn in *.
        destruct (Nat.le_gt_cases (Nat.min k (List.length cands)) n)
          as [Hle|Hgt]; [exact Hle|].
        assert (Hlen : List.length (firstn (Z.to_nat (m - count st')) cands)
                       = List.length (firstn n cands)) by now rewrite Hn.
        rewrite !length_firstn in Hlen. lia. }
      assert (Hquota : exists n, quota self st' cands = firstn n cands
                                 /\ (List.length (firstn k cands) <= n)%nat).
      { unfold quota in *.
        destruct (MAX_PASSWORDS self) as [m|] eqn:Hm.
        - exists (Z.to_nat (m - count st')). split; [reflexivity|].
          destruct (Hk _ eq_refl) as [Hle|Hinf]; [exact Hle | discriminate].
        - exists (List.length cands). rewrite firstn_all.
          split; [reflexivity|]. rewrite length_firstn. lia. }
      destruct Hquota as (n & Hqn & Hle). rewrite Hqn in Hext'.
      assert (Hrest : exists more,
                 extends total st'
                   (flow_state (a <- body' L st' ;; for_each ls body' a))
                   (firstn n cands ++ more)).
      { destruct (body' L st') as [s1'|s1']; cbn [flow_bind flow_state] in *.
        - destruct (run_emits W' self cbs' total interval ls s1')
            as (more & Hmore & _).
          exists more. eapply extends_trans; eassumption.
        - exists []. now rewrite app_nil_r. }
      destruct Hrest as (more & Hmore).
      exists (List.length (firstn k cands)), (firstn k cands),
        (firstn n cands ++ more).
      split; [exact Hext|]. split; [exact Hmore|].
      now apply firstn_prefix_app.
Qed.

(** When the whole space fits under the limit, the run that is never
    cancelled appends the full product of every length. *)
Lemma full_run (ls : list nat) (st' : gen_state W') :
  below_limit self st' ->
  (forall m, MAX_PASSWORDS self = Finite m ->
             count st' + powers_over (char_count_of self) ls <= m) ->
  extends total st' (flow_state (for_each ls body' st'))
    (List.concat (map (product (charset self)) ls)).
Proof.
  revert st'.
  pose proof (char_count_bounds self) as Hn.
  induction ls as [|L ls IH]; intros st' Hb Hfit.
  - cbn [for_each flow_state map List.concat]. apply extends_refl.
  - cbn [for_each map List.concat]. cbn [powers_over] in Hfit.
    pose proof (powers_over_nonneg (char_count_of self) ls ltac:(lia)) as Hls.
    pose proof (product_length (charset self) L) as Hlen.
    rewrite charset_length in Hlen.
    assert (Hcands : candidates self L (count st') = product (charset self) L).
    { unfold candidates. rewrite charset_length.
      destruct (MAX_PASSWORDS self) as [m|] eqn:Hm; cbn [gt_limit];
        [|reflexivity].
      specialize (Hfit m eq_refl).
      replace (m <? char_count_of self ^ Z.of_nat L + count st') with false;
        [reflexivity|].
      symmetry. apply Z.ltb_ge. lia. }
    destruct (length_body_fills W' self cbs' total interval no_cancel L st' Hb)
      as [Hext Hret].
    rewrite Hcands in Hext, Hret. rewrite Hlen in Hret.
    assert (Hq : quota self st' (product (charset self) L)
                 = product (charset self) L).
    { unfold quota. destruct (MAX_PASSWORDS self) as [m|] eqn:Hm;
        [|reflexivity].
      specialize (Hfit m eq_refl). apply firstn_all2. lia. }
    rewrite Hq in Hext.
    destruct (body' L st') as [s1|s1]; cbn [flow_bind flow_state returned] in *.
    + eapply extends_trans; [exact Hext|].
      assert (Hc1 : count s1 = count st' + char_count_of self ^ Z.of_nat L).
      { destruct Hext as (_ & Hc & _). lia. }
      apply IH.
      * intros m Hm. rewrite Hm in Hret. cbn [ge_limit] in Hret.
        symmetry in Hret. apply Z.leb_gt in Hret. lia.
      * intros m Hm. specialize (Hfit m Hm). lia.
    + destruct (MAX_PASSWORDS self) as [m|] eqn:Hm; cbn [ge_limit] in Hret;
        [|discriminate].
      symmetry in Hret. apply Z.leb_le in Hret. specialize (Hfit m eq_refl).
      rewrite (powers_over_empty (char_count_of self) ls) by lia.
      cbn [map List.concat]. now rewrite app_nil_r.
Qed.

End Truncation.


(** ** Invariants of the loops *)

Section RunInvariant.

Variable W : Type.
Variable self : PasswordGenerator.
Variable cbs : callbacks W.
Variables total interval : Z.

(** [P] holds while the loops run, [Q] where they return. *)
Variables P Q : gen_state W -> Prop.

Definition kept (r : flow (gen_state W)) : Prop :=
  match r with
  | Next st => P st
  | Return st => Q st
  end.

Hypothesis notify_keeps :
  forall label st, P st -> P (notify_pattern W cbs label st).
Hypothesis emit_keeps :
  forall pattern st, P st -> kept (emit W self cbs total interval pattern st).

Lemma for_each_kept {X : Type} (xs : list X)
  (body : X -> gen_state W -> flow (gen_state W)) (st : gen_state W) :
  (forall x s, P s -> kept (body x s)) -> P st -> kept (for_each xs body st).
Proof.
  intro Hbody. revert st.
  induction xs as [|x xs IH]; intros st Hst; cbn [for_each]; [exact Hst|].
  specialize (Hbody x st Hst).
  destruct (body x st) as [s1|s1]; cbn [flow_bind kept] in *;
    [now apply IH | exact Hbody].
Qed.

Lemma bind_kept (r : flow (gen_state W))
  (k : gen_state W -> flow (gen_state W)) :
  kept r -> (forall s, P s -> kept (k s)) -> kept (flow_bind r k).
Proof.
  intros Hr Hk. destruct r as [s|s]; cbn [flow_bind kept] in *;
    [now apply Hk | exact Hr].
Qed.

Lemma length_body_kept (chars : string) (L : nat) (st : gen_state W) :
  P st -> kept (length_body W self cbs total interval chars L st).
Proof.
  intro Hst. unfold length_body. cbv zeta.
  destruct (gt_limit _ _).
  - destruct (L <=? 3)%nat.
    + apply for_each_kept; [intros; now apply emit_keeps|].
      now apply notify_keeps.
    + apply bind_kept.
      { destruct (use_lowercase self); [|exact Hst].
        apply for_each_kept; [intros; now apply emit_keeps|].
        now apply notify_keeps. }
      intros s1 Hs1. apply bind_kept.
      { destruct (use_digits self); [|exact Hs1].
        apply for_each_kept; [intros; now apply emit_keeps|].
        now apply notify_keeps. }
      intros s2 Hs2.
      destruct ((4 <=? L)%nat && use_lowercase self && use_digits self);
        [|exact Hs2].
      apply for_each_kept; [|now apply notify_keeps].
      intros letters s Hs.
      apply for_each_kept; [intros; now apply emit_keeps | exact Hs].
  - apply for_each_kept; [intros; now apply emit_keeps|].
    now apply notify_keeps.
Qed.

Lemma run_kept (chars : string) (ls : list nat) (st : gen_state W) :
  P st ->
  kept (for_each ls (length_body W self cbs total interval chars) st).
Proof.
  apply for_each_kept. intros L s. apply length_body_kept.
Qed.

End RunInvariant.

(** ** A progress callback that refuses *)

Section Refusal.

Variable W : Type.
Variable self : PasswordGenerator.
Variable cbs : callbacks W.
Variables total interval : Z.

Variable f : Z -> Z -> W -> bool * W.
Variable M : Z.

Hypothesis progress_is_f : progress_callback cbs = Some f.
Hypothesis multiple : M mod interval = 0.
Hypothesis refuses : forall t w, fst (f M t w) = false.

Lemma emit_refused (pattern : string) (st : gen_state W) :
  count st + 1 = M ->
  returned (emit W self cbs total interval pattern st) = true.
Proof.
  intro Hc. unfold emit. rewrite progress_is_f. cbn [count].
  rewrite Hc, multiple. cbn [Z.eqb]. unfold call_progress. cbn [world].
  pose proof (refuses total (world st)) as Hno.
  destruct (f M total (world st)) as [ok w']. cbn [fst] in Hno. subst ok.
  reflexivity.
Qed.

Lemma emit_stays_below (pattern : string) (st : gen_state W) :
  0 <= count st < M ->
  kept W (fun s => 0 <= count s < M) (fun s => 0 <= count s <= M)
    (emit W self cbs total interval pattern st).
Proof.
  intro Hst.
  destruct (emit_extends W self cbs total interval pattern st)
    as [(_ & Hc & _) _].
  cbn [List.length] in Hc.
  pose proof (emit_refused pattern st) as Href.
  destruct (emit W self cbs total interval pattern st) as [s1|s1];
    cbn [kept flow_state returned] in *; [|lia].
  destruct (Z.eq_dec (count st + 1) M) as [Heq|Hne];
    [specialize (Href Heq); discriminate | lia].
Qed.

Lemma notify_pattern_count (label : string) (st : gen_state W) :
  count (notify_pattern W cbs label st) = count st.
Proof.
  unfold notify_pattern. destruct (pattern_callback cbs) as [g|];
    [|reflexivity].
  unfold call_pattern. now destruct (g label (world st)).
Qed.

Lemma refused_run (ls : list nat) (st : gen_state W) :
  0 <= count st < M ->
  0 <= count (flow_state
                (for_each ls
                   (length_body W self cbs total interval (charset self)) st))
    <= M.
Proof.
  intro Hst.
  pose proof (run_kept W self cbs total interval
                (fun s => 0 <= count s < M) (fun s => 0 <= count s <= M)
                ltac:(intros label s Hs; cbv beta in *;
                       now rewrite notify_pattern_count)
                emit_stays_below (charset self) ls st Hst) as Hrun.
  destruct (for_each ls _ st); cbn [kept flow_state] in *; lia.
Qed.

End Refusal.


(** ** Whole runs, whatever the options *)

Lemma start_state_fresh {W : Type} (self : PasswordGenerator)
  (cbs : callbacks W) (w : W) :
  passwords (start_state self cbs w) = []
  /\ count (start_state self cbs w) = 0.
Proof.
  destruct (start_state_extends self cbs w) as (Hp & Hc & _).
  cbn [initial_state passwords count List.length app] in Hp, Hc.
  split; [exact Hp | exact Hc].
Qed.

Lemma products_length (chars : string) (ls : list nat) :
  Z.of_nat (List.length (List.concat (map (product chars) ls)))
  = powers_over (Z.of_nat (String.length chars)) ls.
Proof.
  induction ls as [|L ls IH]; cbn [map List.concat powers_over];
    [reflexivity|].
  now rewrite length_app, Nat2Z.inj_add, product_length, IH.
Qed.

(** X1. The list [generate_passwords] returns holds no password twice,
    whatever the options, the limit and the behaviour of the callbacks: the
    products of distinct lengths are disjoint, and at a length above 3 the
    lowercase, numeric and mixed groups of the fallback are too. *)
Theorem returned_passwords_are_distinct :
  forall (W : Type) (self : PasswordGenerator) (cbs : callbacks W) (w : W),
    NoDup (generate_passwords self cbs w).
Proof.
  intros W self cbs w.
  rewrite generate_passwords_of_run. unfold whole_run, run_lengths.
  destruct (run_well_formed W self cbs (estimate_count self)
              (progress_interval_of (estimate_count self))
              (range (min_length self) (max_length self + 1))
              (start_state self cbs w) (seq_NoDup _ _))
    as (added & (Hp & _) & Hnd & _).
  rewrite Hp. destruct (start_state_fresh self cbs w) as [-> _].
  exact Hnd.
Qed.

(** X2. Every password [generate_passwords] returns has a length between
    [min_length] and [max_length] and consists of characters of the selected
    classes only (of lowercase letters when no class is selected), in the
    fallback above length 3 as well, whatever the callbacks do. *)
Theorem returned_passwords_fit_the_options :
  forall (W : Type) (self : PasswordGenerator) (cbs : callbacks W) (w : W),
    Forall (fun s =>
              (min_length self <= String.length s <= max_length self)%nat
              /\ uses (list_ascii_of_string (charset self)) s)
      (generate_passwords self cbs w).
Proof.
  intros W self cbs w.
  rewrite generate_passwords_of_run. unfold whole_run, run_lengths.
  destruct (run_well_formed W self cbs (estimate_count self)
              (progress_interval_of (estimate_count self))
              (range (min_length self) (max_length self + 1))
              (start_state self cbs w) (seq_NoDup _ _))
    as (added & (Hp & _) & _ & Hwf).
  rewrite Hp. destruct (start_state_fresh self cbs w) as [-> _].
  cbn [app]. eapply Forall_impl; [|exact Hwf].
  intros s [Hlen Huse]. split; [|exact Huse].
  unfold range in Hlen. apply in_seq in Hlen. lia.
Qed.

(** A progress callback that answers [False] whenever it is asked. *)
Definition refusing : callbacks unit :=
  {| progress_callback := Some (fun _ _ w => (false, w));
     pattern_callback := None |}.

(** X3. Cancelling only cuts the list short: whatever the two callbacks do,
    the list [generate_passwords] returns is a prefix of the list the same
    generator returns in a run that is never cancelled. *)
Theorem cancellation_only_truncates :
  forall (W W' : Type) (min_len max_len : nat) (lo up di sp unlimited : bool)
         (cbs : callbacks W) (w : W) (cbs' : callbacks W') (w' : W'),
    never_cancels cbs' ->
    let self := init min_len max_len lo up di sp unlimited in
    exists k : nat,
      generate_passwords self cbs w
      = firstn k (generate_passwords self cbs' w').
Proof.
  intros W W' min_len max_len lo up di sp unlimited cbs w cbs' w' Hnc self.
  rewrite !generate_passwords_of_run. unfold whole_run, run_lengths.
  destruct (start_state_fresh self cbs w) as [Hp Hc].
  destruct (start_state_fresh self cbs' w') as [Hp' Hc'].
  destruct (cancelled_run_is_prefix W W' self cbs cbs' (estimate_count self)
              (progress_interval_of (estimate_count self)) Hnc
              (range (min_length self) (max_length self + 1))
              (start_state self cbs w) (start_state self cbs' w'))
    as (k & added & added' & (H1 & _) & (H2 & _) & Heq).
  - congruence.
  - intros m Hm. rewrite Hc.
    rewrite (init_limit min_len max_len lo up di sp unlimited m Hm). lia.
  - exists k. rewrite H1, H2, Hp, Hp'. exact Heq.
Qed.

(** An instance of X3: the digits at lengths 1 and 2, cancelled at the first
    report, against the run without callbacks. *)
Lemma cancellation_only_truncates_witness :
  never_cancels no_callbacks
  /\ exists k : nat,
       generate_passwords (init 1 2 false false true false false) refusing tt
       = firstn k
           (generate_passwords (init 1 2 false false true false false)
              no_callbacks tt).
Proof.
  split; [exact no_callbacks_never_cancel|].
  exact (cancellation_only_truncates unit unit 1 2 false false true false false
           refusing tt no_callbacks tt no_callbacks_never_cancel).
Defined.

(** With no cancellation and a search space within the limit, the run
    returns the products of all the lengths. *)
Lemma generate_passwords_in_full {W : Type} (min_len max_len : nat)
  (lo up di sp unlimited : bool) (cbs : callbacks W) (w : W) :
  never_cancels cbs ->
  unlimited = true
  \/ sum_of_powers (charset_size lo up di sp) min_len
       (max_len + 1 - min_len) <= 1000000 ->
  let self := init min_len max_len lo up di sp unlimited in
  generate_passwords self cbs w
  = List.concat (map (product (charset self)) (range min_len (max_len + 1))).
Proof.
  intros Hnc Hfit self.
  destruct (start_state_fresh self cbs w) as [Hp Hc].
  assert (Hsum : powers_over (char_count_of self) (range min_len (max_len + 1))
                 = sum_of_powers (charset_size lo up di sp) min_len
                     (max_len + 1 - min_len)).
  { unfold range. now rewrite powers_over_seq. }
  rewrite generate_passwords_of_run. unfold whole_run, run_lengths.
  destruct (full_run W self cbs (estimate_count self)
              (progress_interval_of (estimate_count self)) Hnc
              (range (min_length self) (max_length self + 1))
              (start_state self cbs w)) as (H1 & _).
  - intros m Hm. rewrite Hc.
    rewrite (init_limit min_len max_len lo up di sp unlimited m Hm). lia.
  - intros m Hm. rewrite Hc.
    cbn [self init min_length max_length]. fold self. rewrite Hsum.
    destruct Hfit as [->|Hle]; [discriminate Hm|].
    rewrite (init_limit min_len max_len lo up di sp unlimited m Hm). lia.
  - rewrite H1, Hp. reflexivity.
Qed.

(** X4. When no callback cancels and the generator is unlimited, or the sum
    of [len(chars) ** length] over the lengths is at most 1,000,000, the
    returned list is the whole search space: the products of the character
    set at the lengths from [min_length] to [max_length], shortest first,
    and [estimate_count()] is exactly its length.  The list is empty when
    [min_length] exceeds [max_length]. *)
Theorem small_search_space_is_enumerated :
  forall (W : Type) (min_len max_len : nat) (lo up di sp unlimited : bool)
         (cbs : callbacks W) (w : W),
    never_cancels cbs ->
    unlimited = true
    \/ sum_of_powers (charset_size lo up di sp) min_len
         (max_len + 1 - min_len) <= 1000000 ->
    let self := init min_len max_len lo up di sp unlimited in
    generate_passwords self cbs w
    = List.concat (map (product (charset self)) (range min_len (max_len + 1)))
    /\ Z.of_nat (List.length (generate_passwords self cbs w))
       = estimate_count self.
Proof.
  intros W min_len max_len lo up di sp unlimited cbs w Hnc Hfit self.
  pose proof (generate_passwords_in_full min_len max_len lo up di sp unlimited
                cbs w Hnc Hfit) as Hrun.
  cbv zeta in Hrun. fold self in Hrun.
  split; [exact Hrun|].
  rewrite Hrun, products_length, charset_length.
  unfold range. rewrite powers_over_seq.
  rewrite estimate_count_unfold. cbv zeta.
  change (char_count_of self) with (charset_size lo up di sp).
  change (min_length self) with min_len.
  change (max_length self) with max_len.
  change (MAX_PASSWORDS self)
    with (if unlimited then Infinity else Finite 1000000).
  destruct unlimited; [reflexivity|].
  destruct Hfit as [Hf|Hle]; [discriminate Hf | lia].
Qed.

(** Every string over the alphabet is in the product of its length. *)
Lemma product_chars_complete (chars : list ascii) (s : string) :
  uses chars s -> In s (product_chars chars (String.length s)).
Proof.
  induction s as [|c s IH]; intro Hs; cbn [String.length product_chars].
  - now left.
  - inversion Hs as [|c' l Hc Hrest]; subst.
    apply in_flat_map. exists c. split; [exact Hc|].
    apply in_map. now apply IH.
Qed.

(** An instance of X4: the 110 digit strings of lengths 1 and 2. *)
Lemma small_search_space_is_enumerated_witness :
  never_cancels no_callbacks
  /\ (false = true
      \/ sum_of_powers (charset_size false false true false) 1 (2 + 1 - 1)
         <= 1000000)
  /\ generate_passwords (init 1 2 false false true false false) no_callbacks tt
     = List.concat
         (map (product (charset (init 1 2 false false true false false)))
            (range 1 (2 + 1)))
  /\ Z.of_nat
       (List.length
          (generate_passwords (init 1 2 false false true false false)
             no_callbacks tt))
     = estimate_count (init 1 2 false false true false false).
Proof.
  assert (Hfit : false = true
                 \/ sum_of_powers (charset_size false false true false) 1
                      (2 + 1 - 1) <= 1000000)
    by (right; vm_compute; discriminate).
  split; [exact no_callbacks_never_cancel|].
  split; [exact Hfit|].
  exact (small_search_space_is_enumerated unit 1 2 false false true false false
           no_callbacks tt no_callbacks_never_cancel Hfit).
Defined.

(** X5. A refusal is honoured at the report it answers: if the progress
    callback answers [False] when it is passed the count [M], a positive
    multiple of the progress interval
    [max(1, min(10000, total_estimate // 100))], then [generate_passwords]
    returns at most [M] passwords. *)
Theorem refusal_stops_at_the_report :
  forall (W : Type) (min_len max_len : nat) (lo up di sp unlimited : bool)
         (cbs : callbacks W) (w : W) (f : Z -> Z -> W -> bool * W) (n : Z),
    let self := init min_len max_len lo up di sp unlimited in
    let M := n * progress_interval_of (estimate_count self) in
    progress_callback cbs = Some f ->
    0 < n ->
    (forall (t : Z) (w' : W), fst (f M t w') = false) ->
    Z.of_nat (List.length (generate_passwords self cbs w)) <= M.
Proof.
  intros W min_len max_len lo up di sp unlimited cbs w f n self M Hf Hn Href.
  assert (Hi : 1 <= progress_interval_of (estimate_count self))
    by (unfold progress_interval_of; lia).
  destruct (start_state_fresh self cbs w) as [_ Hc].
  destruct (generate_outcome self cbs w) as (Hlen & _).
  pose proof (generate_passwords_state_eq self cbs w) as Hfinal.
  pose proof (extends_count_same _ _ _ _ Hfinal) as Hcount.
  unfold generate_passwords. rewrite <- Hlen, Hcount.
  unfold whole_run, run_lengths.
  apply (refused_run W self cbs (estimate_count self)
           (progress_interval_of (estimate_count self)) f M Hf).
  - unfold M. apply Z.mod_mul. lia.
  - exact Href.
  - rewrite Hc. unfold M. nia.
Qed.

(** An instance of X5: over the digits at lengths 1 and 2 the interval is 1,
    and the callback that always refuses leaves at most one password. *)
Lemma refusal_stops_at_the_report_witness :
  progress_callback refusing = Some (fun _ _ w => (false, w))
  /\ 0 < 1
  /\ (forall (t : Z) (w' : unit),
        fst ((fun (_ _ : Z) (w : unit) => (false, w))
               (1 * progress_interval_of
                      (estimate_count (init 1 2 false false true false false)))
               t w') = false)
  /\ Z.of_nat
       (List.length
          (generate_passwords (init 1 2 false false true false false)
             refusing tt))
     <= 1 * progress_interval_of
              (estimate_count (init 1 2 false false true false false)).
Proof.
  split; [reflexivity|]. split; [lia|]. split; [intros; reflexivity|].
  apply (refusal_stops_at_the_report unit 1 2 false false true false false
           refusing tt (fun _ _ w => (false, w)) 1);
    [reflexivity | lia | intros; reflexivity].
Defined.


(** ** What the callbacks keep, the run keeps *)

Section WorldInvariant.

Variable W : Type.
Variable self : PasswordGenerator.
Variable cbs : callbacks W.

(** A property of the observer state that both callbacks preserve. *)
Variable I : W -> Prop.

Hypothesis progress_keeps :
  forall f, progress_callback cbs = Some f ->
            forall c t w, I w -> I (snd (f c t w)).
Hypothesis pattern_keeps :
  forall f, pattern_callback cbs = Some f ->
            forall p w, I w -> I (snd (f p w)).

Lemma call_progress_keeps (f : Z -> Z -> W -> bool * W) (c t : Z)
  (st : gen_state W) :
  progress_callback cbs = Some f ->
  I (world st) -> I (world (snd (call_progress W f c t st))).
Proof.
  intros Hf Hst. unfold call_progress.
  pose proof (progress_keeps f Hf c t (world st) Hst) as Hk.
  now destruct (f c t (world st)).
Qed.

Lemma call_pattern_keeps (f : string -> W -> bool * W) (p : string)
  (st : gen_state W) :
  pattern_callback cbs = Some f ->
  I (world st) -> I (world (snd (call_pattern W f p st))).
Proof.
  intros Hf Hst. unfold call_pattern.
  pose proof (pattern_keeps f Hf p (world st) Hst) as Hk.
  now destruct (f p (world st)).
Qed.

Lemma notify_progress_keeps (c t : Z) (st : gen_state W) :
  I (world st) -> I (world (notify_progress W cbs c t st)).
Proof.
  intro Hst. unfold notify_progress.
  case_eq (progress_callback cbs); [intros f Hf | intros _; exact Hst].
  now apply call_progress_keeps.
Qed.

Lemma notify_pattern_keeps (label : string) (st : gen_state W) :
  I (world st) -> I (world (notify_pattern W cbs label st)).
Proof.
  intro Hst. unfold notify_pattern.
  case_eq (pattern_callback cbs); [intros f Hf | intros _; exact Hst].
  now apply call_pattern_keeps.
Qed.

Lemma emit_keeps_world (total interval : Z) (pattern : string)
  (st : gen_state W) :
  I (world st) ->
  kept W (fun s => I (world s)) (fun s => I (world s))
    (emit W self cbs total interval pattern st).
Proof.
  intro Hst. unfold emit.
  set (s0 := {| passwords := passwords st ++ [pattern];
                count := count st + 1;
                world := world st; calls := calls st |}).
  assert (H0 : I (world s0)) by exact Hst.
  apply bind_kept.
  { case_eq (progress_callback cbs); [intros f Hf | intros _; exact H0].
    destruct (count s0 mod interval =? 0); [|exact H0].
    pose proof (call_progress_keeps f (count s0) total s0 Hf H0) as Hk.
    destruct (call_progress W f (count s0) total s0) as [ok s1].
    destruct ok; exact Hk. }
  intros s1 H1. apply bind_kept.
  { case_eq (pattern_callback cbs); [intros f Hf | intros _; exact H1].
    destruct (count s1 mod (interval * 10) =? 0); [|exact H1].
    pose proof (call_pattern_keeps f pattern s1 Hf H1) as Hk.
    destruct (call_pattern W f pattern s1) as [ok s2].
    destruct ok; exact Hk. }
  intros s2 H2.
  destruct (ge_limit (count s2) (MAX_PASSWORDS self)); cbn [kept];
    [now apply notify_progress_keeps | exact H2].
Qed.

Lemma for_each_keeps_world {X : Type} (total interval : Z) (xs : list X)
  (label : X -> string) (st : gen_state W) :
  I (world st) ->
  I (world (flow_state
              (for_each xs
                 (fun x => emit W self cbs total interval (label x)) st))).
Proof.
  intro Hst.
  pose proof (for_each_kept W (fun s => I (world s)) (fun s => I (world s))
                xs (fun x => emit W self cbs total interval (label x)) st
                ltac:(intros x s Hs; now apply emit_keeps_world) Hst) as Hk.
  now destruct (for_each xs _ st).
Qed.

Lemma run_keeps_world (total interval : Z) (chars : string) (ls : list nat)
  (st : gen_state W) :
  I (world st) ->
  I (world (flow_state
              (for_each ls (length_body W self cbs total interval chars) st))).
Proof.
  intro Hst.
  pose proof (run_kept W self cbs total interval
                (fun s => I (world s)) (fun s => I (world s))
                ltac:(intros label s Hs; now apply notify_pattern_keeps)
                ltac:(intros p s Hs; now apply emit_keeps_world)
                chars ls st Hst) as Hk.
  now destruct (for_each ls _ st).
Qed.

Lemma length_body_keeps_world (total interval : Z) (chars : string) (L : nat)
  (st : gen_state W) :
  I (world st) ->
  I (world (flow_state (length_body W self cbs total interval chars L st))).
Proof.
  intro Hst.
  pose proof (length_body_kept W self cbs total interval
                (fun s => I (world s)) (fun s => I (world s))
                ltac:(intros label s Hs; now apply notify_pattern_keeps)
                ltac:(intros p s Hs; now apply emit_keeps_world)
                chars L st Hst) as Hk.
  now destruct (length_body W self cbs total interval chars L st).
Qed.

(** The observer state at the end of [generate_passwords]. *)
Lemma generate_keeps (w : W) :
  I w -> I (world (generate_passwords_state self cbs w)).
Proof.
  intro Hw. unfold generate_passwords_state, run_lengths.
  assert (Hstart : I (world (start_state self cbs w))).
  { unfold start_state. now apply notify_progress_keeps. }
  pose proof (run_keeps_world (estimate_count self)
                (progress_interval_of (estimate_count self)) (charset self)
                (range (min_length self) (max_length self + 1))
                (start_state self cbs w) Hstart) as Hrun.
  destruct (for_each _ _ (start_state self cbs w)) as [st|st];
    cbn [flow_state] in Hrun; [now apply notify_progress_keeps | exact Hrun].
Qed.

End WorldInvariant.


(** ** Runs in which no callback refused *)

Section Agreement.

Variable W : Type.
Variable self : PasswordGenerator.
Variable cbs : callbacks W.

(** A mark on the observer state that every refusal leaves behind and that
    no callback removes. *)
Variable flagged : W -> bool.

Hypothesis progress_refusal :
  forall f, progress_callback cbs = Some f ->
            forall c t w, fst (f c t w) = false -> flagged (snd (f c t w)) = true.
Hypothesis pattern_refusal :
  forall f, pattern_callback cbs = Some f ->
            forall p w, fst (f p w) = false -> flagged (snd (f p w)) = true.
Hypothesis progress_sticky :
  forall f, progress_callback cbs = Some f ->
            forall c t w, flagged w = true -> flagged (snd (f c t w)) = true.
Hypothesis pattern_sticky :
  forall f, pattern_callback cbs = Some f ->
            forall p w, flagged w = true -> flagged (snd (f p w)) = true.

(** The callbacks with the same effects that always answer [True]. *)
Definition assenting : callbacks W :=
  {| progress_callback :=
       option_map (fun f c t w => (true, snd (f c t w))) (progress_callback cbs);
     pattern_callback :=
       option_map (fun f p w => (true, snd (f p w))) (pattern_callback cbs) |}.

Lemma assenting_never_cancels : never_cancels assenting.
Proof.
  clear progress_refusal pattern_refusal progress_sticky pattern_sticky.
  split; intros f Hf; unfold assenting in Hf; cbn in Hf.
  - destruct (progress_callback cbs); [|discriminate].
    injection Hf as <-. reflexivity.
  - destruct (pattern_callback cbs); [|discriminate].
    injection Hf as <-. reflexivity.
Qed.

(** The two periodic reports inside [emit]. *)
Definition consult_progress (cb : callbacks W) (total interval : Z)
  (st : gen_state W) : flow (gen_state W) :=
  match progress_callback cb with
  | Some f =>
      if count st mod interval =? 0 then
        let '(ok, st') := call_progress W f (count st) total st in
        if ok then Next st' else Return st'
      else Next st
  | None => Next st
  end.

Definition consult_pattern (cb : callbacks W) (interval : Z) (pattern : string)
  (st : gen_state W) : flow (gen_state W) :=
  match pattern_callback cb with
  | Some f =>
      if count st mod (interval * 10) =? 0 then
        let '(ok, st') := call_pattern W f pattern st in
        if ok then Next st' else Return st'
      else Next st
  | None => Next st
  end.

Lemma emit_consults (cb : callbacks W) (total interval : Z) (pattern : string)
  (st : gen_state W) :
  emit W self cb total interval pattern st
  = (s1 <- consult_progress cb total interval
             {| passwords := passwords st ++ [pattern];
                count := count st + 1;
                world := world st; calls := calls st |} ;;
     s2 <- consult_pattern cb interval pattern s1 ;;
     if ge_limit (count s2) (MAX_PASSWORDS self)
     then Return (notify_progress W cb (count s2) total s2)
     else Next s2).
Proof. reflexivity. Qed.

Lemma notify_progress_assenting (c t : Z) (st : gen_state W) :
  notify_progress W assenting c t st = notify_progress W cbs c t st.
Proof.
  unfold notify_progress, assenting. cbn [progress_callback].
  destruct (progress_callback cbs) as [f|]; cbn [option_map]; [|reflexivity].
  unfold call_progress. now destruct (f c t (world st)).
Qed.

Lemma notify_pattern_assenting (label : string) (st : gen_state W) :
  notify_pattern W assenting label st = notify_pattern W cbs label st.
Proof.
  unfold notify_pattern, assenting. cbn [pattern_callback].
  destruct (pattern_callback cbs) as [f|]; cbn [option_map]; [|reflexivity].
  unfold call_pattern. now destruct (f label (world st)).
Qed.

Lemma consult_progress_agrees (total interval : Z) (st : gen_state W) :
  flagged (world (flow_state (consult_progress cbs total interval st))) = false ->
  consult_progress assenting total interval st
  = consult_progress cbs total interval st.
Proof.
  unfold consult_progress, assenting. cbn [progress_callback].
  case_eq (progress_callback cbs); [intros f Hf | reflexivity].
  cbn [option_map].
  destruct (count st mod interval =? 0); [|reflexivity].
  unfold call_progress.
  pose proof (progress_refusal f Hf (count st) total (world st)) as Href.
  destruct (f (count st) total (world st)) as [ok w']. cbn [fst snd] in *.
  destruct ok; [reflexivity|].
  cbn [flow_state world]. intro Hclear.
  rewrite (Href eq_refl) in Hclear. discriminate.
Qed.

Lemma consult_pattern_agrees (interval : Z) (pattern : string)
  (st : gen_state W) :
  flagged (world (flow_state (consult_pattern cbs interval pattern st))) = false ->
  consult_pattern assenting interval pattern st
  = consult_pattern cbs interval pattern st.
Proof.
  unfold consult_pattern, assenting. cbn [pattern_callback].
  case_eq (pattern_callback cbs); [intros f Hf | reflexivity].
  cbn [option_map].
  destruct (count st mod (interval * 10) =? 0); [|reflexivity].
  unfold call_pattern.
  pose proof (pattern_refusal f Hf pattern (world st)) as Href.
  destruct (f pattern (world st)) as [ok w']. cbn [fst snd] in *.
  destruct ok; [reflexivity|].
  cbn [flow_state world]. intro Hclear.
  rewrite (Href eq_refl) in Hclear. discriminate.
Qed.

(** A flag that is set stays set. *)
Definition marked (st : gen_state W) : Prop := flagged (world st) = true.

Lemma clear_or_marked (st : gen_state W) :
  flagged (world st) = false \/ marked st.
Proof. unfold marked. destruct (flagged (world st)); auto. Qed.

(** Two computations chained: when the end is clear, both parts agree. *)
Lemma bind_agrees (r r' : flow (gen_state W))
  (k k' : gen_state W -> flow (gen_state W)) :
  (flagged (world (flow_state r)) = false -> r' = r) ->
  (forall s, marked s -> marked (flow_state (k s))) ->
  (forall s, flagged (world (flow_state (k s))) = false -> k' s = k s) ->
  flagged (world (flow_state (flow_bind r k))) = false ->
  flow_bind r' k' = flow_bind r k.
Proof.
  intros Hr Hsticky Hk Hclear.
  destruct r as [s1|s1]; cbn [flow_bind flow_state] in *.
  - destruct (clear_or_marked s1) as [Hc|Hm].
    + rewrite (Hr Hc). cbn [flow_bind]. now apply Hk.
    + specialize (Hsticky s1 Hm). unfold marked in Hsticky. congruence.
  - now rewrite (Hr Hclear).
Qed.

Lemma for_each_agrees {X : Type} (xs : list X)
  (body body' : X -> gen_state W -> flow (gen_state W)) :
  (forall x s, flagged (world (flow_state (body x s))) = false ->
               body' x s = body x s) ->
  (forall x s, marked s -> marked (flow_state (body x s))) ->
  forall st,
    flagged (world (flow_state (for_each xs body st))) = false ->
    for_each xs body' st = for_each xs body st.
Proof.
  intros Hbody Hsticky.
  assert (Hall : forall ys s, marked s ->
                   marked (flow_state (for_each ys body s))).
  { intros ys s Hs.
    pose proof (for_each_kept W marked marked ys body s
                  ltac:(intros x s' Hs';
                        specialize (Hsticky x s' Hs');
                        destruct (body x s'); exact Hsticky) Hs) as Hk.
    now destruct (for_each ys body s). }
  induction xs as [|x xs IH]; intros st Hclear; cbn [for_each] in *;
    [reflexivity|].
  apply bind_agrees; auto.
Qed.

Section FixedRun.

Variables total interval : Z.

Local Notation "'step'" := (emit W self cbs total interval).
Local Notation "'step''" := (emit W self assenting total interval).

Lemma emit_sticky (pattern : string) (st : gen_state W) :
  marked st -> marked (flow_state (step pattern st)).
Proof.
  intro Hst.
  pose proof (emit_keeps_world W self cbs (fun w => flagged w = true)
                progress_sticky pattern_sticky total interval pattern st Hst)
    as Hk.
  now destruct (step pattern st).
Qed.

Lemma emit_agrees (pattern : string) (st : gen_state W) :
  flagged (world (flow_state (step pattern st))) = false ->
  step' pattern st = step pattern st.
Proof.
  rewrite !emit_consults. intro Hclear.
  assert (Hpattern_sticky : forall p s,
            marked s -> marked (flow_state (consult_pattern cbs interval p s))).
  { intros p s Hs. unfold consult_pattern.
    case_eq (pattern_callback cbs); [intros f Hf | intros _; exact Hs].
    destruct (count s mod (interval * 10) =? 0); [|exact Hs].
    pose proof (call_pattern_keeps W cbs (fun w => flagged w = true)
                  pattern_sticky f p s Hf Hs) as Hk.
    destruct (call_pattern W f p s) as [ok s']. now destruct ok. }
  assert (Hlast_sticky : forall s,
            marked s ->
            marked (flow_state
                      (if ge_limit (count s) (MAX_PASSWORDS self)
                       then Return (notify_progress W cbs (count s) total s)
                       else Next s))).
  { intros s Hs. destruct (ge_limit _ _); cbn [flow_state]; [|exact Hs].
    exact (notify_progress_keeps W cbs (fun w => flagged w = true)
             progress_sticky (count s) total s Hs). }
  apply bind_agrees; [apply consult_progress_agrees | | | exact Hclear].
  - intros s Hs.
    destruct (consult_pattern cbs interval pattern s) as [s2|s2] eqn:Hp;
      cbn [flow_bind flow_state].
    + apply Hlast_sticky. specialize (Hpattern_sticky pattern s Hs).
      now rewrite Hp in Hpattern_sticky.
    + specialize (Hpattern_sticky pattern s Hs).
      now rewrite Hp in Hpattern_sticky.
  - intros s Hc.
    apply bind_agrees; [apply consult_pattern_agrees | exact Hlast_sticky | |
                        exact Hc].
    intros s2 _. now rewrite notify_progress_assenting.
Qed.

Lemma length_body_sticky (chars : string) (L : nat) (st : gen_state W) :
  marked st ->
  marked (flow_state (length_body W self cbs total interval chars L st)).
Proof.
  exact (length_body_keeps_world W self cbs (fun w => flagged w = true)
           progress_sticky pattern_sticky total interval chars L st).
Qed.

Lemma notify_pattern_sticky (label : string) (st : gen_state W) :
  marked st -> marked (notify_pattern W cbs label st).
Proof.
  exact (notify_pattern_keeps W cbs (fun w => flagged w = true)
           pattern_sticky label st).
Qed.

Lemma loop_agrees {X : Type} (xs : list X) (label : X -> string)
  (st : gen_state W) :
  flagged (world (flow_state (for_each xs (fun x => step (label x)) st)))
  = false ->
  for_each xs (fun x => step' (label x)) st
  = for_each xs (fun x => step (label x)) st.
Proof.
  apply for_each_agrees.
  - intros x s. apply emit_agrees.
  - intros x s. apply emit_sticky.
Qed.

Lemma loop_sticky {X : Type} (xs : list X) (label : X -> string)
  (st : gen_state W) :
  marked st -> marked (flow_state (for_each xs (fun x => step (label x)) st)).
Proof.
  exact (for_each_keeps_world W self cbs (fun w => flagged w = true)
           progress_sticky pattern_sticky total interval xs label st).
Qed.

Lemma length_body_agrees (chars : string) (L : nat) (st : gen_state W) :
  flagged (world (flow_state
                    (length_body W self cbs total interval chars L st)))
  = false ->
  length_body W self assenting total interval chars L st
  = length_body W self cbs total interval chars L st.
Proof.
  unfold length_body. cbv zeta.
  destruct (gt_limit _ _).
  - destruct (L <=? 3)%nat.
    + rewrite notify_pattern_assenting.
      apply (loop_agrees (product chars L) (fun p => p)).
    + intro Hclear.
      apply bind_agrees; [| | |exact Hclear].
      * destruct (use_lowercase self); [|reflexivity].
        rewrite notify_pattern_assenting.
        apply (loop_agrees (product ascii_lowercase L) (fun p => p)).
      * intros s Hs.
        assert (H2 : marked
                  (flow_state
                     (if use_digits self
                      then for_each (product digits L) step
                             (notify_pattern W cbs
                                ("Length " ++ str_of_nat L
                                 ++ " numeric passwords") s)
                      else Next s))).
        { destruct (use_digits self); [|exact Hs].
          apply (loop_sticky (product digits L) (fun p => p)).
          now apply notify_pattern_sticky. }
        destruct (if use_digits self then _ else _) as [s2|s2];
          cbn [flow_bind flow_state] in *; [|exact H2].
        destruct ((4 <=? L)%nat && use_lowercase self && use_digits self);
          [|exact H2].
        rewrite (for_each_nested
                   (fun letters digit_part => (letters ++ digit_part)%string)).
        apply (loop_sticky _ (fun p => p)).
        now apply notify_pattern_sticky.
      * intros s Hc.
        apply bind_agrees; [| | |exact Hc].
        -- destruct (use_digits self); [|reflexivity].
           rewrite notify_pattern_assenting.
           apply (loop_agrees (product digits L) (fun p => p)).
        -- intros s2 Hs2.
           destruct ((4 <=? L)%nat && use_lowercase self && use_digits self);
             [|exact Hs2].
           rewrite (for_each_nested
                      (fun letters digit_part =>
                         (letters ++ digit_part)%string)).
           apply (loop_sticky _ (fun p => p)).
           now apply notify_pattern_sticky.
        -- intros s2.
           destruct ((4 <=? L)%nat && use_lowercase self && use_digits self);
             [|reflexivity].
           rewrite notify_pattern_assenting.
           rewrite !(for_each_nested
                       (fun letters digit_part =>
                          (letters ++ digit_part)%string)).
           apply (loop_agrees _ (fun p => p)).
  - rewrite notify_pattern_assenting.
    apply (loop_agrees (product chars L) (fun p => p)).
Qed.

End FixedRun.

(** When the flag is clear at the end of [generate_passwords], no callback
    has refused, and the run is the one of the assenting callbacks. *)
Lemma generate_agrees (w : W) :
  flagged (world (generate_passwords_state self cbs w)) = false ->
  generate_passwords_state self assenting w
  = generate_passwords_state self cbs w.
Proof.
  unfold generate_passwords_state, run_lengths, start_state.
  rewrite notify_progress_assenting.
  set (total := estimate_count self).
  set (interval := progress_interval_of total).
  set (st0 := notify_progress W cbs 0 total _).
  set (ls := range (min_length self) (max_length self + 1)).
  intro Hclear.
  assert (Hrun : flagged
                   (world (flow_state
                             (for_each ls
                                (length_body W self cbs total interval
                                   (charset self)) st0))) = false).
  { destruct (for_each ls _ st0) as [s|s] eqn:Hr; cbn [flow_state] in *;
      [|exact Hclear].
    destruct (clear_or_marked s) as [Hc|Hm]; [exact Hc|].
    pose proof (notify_progress_keeps W cbs (fun w => flagged w = true)
                  progress_sticky (count s) total s Hm) as Hk.
    cbv beta in Hk. congruence. }
  rewrite (for_each_agrees ls
             (length_body W self cbs total interval (charset self))
             (length_body W self assenting total interval (charset self))
             (fun L s => length_body_agrees total interval (charset self) L s)
             (fun L s => length_body_sticky total interval (charset self) L s)
             st0 Hrun).
  destruct (for_each ls _ st0); [apply notify_progress_assenting | reflexivity].
Qed.

End Agreement.

(** Two runs that are never cancelled return the same list. *)
Lemma uncancelled_lists_agree {W W' : Type} (min_len max_len : nat)
  (lo up di sp unlimited : bool) (cbs : callbacks W) (w : W)
  (cbs' : callbacks W') (w' : W') :
  never_cancels cbs -> never_cancels cbs' ->
  let self := init min_len max_len lo up di sp unlimited in
  generate_passwords self cbs w = generate_passwords self cbs' w'.
Proof.
  intros Hnc Hnc' self.
  assert (Hprefix : forall (V V' : Type) (c : callbacks V) (v : V)
                      (c' : callbacks V') (v' : V'),
             never_cancels c' ->
             exists k, generate_passwords self c v
                       = firstn k (generate_passwords self c' v')).
  { intros V V' c v c' v' Hc'.
    rewrite !generate_passwords_of_run. unfold whole_run, run_lengths.
    destruct (start_state_fresh self c v) as [Hp Hc].
    destruct (start_state_fresh self c' v') as [Hp' Hcc'].
    destruct (cancelled_run_is_prefix V V' self c c' (estimate_count self)
                (progress_interval_of (estimate_count self)) Hc'
                (range (min_length self) (max_length self + 1))
                (start_state self c v) (start_state self c' v'))
      as (k & added & added' & (H1 & _) & (H2 & _) & Heq).
    - congruence.
    - intros m Hm. rewrite Hc.
      rewrite (init_limit min_len max_len lo up di sp unlimited m Hm). lia.
    - exists k. rewrite H1, H2, Hp, Hp'. exact Heq. }
  destruct (Hprefix W W' cbs w cbs' w' Hnc') as [k Hk].
  destruct (Hprefix W' W cbs' w' cbs w Hnc) as [k' Hk'].
  assert (Hlen : List.length (generate_passwords self cbs w)
                 = List.length (generate_passwords self cbs' w')).
  { apply Nat.le_antisymm.
    - rewrite Hk at 1. rewrite length_firstn. lia.
    - rewrite Hk' at 1. rewrite length_firstn. lia. }
  rewrite Hk. apply firstn_all2.
  rewrite Hk, length_firstn in Hlen. lia.
Qed.


(** * Properties of the memory checks *)

(** [x == y] on floats excludes [y < x]. *)
Lemma float_eq_not_gt (x y : float) :
  PrimFloat.eqb x y = true -> float_gt x y = false.
Proof.
  unfold float_gt.
  rewrite FloatAxioms.eqb_spec, FloatAxioms.ltb_spec.
  unfold SFeqb, SFltb, SFcompare.
  destruct (Prim2SF x) as [sx|sx| |sx mx ex], (Prim2SF y) as [sy|sy| |sy my ey];
    try discriminate; try reflexivity;
    try (destruct sx, sy; discriminate || reflexivity).
  destruct sx, sy; try discriminate;
    (destruct (ex ?= ey) eqn:He; try discriminate;
     apply Z.compare_eq in He; subst ey; rewrite Z.compare_refl;
     destruct (Pos.compare_cont Eq mx my) eqn:Hm; try discriminate;
     apply Pos.compare_eq in Hm; subst my;
     now rewrite Pos.compare_cont_refl).
Qed.

Lemma generation_check_emitted (reading : memory_reading)
  (self : PasswordGenerationThread.thread) :
  PasswordGenerationThread.emitted
    (PasswordGenerationThread.check_memory_usage reading self)
  = PasswordGenerationThread.emitted self
    ++ match reading with
       | Rss bytes =>
           if float_gt (memory_mb_of bytes)
                (warning_threshold (PasswordGenerationThread.memory_limit_mb self))
           then [PasswordGenerationThread.memory_warning (memory_mb_of bytes)]
           else []
       | _ => []
       end.
Proof.
  unfold PasswordGenerationThread.check_memory_usage, warning_threshold.
  destruct reading as [|bytes|]; try (now rewrite app_nil_r).
  destruct (float_gt (memory_mb_of bytes) _);
    cbn [PasswordGenerationThread.emit PasswordGenerationThread.memory_limit_mb
         PasswordGenerationThread.emitted];
    destruct (float_gt (memory_mb_of bytes) _);
    cbn [PasswordGenerationThread.cancel PasswordGenerationThread.emitted];
    now rewrite ?app_nil_r.
Qed.

Lemma search_cancel_emitted (self : PasswordRecoveryThread.thread) :
  PasswordRecoveryThread.emitted (PasswordRecoveryThread.cancel self)
  = PasswordRecoveryThread.emitted self.
Proof.
  unfold PasswordRecoveryThread.cancel, PasswordRecoveryThread.wakeAll.
  destruct self as [path pl lim pa ca cur pos em att].
  destruct pos; reflexivity.
Qed.

Lemma search_check_emitted (reading : memory_reading)
  (self : PasswordRecoveryThread.thread) :
  PasswordRecoveryThread.emitted
    (PasswordRecoveryThread.check_memory_usage reading self)
  = PasswordRecoveryThread.emitted self
    ++ match reading with
       | Rss bytes =>
           if float_gt (memory_mb_of bytes)
                (warning_threshold (PasswordRecoveryThread.memory_limit_mb self))
           then [PasswordRecoveryThread.memory_warning (memory_mb_of bytes)]
           else []
       | _ => []
       end.
Proof.
  unfold PasswordRecoveryThread.check_memory_usage, warning_threshold.
  destruct reading as [|bytes|]; try (now rewrite app_nil_r).
  destruct (float_gt (memory_mb_of bytes)
              (PrimFloat.mul
                 (float_of_int (PasswordRecoveryThread.memory_limit_mb self))
                 0.8));
    match goal with
    | |- context [if ?c then _ else _] => destruct c
    end;
    rewrite ?search_cancel_emitted;
    cbn [PasswordRecoveryThread.emit PasswordRecoveryThread.emitted];
    now rewrite ?app_nil_r.
Qed.

(** A generation thread and a search thread with the ceiling of 1000 MB and
    nothing emitted yet, and a sample of exactly 800 MB. *)
Definition generation_thread_1000 : PasswordGenerationThread.thread :=
  {| PasswordGenerationThread.memory_limit_mb := 1000;
     PasswordGenerationThread.cancelled := false;
     PasswordGenerationThread.emitted := [] |}.

Definition search_thread_1000 : PasswordRecoveryThread.thread :=
  PasswordRecoveryThread.init "document.pdf" [] 1000.

Definition sample_800_mb : memory_reading := Rss (800 * 1024 * 1024).

(** C2, as stated, fails: with a ceiling of 1000 MB, a sample of exactly
    800 MB equals 80% of the ceiling and still no [memory_warning] is
    emitted, in the generation thread and in the search thread alike. *)
Lemma sample_at_80_percent_emits_no_warning :
  PrimFloat.eqb (memory_mb_of (800 * 1024 * 1024)) (warning_threshold 1000)
  = true
  /\ PasswordGenerationThread.emitted
       (PasswordGenerationThread.check_memory_usage sample_800_mb
          generation_thread_1000) = []
  /\ PasswordRecoveryThread.emitted
       (PasswordRecoveryThread.check_memory_usage sample_800_mb
          search_thread_1000) = [].
Proof. repeat split; vm_compute; reflexivity. Qed.

(** C2, amended.  For every ceiling, a sample equal to the 80% threshold is
    left unreported by both threads: [check_memory_usage] emits
    [memory_warning] exactly when the sample is strictly greater than
    [memory_limit_mb * 0.8], and emits nothing when the two are equal. *)
Theorem warning_only_above_80_percent :
  forall (limit bytes : Z)
         (generation : PasswordGenerationThread.thread)
         (search : PasswordRecoveryThread.thread),
    PasswordGenerationThread.memory_limit_mb generation = limit ->
    PasswordRecoveryThread.memory_limit_mb search = limit ->
    (PasswordGenerationThread.emitted
       (PasswordGenerationThread.check_memory_usage (Rss bytes) generation)
     = PasswordGenerationThread.emitted generation
       ++ (if float_gt (memory_mb_of bytes) (warning_threshold limit)
           then [PasswordGenerationThread.memory_warning (memory_mb_of bytes)]
           else []))
    /\ (PasswordRecoveryThread.emitted
          (PasswordRecoveryThread.check_memory_usage (Rss bytes) search)
        = PasswordRecoveryThread.emitted search
          ++ (if float_gt (memory_mb_of bytes) (warning_threshold limit)
              then [PasswordRecoveryThread.memory_warning (memory_mb_of bytes)]
              else []))
    /\ (PrimFloat.eqb (memory_mb_of bytes) (warning_threshold limit) = true ->
        PasswordGenerationThread.emitted
          (PasswordGenerationThread.check_memory_usage (Rss bytes) generation)
        = PasswordGenerationThread.emitted generation
        /\ PasswordRecoveryThread.emitted
             (PasswordRecoveryThread.check_memory_usage (Rss bytes) search)
           = PasswordRecoveryThread.emitted search).
Proof.
  intros limit bytes generation search Hg Hs.
  rewrite generation_check_emitted, search_check_emitted, Hg, Hs.
  split; [reflexivity|]. split; [reflexivity|].
  intro Heq. rewrite (float_eq_not_gt _ _ Heq), !app_nil_r. now split.
Qed.

Lemma warning_only_above_80_percent_witness :
  PasswordGenerationThread.memory_limit_mb generation_thread_1000 = 1000
  /\ PasswordRecoveryThread.memory_limit_mb search_thread_1000 = 1000
  /\ PrimFloat.eqb (memory_mb_of (800 * 1024 * 1024)) (warning_threshold 1000)
     = true
  /\ PasswordGenerationThread.emitted
       (PasswordGenerationThread.check_memory_usage
          (Rss (800 * 1024 * 1024)) generation_thread_1000)
     = PasswordGenerationThread.emitted generation_thread_1000
  /\ PasswordRecoveryThread.emitted
       (PasswordRecoveryThread.check_memory_usage
          (Rss (800 * 1024 * 1024)) search_thread_1000)
     = PasswordRecoveryThread.emitted search_thread_1000.
Proof.
  split; [reflexivity|]. split; [reflexivity|].
  assert (Heq : PrimFloat.eqb (memory_mb_of (800 * 1024 * 1024))
                  (warning_threshold 1000) = true)
    by (vm_compute; reflexivity).
  split; [exact Heq|].
  exact (proj2 (proj2 (warning_only_above_80_percent 1000 (800 * 1024 * 1024)
                         generation_thread_1000 search_thread_1000
                         eq_refl eq_refl)) Heq).
Defined.

(** Every ceiling the spin box can hold (500 to 16000 MB) that has a whole
    number of bytes at 80% is a multiple of 5; for each of them the sample of
    exactly four fifths of the ceiling equals the threshold the code
    computes, and is not above it. *)
Lemma exact_80_percent_samples :
  forallb
    (fun k : nat =>
       let limit := 5 * Z.of_nat k in
       let bytes := 4 * Z.of_nat k * (1024 * 1024) in
       PrimFloat.eqb (memory_mb_of bytes) (warning_threshold limit)
       && negb (float_gt (memory_mb_of bytes) (warning_threshold limit)))
    (seq 100 3101) = true.
Proof. vm_compute. reflexivity. Qed.

(** * Properties of the decryption attempt *)

Import pdf_recovery.

Section Attempt.

Variables File Reader : Type.
Variable lib : pdf_library File Reader.
Variables pdf_path password : string.

Lemma try_password_attempt_true :
  try_password_attempt lib pdf_path password = Ok true
  <-> opens_with_password lib pdf_path password.
Proof.
  unfold try_password_attempt, with_open, opens_with_password, bind.
  split.
  - destruct (open_rb lib pdf_path) as [file|e] eqn:Ho; [|discriminate].
    destruct (PdfReader lib file) as [reader|e] eqn:Hr.
    2:{ destruct (close lib file); discriminate. }
    destruct (is_encrypted lib reader) as [enc|e] eqn:He.
    2:{ destruct (close lib file); discriminate. }
    destruct enc.
    + destruct (decrypt lib reader password) as [v|e] eqn:Hd.
      2:{ destruct (close lib file); discriminate. }
      destruct (v =? 0) eqn:Hv; cbn [negb];
        destruct (close lib file) as [u|e] eqn:Hc; try discriminate.
      intros _. exists file, reader.
      split; [reflexivity|]. split; [exact Hr|]. split; [now exists u|].
      right. split; [exact He|]. exists v. split; [exact Hd|].
      now apply Z.eqb_neq.
    + destruct (close lib file) as [u|e] eqn:Hc; [|discriminate].
      intros _. exists file, reader.
      split; [reflexivity|]. split; [exact Hr|]. split; [now exists u|].
      now left.
  - intros (file & reader & Ho & Hr & (u & Hc) & Hcase).
    rewrite Ho, Hr.
    destruct Hcase as [He|(He & v & Hd & Hv)]; rewrite He.
    + now rewrite Hc.
    + rewrite Hd. rewrite (proj2 (Z.eqb_neq v 0) Hv). cbn [negb].
      now rewrite Hc.
Qed.

Lemma try_password_total :
  fst (try_password lib pdf_path password)
  = Ok (match try_password_attempt lib pdf_path password with
        | Ok b => b
        | Raise _ => false
        end).
Proof.
  unfold try_password.
  now destruct (try_password_attempt lib pdf_path password).
Qed.

End Attempt.


(** * Properties of the search worker *)

Import PasswordRecoveryThread.

Section Worker.

Variables File Reader : Type.
Variable env : surroundings File Reader.

Lemma try_at_true (self : thread) (j : nat) (password : string) :
  try_at env self j password = true
  <-> opens_with_password (library_at env j) (pdf_path self) password.
Proof.
  unfold try_at. rewrite try_password_total.
  rewrite <- try_password_attempt_true.
  destruct (try_password_attempt (library_at env j) (pdf_path self) password)
    as [[|]|e]; split; congruence.
Qed.

(** One failed attempt inside a batch: the worker records it, moves its
    cursor past the candidate and stays in the batch. *)
Lemma failed_attempt_step (self : thread) (i j end_batch : nat) :
  at_ self = BatchStep i j end_batch ->
  (j < end_batch)%nat ->
  try_at env self j (candidate self j) = false ->
  exists self',
    worker_step env self = Some self'
    /\ at_ self' = BatchStep i (S j) end_batch
    /\ current_position self' = (j + 1)%nat
    /\ attempts self' = attempts self ++ [(j, candidate self j)]
    /\ pdf_path self' = pdf_path self
    /\ password_list self' = password_list self
    /\ memory_limit_mb self' = memory_limit_mb self
    /\ cancelled self' = cancelled self
    /\ paused self' = paused self.
Proof.
  intros Hat Hj Htry.
  unfold worker_step. rewrite Hat.
  rewrite (proj2 (Nat.ltb_lt _ _) Hj).
  fold (candidate self j).
  set (s1 := if (j mod 10 =? 0)%nat
             then emit (current_password_update (candidate self j)) self
             else self).
  assert (Hsame : try_at env (record_attempt j (candidate self j) s1) j
                    (candidate self j)
                  = try_at env self j (candidate self j)).
  { unfold s1. now destruct (j mod 10 =? 0)%nat. }
  rewrite Hsame, Htry.
  eexists. split; [reflexivity|].
  unfold s1. destruct (j mod 10 =? 0)%nat; cbn; repeat split; reflexivity.
Qed.

(** A successful attempt ends the run with [password_found]. *)
Lemma successful_attempt_step (self : thread) (i j end_batch : nat) :
  at_ self = BatchStep i j end_batch ->
  (j < end_batch)%nat ->
  try_at env self j (candidate self j) = true ->
  exists self',
    worker_step env self = Some self'
    /\ at_ self' = Stopped (Found (candidate self j))
    /\ attempts self' = attempts self ++ [(j, candidate self j)]
    /\ emitted self'
       = emitted self
         ++ (if (j mod 10 =? 0)%nat
             then [current_password_update (candidate self j)] else [])
         ++ [password_found (candidate self j)]
    /\ pdf_path self' = pdf_path self
    /\ password_list self' = password_list self
    /\ memory_limit_mb self' = memory_limit_mb self
    /\ cancelled self' = cancelled self
    /\ paused self' = paused self.
Proof.
  intros Hat Hj Htry.
  unfold worker_step. rewrite Hat.
  rewrite (proj2 (Nat.ltb_lt _ _) Hj).
  fold (candidate self j).
  set (s1 := if (j mod 10 =? 0)%nat
             then emit (current_password_update (candidate self j)) self
             else self).
  assert (Hsame : try_at env (record_attempt j (candidate self j) s1) j
                    (candidate self j)
                  = try_at env self j (candidate self j)).
  { unfold s1. now destruct (j mod 10 =? 0)%nat. }
  rewrite Hsame, Htry.
  eexists. split; [reflexivity|].
  unfold s1. destruct (j mod 10 =? 0)%nat; cbn; repeat split;
    try reflexivity; now rewrite <- ?app_assoc.
Qed.

(** Once [run] has returned, nothing the worker or the controlling thread
    does adds an attempt or a signal. *)
Lemma stopped_act (a : action) (self : thread) (v : verdict) :
  at_ self = Stopped v ->
  at_ (act env a self) = Stopped v
  /\ attempts (act env a self) = attempts self
  /\ emitted (act env a self) = emitted self.
Proof.
  intro Hat. destruct self as [path pl lim pa ca cur pos em att].
  cbn in Hat. subst pos.
  destruct a; cbn; repeat split; reflexivity.
Qed.

Lemma stopped_exec (schedule : list action) (self : thread) (v : verdict) :
  at_ self = Stopped v ->
  at_ (exec env schedule self) = Stopped v
  /\ attempts (exec env schedule self) = attempts self
  /\ emitted (exec env schedule self) = emitted self.
Proof.
  revert self.
  induction schedule as [|a schedule IH]; intros self Hat; cbn [exec fold_left].
  - auto.
  - destruct (stopped_act a self v Hat) as (H1 & H2 & H3).
    destruct (IH (act env a self) H1) as (H4 & H5 & H6).
    fold (exec env schedule (act env a self)).
    rewrite H5, H6, H2, H3. auto.
Qed.

End Worker.

(** C8. [try_password] never raises: its result is a truth value, [True]
    exactly when the file opens, parses and closes and the document is not
    encrypted or is decrypted by the password, and [False] in every other
    case, a wrong password and an exception from any step of the attempt
    alike.  In the search loop a candidate for which it is [False] is
    recorded, the cursor moves past it and the loop goes on to the next
    index. *)
Theorem failed_attempt_never_aborts_search :
  forall (File Reader : Type) (env : surroundings File Reader)
         (self : thread) (i j end_batch : nat),
    (exists b : bool,
        fst (try_password (library_at env j) (pdf_path self) (candidate self j))
        = Ok b
        /\ (b = true
            <-> opens_with_password (library_at env j) (pdf_path self)
                  (candidate self j)))
    /\ (at_ self = BatchStep i j end_batch ->
        (j < end_batch)%nat ->
        ~ opens_with_password (library_at env j) (pdf_path self)
            (candidate self j) ->
        exists self',
          worker_step env self = Some self'
          /\ at_ self' = BatchStep i (S j) end_batch
          /\ current_position self' = (j + 1)%nat
          /\ attempts self' = attempts self ++ [(j, candidate self j)]).
Proof.
  intros File Reader env self i j end_batch.
  split.
  - rewrite try_password_total.
    eexists. split; [reflexivity|].
    rewrite <- try_password_attempt_true.
    destruct (try_password_attempt (library_at env j) (pdf_path self)
                (candidate self j)) as [[|]|e]; split; congruence.
  - intros Hat Hj Hfail.
    assert (Htry : try_at env self j (candidate self j) = false).
    { destruct (try_at env self j (candidate self j)) eqn:H; [|reflexivity].
      exfalso. apply Hfail. now apply (try_at_true File Reader env). }
    destruct (failed_attempt_step File Reader env self i j end_batch Hat Hj Htry)
      as (self' & H1 & H2 & H3 & H4 & _).
    exists self'. auto.
Qed.

(** A file system on which [open] fails, and a reader that is never
    reached. *)
Definition unreadable_library : pdf_library unit unit :=
  {| open_rb := fun _ => Raise (OSError "No such file or directory");
     close := fun _ => Ok tt;
     PdfReader := fun _ => Ok tt;
     is_encrypted := fun _ => Ok true;
     decrypt := fun _ _ => Ok 0 |}.

Definition unreadable_surroundings : surroundings unit unit :=
  {| library_at := fun _ => unreadable_library;
     memory_at := fun _ => NoPsutil |}.

(** A worker about to try the first of two candidates. *)
Definition worker_in_first_batch : thread :=
  goto (BatchStep 0 0 2) (init "document.pdf" ["a"; "b"]%string 1000).

Lemma unreadable_library_never_opens (path password : string) :
  ~ opens_with_password unreadable_library path password.
Proof. intros (file & reader & Ho & _). discriminate Ho. Defined.

(** An instance of C8: the file cannot be opened, the attempt is [False] and
    the worker goes on to the second candidate. *)
Lemma failed_attempt_never_aborts_search_witness :
  at_ worker_in_first_batch = BatchStep 0 0 2
  /\ (0 < 2)%nat
  /\ ~ opens_with_password unreadable_library "document.pdf" "a"
  /\ fst (try_password unreadable_library "document.pdf" "a") = Ok false
  /\ exists self',
       worker_step unreadable_surroundings worker_in_first_batch = Some self'
       /\ at_ self' = BatchStep 0 1 2
       /\ current_position self' = 1%nat
       /\ attempts self' = [(0%nat, "a"%string)].
Proof.
  split; [reflexivity|]. split; [lia|].
  split; [apply unreadable_library_never_opens|].
  split; [reflexivity|].
  exact (proj2 (failed_attempt_never_aborts_search unit unit
                  unreadable_surroundings worker_in_first_batch 0 0 2)
           eq_refl (le_n_S _ _ (le_S _ _ (le_n 0)))
           (unreadable_library_never_opens "document.pdf" "a")).
Defined.

(** The progress value is truncated after the floating-point product:
    [int(29 / 100 * 100)] is 28. *)
Example progress_of_truncates :
  progress_of 29 100 = 28 /\ progress_of 100 300 = 33 /\ progress_of 3 3 = 100.
Proof. vm_compute. repeat split; reflexivity. Qed.

(** ** Runs that are not cancelled *)

Section Uncancelled_search.

Variables File Reader : Type.
Variable env : surroundings File Reader.

(** The attributes a run never changes, the cursor [k] the account starts
    from and the attempts made before it. *)
Variable path : string.
Variable pl : list string.
Variable limit : Z.
Variable k : nat.
Variable before : list (nat * string).

Hypothesis memory_is_calm : calm env limit.

Local Notation "'total'" := (List.length pl).

(** What [try_password] answers for the candidate at index [j]. *)
Definition answer (j : nat) : bool :=
  match fst (try_password (library_at env j) path (nth j pl EmptyString)) with
  | Ok b => b
  | Raise _ => false
  end.

Definition tested_upto (self : thread) (n : nat) : Prop :=
  attempts self = before ++ tests pl k n
  /\ forall j, (k <= j < n)%nat -> answer j = false.

(** What holds of the worker at each position as long as nobody cancels. *)
Definition steady (self : thread) : Prop :=
  pdf_path self = path
  /\ password_list self = pl
  /\ memory_limit_mb self = limit
  /\ cancelled self = false
  /\ match at_ self with
     | NotStarted => False
     | LoopHead i => (k <= i <= total)%nat /\ tested_upto self i
     | PauseGate i => (k <= i < total)%nat /\ tested_upto self i
     | Waiting i => (k <= i < total)%nat /\ tested_upto self i
     | Woken i => (k <= i < total)%nat /\ tested_upto self i
     | BatchStep i j end_batch =>
         (k <= i /\ i <= j /\ j <= end_batch /\ end_batch <= total
          /\ i < end_batch)%nat
         /\ tested_upto self j
     | BatchEnd i end_batch =>
         (k <= i /\ i < end_batch /\ end_batch <= total)%nat
         /\ tested_upto self end_batch
     | Stopped NotFound => (k <= total)%nat /\ tested_upto self total
     | Stopped (Found p) =>
         exists j, (k <= j < total)%nat
                   /\ p = nth j pl EmptyString
                   /\ attempts self = before ++ tests pl k (S j)
                   /\ answer j = true
                   /\ forall j', (k <= j' < j)%nat -> answer j' = false
     | Stopped Cancelled => False
     end.

Lemma tests_snoc (j : nat) :
  (k <= j)%nat -> tests pl k (S j) = tests pl k j ++ [(j, nth j pl EmptyString)].
Proof.
  intro Hj. unfold tests.
  replace (S j - k)%nat with ((j - k) + 1)%nat by lia.
  rewrite seq_app, map_app. cbn [seq map].
  now replace (k + (j - k))%nat with j by lia.
Qed.

Lemma try_at_answer (self : thread) (j : nat) :
  pdf_path self = path -> password_list self = pl ->
  try_at env self j (candidate self j) = answer j.
Proof.
  intros Hp Hl. unfold try_at, answer, candidate. now rewrite Hp, Hl.
Qed.

(** Under calm memory the check leaves everything but the signals alone. *)
Lemma calm_check (i : nat) (self : thread) :
  memory_limit_mb self = limit ->
  let self' := check_memory_usage (memory_at env i) self in
  pdf_path self' = pdf_path self
  /\ password_list self' = password_list self
  /\ memory_limit_mb self' = memory_limit_mb self
  /\ paused self' = paused self
  /\ cancelled self' = cancelled self
  /\ current_position self' = current_position self
  /\ at_ self' = at_ self
  /\ attempts self' = attempts self.
Proof.
  intros Hlim. unfold check_memory_usage.
  destruct (memory_at env i) as [|bytes|] eqn:Hm; cbv zeta;
    try (repeat split; reflexivity).
  pose proof (memory_is_calm i bytes Hm) as Hcalm.
  destruct self as [pa li lim pau can cur pos em att].
  cbn [memory_limit_mb] in Hlim. subst lim.
  cbn [memory_limit_mb].
  destruct (float_gt (memory_mb_of bytes) (PrimFloat.mul (float_of_int limit) _));
    cbn [emit memory_limit_mb]; rewrite Hcalm;
    repeat split; reflexivity.
Qed.

Ltac steady_fields :=
  unfold steady, tested_upto in *; cbn;
  repeat split; try assumption; try lia.

Lemma steady_tick (self : thread) :
  steady self -> steady (act env Tick self).
Proof.
  intros (Hp & Hl & Hlim & Hc & Hpos).
  unfold act.
  destruct (at_ self) as [|i|i|i|i|i j e|i e|v] eqn:Hat.
  - contradiction.
  - (* LoopHead *)
    unfold worker_step. rewrite Hat.
    destruct Hpos as [Hi [Hatt Hfail]]. rewrite Hl.
    destruct (i <? total)%nat eqn:Hlt.
    + apply Nat.ltb_lt in Hlt. unfold check_cancelled. rewrite Hc.
      steady_fields.
    + apply Nat.ltb_ge in Hlt. assert (i = total) by lia. subst i.
      steady_fields.
  - (* PauseGate *)
    unfold worker_step. rewrite Hat.
    destruct Hpos as [Hi [Hatt Hfail]]. rewrite Hl.
    destruct (paused self); steady_fields.
  - (* Waiting *)
    unfold worker_step. rewrite Hat.
    unfold steady. rewrite Hat. auto.
  - (* Woken *)
    unfold worker_step. rewrite Hat.
    destruct Hpos as [Hi [Hatt Hfail]]. rewrite Hl.
    steady_fields.
  - (* BatchStep *)
    destruct Hpos as [(Hki & Hij & Hje & Het & Hie) [Hatt Hfail]].
    destruct (j <? e)%nat eqn:Hlt.
    + apply Nat.ltb_lt in Hlt.
      pose proof (try_at_answer self j Hp Hl) as Hans.
      destruct (answer j) eqn:Haj.
      * destruct (successful_attempt_step File Reader env self i j e
                    Hat Hlt Hans)
          as (s' & Hstep & Hat' & Hatt' & _ & F1 & F2 & F3 & F4 & _).
        rewrite Hstep.
        unfold steady. rewrite Hat', F1, F2, F3, F4.
        repeat split; try assumption.
        exists j.
        split; [lia|]. split; [unfold candidate; now rewrite Hl|].
        split.
        { rewrite Hatt', Hatt, tests_snoc by lia.
          unfold candidate. now rewrite Hl, app_assoc. }
        split; [exact Haj|].
        intros j' Hj'. apply Hfail. lia.
      * destruct (failed_attempt_step File Reader env self i j e
                    Hat Hlt Hans)
          as (s' & Hstep & Hat' & _ & Hatt' & F1 & F2 & F3 & F4 & _).
        rewrite Hstep.
        unfold steady, tested_upto. rewrite Hat', F1, F2, F3, F4.
        repeat split; try assumption; try lia.
        { rewrite Hatt', Hatt, tests_snoc by lia.
          unfold candidate. now rewrite Hl, app_assoc. }
        intros j' Hj'.
        destruct (Nat.eq_dec j' j) as [->|Hne]; [exact Haj|].
        apply Hfail. lia.
    + unfold worker_step. rewrite Hat, Hlt.
      apply Nat.ltb_ge in Hlt. assert (j = e) by lia. subst j.
      steady_fields.
  - (* BatchEnd *)
    unfold worker_step. rewrite Hat.
    destruct Hpos as [(Hki & Hie & Het) [Hatt Hfail]].
    set (s1 := emit (progress_update (progress_of e (List.length (password_list self)))) self).
    assert (H1 : pdf_path s1 = path /\ password_list s1 = pl
                 /\ memory_limit_mb s1 = limit /\ cancelled s1 = false
                 /\ attempts s1 = attempts self).
    { unfold s1. cbn. auto. }
    destruct H1 as (G1 & G2 & G3 & G4 & G5).
    set (s2 := if (i mod 1000 =? 0)%nat
               then check_memory_usage (memory_at env i) s1 else s1).
    assert (H2 : pdf_path s2 = path /\ password_list s2 = pl
                 /\ memory_limit_mb s2 = limit /\ cancelled s2 = false
                 /\ attempts s2 = attempts self).
    { unfold s2. destruct (i mod 1000 =? 0)%nat; [|auto].
      destruct (calm_check i s1 G3) as (C1 & C2 & C3 & _ & C5 & _ & _ & C8).
      rewrite C1, C2, C3, C5, C8. auto. }
    destruct H2 as (K1 & K2 & K3 & K4 & K5).
    unfold steady, tested_upto. cbn. rewrite K1, K2, K3, K4, K5.
    repeat split; try reflexivity; try assumption; try lia.
  - (* Stopped *)
    unfold worker_step. rewrite Hat.
    unfold steady. rewrite Hat. auto.
Qed.

Lemma steady_act (a : action) (self : thread) :
  a <> Cancel -> steady self -> steady (act env a self).
Proof.
  intros Ha Hs. destruct a; try contradiction.
  - now apply steady_tick.
  - destruct Hs as (Hp & Hl & Hlim & Hc & Hpos).
    unfold act, pause. unfold steady, tested_upto in *. cbn.
    repeat split; try assumption.
  - destruct Hs as (Hp & Hl & Hlim & Hc & Hpos).
    unfold act, resume, wakeAll. cbn [set_flags at_].
    destruct (at_ self) eqn:Hat;
      unfold steady, tested_upto in *; cbn; rewrite ?Hat;
      repeat split; try assumption; try apply Hpos.
Qed.

Lemma steady_exec (schedule : list action) (self : thread) :
  ~ In Cancel schedule -> steady self -> steady (exec env schedule self).
Proof.
  revert self.
  induction schedule as [|a schedule IH]; intros self Hno Hs;
    cbn [exec fold_left].
  - exact Hs.
  - apply IH.
    + intro H. apply Hno. now right.
    + apply steady_act; [|exact Hs].
      intros ->. apply Hno. now left.
Qed.

(** What a steady worker has tested: the indices from [k] on, one after the
    other, each once, all failed but possibly the last. *)
Lemma steady_account (self : thread) :
  steady self ->
  exists n : nat,
    (k <= n <= total)%nat
    /\ attempts self = before ++ tests pl k n
    /\ (forall j, (k <= j)%nat -> (S j < n)%nat -> answer j = false)
    /\ (at_ self = Stopped NotFound ->
        n = total /\ forall j, (k <= j < total)%nat -> answer j = false)
    /\ (forall p, at_ self = Stopped (Found p) ->
        (k < n)%nat /\ p = nth (n - 1) pl EmptyString
        /\ answer (n - 1) = true)
    /\ at_ self <> Stopped Cancelled.
Proof.
  intros (Hp & Hl & Hlim & Hc & Hpos).
  destruct (at_ self) as [|i|i|i|i|i j e|i e|[p| |]] eqn:Hat.
  - contradiction.
  - destruct Hpos as [Hi [Hatt Hfail]]. exists i.
    repeat split; try assumption; try lia; try discriminate.
    intros j H1 H2. apply Hfail. lia.
  - destruct Hpos as [Hi [Hatt Hfail]]. exists i.
    repeat split; try assumption; try lia; try discriminate.
    intros j H1 H2. apply Hfail. lia.
  - destruct Hpos as [Hi [Hatt Hfail]]. exists i.
    repeat split; try assumption; try lia; try discriminate.
    intros j H1 H2. apply Hfail. lia.
  - destruct Hpos as [Hi [Hatt Hfail]]. exists i.
    repeat split; try assumption; try lia; try discriminate.
    intros j H1 H2. apply Hfail. lia.
  - destruct Hpos as [Hi [Hatt Hfail]]. exists j.
    repeat split; try assumption; try lia; try discriminate.
    intros j' H1 H2. apply Hfail. lia.
  - destruct Hpos as [Hi [Hatt Hfail]]. exists e.
    repeat split; try assumption; try lia; try discriminate.
    intros j' H1 H2. apply Hfail. lia.
  - destruct Hpos as (j & Hj & -> & Hatt & Hyes & Hfail). exists (S j).
    split; [lia|]. split; [exact Hatt|].
    split; [intros j' H1 H2; apply Hfail; lia|].
    split; [discriminate|].
    split; [|discriminate].
    intros p Hfound. injection Hfound as <-.
    replace (S j - 1)%nat with j by lia.
    split; [lia|]. split; [reflexivity | exact Hyes].
  - destruct Hpos as [Hk [Hatt Hfail]]. exists total.
    repeat split; try assumption; try lia; try discriminate.
    intros j H1 H2. apply Hfail. lia.
  - contradiction.
Qed.


(** ** The worker reaches the end of [run] *)

(** An upper bound on the steps that remain. *)
Definition distance (self : thread) : nat :=
  match at_ self with
  | NotStarted => 0
  | LoopHead i => 5 * (total - i) + 1
  | PauseGate i => 5 * (total - i)
  | Waiting i => 5 * (total - i)
  | Woken i => 5 * (total - i)
  | BatchStep i j end_batch => 5 * (total - end_batch) + 3 + (end_batch - j)
  | BatchEnd i end_batch => 5 * (total - end_batch) + 2
  | Stopped _ => 0
  end.

Definition runnable (self : thread) : Prop :=
  paused self = false /\ forall i, at_ self <> Waiting i.

Lemma tick_progress (self : thread) :
  steady self -> runnable self ->
  (forall v, at_ self <> Stopped v) ->
  (distance (act env Tick self) < distance self)%nat
  /\ runnable (act env Tick self).
Proof.
  intros (Hp & Hl & Hlim & Hc & Hpos) [Hpa Hnw] Hns.
  unfold act, distance, runnable.
  destruct (at_ self) as [|i|i|i|i|i j e|i e|v] eqn:Hat.
  - contradiction.
  - unfold worker_step. rewrite Hat, Hl.
    destruct Hpos as [Hi _].
    destruct (i <? total)%nat eqn:Hlt.
    + apply Nat.ltb_lt in Hlt. unfold check_cancelled. rewrite Hc. cbn.
      repeat split; [lia | assumption | discriminate].
    + cbn. repeat split; [lia | assumption | discriminate].
  - unfold worker_step. rewrite Hat, Hl, Hpa.
    destruct Hpos as [Hi _]. cbn.
    repeat split; [lia | assumption | discriminate].
  - exfalso. now apply (Hnw i).
  - unfold worker_step. rewrite Hat, Hl.
    destruct Hpos as [Hi _]. cbn.
    repeat split; [lia | assumption | discriminate].
  - destruct Hpos as [(Hki & Hij & Hje & Het & Hie) _].
    destruct (j <? e)%nat eqn:Hlt.
    + apply Nat.ltb_lt in Hlt.
      destruct (try_at env self j (candidate self j)) eqn:Htry.
      * destruct (successful_attempt_step File Reader env self i j e
                    Hat Hlt Htry)
          as (s' & Hstep & Hat' & _ & _ & _ & _ & _ & _ & Hpa').
        rewrite Hstep. cbv beta iota. rewrite Hat'.
        repeat split; [lia | congruence |].
        intros i'. discriminate.
      * destruct (failed_attempt_step File Reader env self i j e
                    Hat Hlt Htry)
          as (s' & Hstep & Hat' & _ & _ & _ & _ & _ & _ & Hpa').
        rewrite Hstep. cbv beta iota. rewrite Hat'.
        repeat split; [lia | congruence |].
        intros i'. discriminate.
    + unfold worker_step. rewrite Hat, Hlt. cbn.
      apply Nat.ltb_ge in Hlt.
      repeat split; [lia | assumption | discriminate].
  - unfold worker_step. rewrite Hat.
    set (s1 := emit (progress_update
                       (progress_of e (List.length (password_list self)))) self).
    assert (G : memory_limit_mb s1 = limit /\ paused s1 = false)
      by (unfold s1; cbn; auto).
    destruct G as [G3 G4].
    set (s2 := if (i mod 1000 =? 0)%nat
               then check_memory_usage (memory_at env i) s1 else s1).
    assert (K : paused s2 = false).
    { unfold s2. destruct (i mod 1000 =? 0)%nat; [|exact G4].
      destruct (calm_check i s1 G3) as (_ & _ & _ & C4 & _).
      now rewrite C4. }
    cbn. repeat split; [lia | exact K | discriminate].
  - exfalso. now apply (Hns v).
Qed.

Lemma run_to_stop (n : nat) (self : thread) :
  steady self -> runnable self -> (distance self <= n)%nat ->
  exists v, at_ (exec env (repeat Tick n) self) = Stopped v.
Proof.
  revert self.
  induction n as [|n IH]; intros self Hs Hr Hd.
  - destruct (at_ self) as [|i|i|i|i|i j e|i e|v] eqn:Hat;
      try (exfalso;
           assert (Hstop : forall v, at_ self <> Stopped v)
             by (intros v; rewrite Hat; discriminate);
           destruct (tick_progress self Hs Hr Hstop) as [Hlt _]; lia).
    exists v. exact Hat.
  - destruct (at_ self) as [|i|i|i|i|i j e|i e|v] eqn:Hat;
      try (assert (Hstop : forall v, at_ self <> Stopped v)
             by (intros v; rewrite Hat; discriminate);
           destruct (tick_progress self Hs Hr Hstop) as [Hlt Hr'];
           cbn [repeat exec fold_left];
           apply IH; [now apply steady_tick | exact Hr' | lia]).
    exists v. now apply (stopped_exec File Reader env).
Qed.


End Uncancelled_search.

Lemma answer_true {File Reader : Type} (env : surroundings File Reader)
  (self : thread) (j : nat) :
  answer File Reader env (pdf_path self) (password_list self) j = true
  <-> opens_with_password (library_at env j) (pdf_path self) (candidate self j).
Proof.
  rewrite <- (try_at_true File Reader env self j (candidate self j)).
  now rewrite (try_at_answer File Reader env (pdf_path self)
                 (password_list self) self j eq_refl eq_refl).
Qed.

(** A worker that waits at the pause gate with cursor [k] is steady, with
    nothing tested yet from [k] on. *)
Lemma waiting_is_steady {File Reader : Type} (env : surroundings File Reader)
  (self : thread) (k : nat) :
  at_ self = Waiting k ->
  (k < List.length (password_list self))%nat ->
  cancelled self = false ->
  steady File Reader env (pdf_path self) (password_list self)
    (memory_limit_mb self) k (attempts self) self.
Proof.
  intros Hat Hk Hc. unfold steady, tested_upto. rewrite Hat.
  repeat split; try assumption; try lia.
  unfold tests. rewrite Nat.sub_diag. cbn. now rewrite app_nil_r.
Qed.

(** C4. Let the worker wait at the pause gate with cursor [k], not cancelled,
    and let memory stay under the ceiling.  After [resume], and whatever
    further [pause] and [resume] calls are interleaved with the worker's
    steps, the attempts added to those made before the pause are those at
    the indices [k], [k + 1], ... in input order, each index once and none
    left out, up to the first candidate that opens the document; the worker
    is never stopped as cancelled, and when it stops without a match the
    indices run up to the end of the list.  Left to run, the worker does
    stop; and when no candidate from [k] on opens the document, it has then
    tested each of the candidates at [k, total) exactly once, in order. *)
Theorem resume_tests_the_rest_once :
  forall (File Reader : Type) (env : surroundings File Reader)
         (self : thread) (k : nat),
    at_ self = Waiting k ->
    current_position self = k ->
    (k < List.length (password_list self))%nat ->
    cancelled self = false ->
    calm env (memory_limit_mb self) ->
    (forall schedule,
        ~ In Cancel schedule ->
        exists n : nat,
          (k <= n <= List.length (password_list self))%nat
          /\ attempts (exec env (Resume :: schedule) self)
             = attempts self ++ tests (password_list self) k n
          /\ (forall j, (k <= j)%nat -> (S j < n)%nat ->
                ~ opens_with_password (library_at env j) (pdf_path self)
                    (candidate self j))
          /\ (at_ (exec env (Resume :: schedule) self) = Stopped NotFound ->
              n = List.length (password_list self))
          /\ (forall p,
                at_ (exec env (Resume :: schedule) self) = Stopped (Found p) ->
                (k < n)%nat /\ p = candidate self (n - 1)
                /\ opens_with_password (library_at env (n - 1))
                     (pdf_path self) (candidate self (n - 1)))
          /\ at_ (exec env (Resume :: schedule) self) <> Stopped Cancelled)
    /\ (exists v,
           at_ (exec env
                  (Resume :: repeat Tick (5 * List.length (password_list self)))
                  self) = Stopped v)
    /\ ((forall j, (k <= j < List.length (password_list self))%nat ->
           ~ opens_with_password (library_at env j) (pdf_path self)
               (candidate self j)) ->
        at_ (exec env
               (Resume :: repeat Tick (5 * List.length (password_list self)))
               self) = Stopped NotFound
        /\ attempts
             (exec env
                (Resume :: repeat Tick (5 * List.length (password_list self)))
                self)
           = attempts self
             ++ tests (password_list self) k (List.length (password_list self))).
Proof.
  intros File Reader env self k Hat Hcur Hk Hc Hcalm.
  pose proof (waiting_is_steady env self k Hat Hk Hc) as Hs.
  set (st := steady File Reader env (pdf_path self) (password_list self)
               (memory_limit_mb self) k (attempts self)) in *.
  assert (Hsched : forall schedule, ~ In Cancel schedule ->
            st (exec env (Resume :: schedule) self)).
  { intros schedule Hno.
    apply (steady_exec File Reader env _ _ _ _ _ Hcalm); [|exact Hs].
    intros [H|H]; [discriminate H | now apply Hno]. }
  assert (Hresumed : runnable (act env Resume self)
                     /\ (distance (password_list self) (act env Resume self)
                         <= 5 * List.length (password_list self))%nat).
  { unfold runnable, distance, act, resume, wakeAll.
    cbn [set_flags at_]. rewrite Hat. cbn.
    repeat split; [discriminate | lia]. }
  destruct Hresumed as [Hrun Hdist].
  assert (Hstop : exists v,
            at_ (exec env
                   (Resume :: repeat Tick (5 * List.length (password_list self)))
                   self) = Stopped v).
  { cbn [exec fold_left].
    apply (run_to_stop File Reader env (pdf_path self) (password_list self)
             (memory_limit_mb self) k (attempts self) Hcalm); try assumption.
    apply (steady_act File Reader env _ _ _ _ _ Hcalm); [discriminate | exact Hs]. }
  split; [|split; [exact Hstop|]].
  - intros schedule Hno.
    destruct (steady_account File Reader env _ _ _ _ _ _ (Hsched schedule Hno))
      as (n & Hn & Hatt & Hfail & Hnf & Hfound & Hnc).
    exists n. split; [exact Hn|]. split; [exact Hatt|].
    split.
    { intros j H1 H2 Hopen. apply (answer_true env self j) in Hopen.
      rewrite (Hfail j H1 H2) in Hopen. discriminate. }
    split; [intro H; now apply Hnf|].
    split; [|exact Hnc].
    intros p Hp. destruct (Hfound p Hp) as (H1 & H2 & H3).
    split; [exact H1|]. split; [exact H2|].
    now apply (answer_true env self (n - 1)%nat).
  - intros Hnone.
    assert (Hno : ~ In Cancel (repeat Tick (5 * List.length (password_list self)))).
    { intro H. apply repeat_spec in H. discriminate. }
    destruct (steady_account File Reader env _ _ _ _ _ _ (Hsched _ Hno))
      as (n & Hn & Hatt & _ & Hnf & Hfound & Hnc).
    destruct Hstop as [[p| |] Hv].
    + exfalso. destruct (Hfound p Hv) as (H1 & _ & H3).
      apply (answer_true env self (n - 1)%nat) in H3.
      apply (Hnone (n - 1)%nat); [lia | exact H3].
    + split; [exact Hv|]. destruct (Hnf Hv) as [-> _]. exact Hatt.
    + now exfalso.
Qed.

(** A search over the 110 digit strings of lengths 1 and 2, paused after the
    first batch: the worker runs through the batch of 100, [pause] is
    called, and the worker then blocks at the gate with cursor 100. *)
Definition digit_candidates : list string :=
  generate_passwords (password_generator.init 1 2 false false true false false)
    no_callbacks tt.

Definition paused_after_first_batch : thread :=
  exec unreadable_surroundings
    (repeat Tick 103 ++ [Pause; Tick; Tick; Tick])
    (start (init "document.pdf" digit_candidates 1000)).

Lemma unreadable_surroundings_calm (limit : Z) :
  calm unreadable_surroundings limit.
Proof. intros i bytes H. discriminate H. Defined.

(** An instance of C4: resumed at cursor 100, the worker tests the
    candidates 100 to 109 and stops without a match. *)
Lemma resume_tests_the_rest_once_witness :
  at_ paused_after_first_batch = Waiting 100
  /\ current_position paused_after_first_batch = 100%nat
  /\ (100 < List.length (password_list paused_after_first_batch))%nat
  /\ cancelled paused_after_first_batch = false
  /\ calm unreadable_surroundings
       (memory_limit_mb paused_after_first_batch)
  /\ at_ (exec unreadable_surroundings
            (Resume
             :: repeat Tick
                  (5 * List.length (password_list paused_after_first_batch)))
            paused_after_first_batch) = Stopped NotFound
  /\ attempts
       (exec unreadable_surroundings
          (Resume
           :: repeat Tick
                (5 * List.length (password_list paused_after_first_batch)))
          paused_after_first_batch)
     = attempts paused_after_first_batch
       ++ tests (password_list paused_after_first_batch) 100
            (List.length (password_list paused_after_first_batch)).
Proof.
  assert (H1 : at_ paused_after_first_batch = Waiting 100)
    by (vm_compute; reflexivity).
  assert (H2 : current_position paused_after_first_batch = 100%nat)
    by (vm_compute; reflexivity).
  assert (H3 : (100 < List.length (password_list paused_after_first_batch))%nat)
    by (vm_compute; repeat constructor).
  assert (H4 : cancelled paused_after_first_batch = false)
    by (vm_compute; reflexivity).
  split; [exact H1|]. split; [exact H2|]. split; [exact H3|].
  split; [exact H4|].
  split; [apply unreadable_surroundings_calm|].
  exact (proj2 (proj2 (resume_tests_the_rest_once unit unit
                         unreadable_surroundings paused_after_first_batch 100
                         H1 H2 H3 H4
                         (unreadable_surroundings_calm _)))
           (fun j _ => unreadable_library_never_opens _ _)).
Defined.

(** ** The end of a successful search *)

Import PDFPasswordRecoveryApp.

(** An encrypted document that [secret] opens. *)
Definition locked_library (secret : string) : pdf_library unit unit :=
  {| open_rb := fun _ => Ok tt;
     close := fun _ => Ok tt;
     PdfReader := fun _ => Ok tt;
     is_encrypted := fun _ => Ok true;
     decrypt := fun _ password => Ok (if String.eqb password secret then 1 else 0) |}.

Definition locked_surroundings (secret : string) : surroundings unit unit :=
  {| library_at := fun _ => locked_library secret;
     memory_at := fun _ => NoPsutil |}.

Lemma locked_library_opens (secret path : string) :
  opens_with_password (locked_library secret) path secret.
Proof.
  exists tt, tt. split; [reflexivity|]. split; [reflexivity|].
  split; [now exists tt|]. right. split; [reflexivity|].
  exists 1. cbn. rewrite String.eqb_refl. split; [reflexivity | discriminate].
Defined.

(** A search of three candidates for a document that the second one opens,
    run to its end. *)
Definition search_found_second : thread :=
  exec (locked_surroundings "b") (repeat Tick 10)
    (start (init "document.pdf" ["a"; "b"; "c"]%string 1000)).

(** C3, as stated, fails: the worker stops at the candidate that opens the
    document and tests nothing after it, but the signals it has emitted hold
    no progress value at all, let alone a final 100. *)
Lemma found_without_final_progress :
  at_ search_found_second = Stopped (Found "b")
  /\ attempts search_found_second = [(0%nat, "a"%string); (1%nat, "b"%string)]
  /\ emitted search_found_second
     = [current_password_update "a"; password_found "b"]
  /\ existsb (fun s => match s with
                       | progress_update _ => true
                       | _ => false
                       end) (emitted search_found_second) = false.
Proof. vm_compute. repeat split; reflexivity. Qed.

Lemma deliver_all_app (xs ys : list signal) (w : window) :
  deliver_all (xs ++ ys) w = deliver_all ys (deliver_all xs w).
Proof. apply fold_left_app. Qed.

(** C3, amended.  When the candidate the worker is about to try opens the
    document, the worker's next step records the attempt, emits
    [password_found] with that candidate and ends [run] in the found state;
    the only signal that may precede it in this step is the sampled
    [current_password_update], so no progress value is emitted.  Nothing
    that happens afterwards adds an attempt or a signal.  The displayed
    progress is 100 once the observer has handled the signals, through its
    [on_password_found] handler. *)
Theorem success_stops_the_search :
  forall (File Reader : Type) (env : surroundings File Reader)
         (self : thread) (i j end_batch : nat),
    at_ self = BatchStep i j end_batch ->
    (j < end_batch)%nat ->
    opens_with_password (library_at env j) (pdf_path self) (candidate self j) ->
    at_ (act env Tick self) = Stopped (Found (candidate self j))
    /\ attempts (act env Tick self) = attempts self ++ [(j, candidate self j)]
    /\ emitted (act env Tick self)
       = emitted self
         ++ (if (j mod 10 =? 0)%nat
             then [current_password_update (candidate self j)] else [])
         ++ [password_found (candidate self j)]
    /\ (forall schedule,
           at_ (exec env schedule (act env Tick self))
           = Stopped (Found (candidate self j))
           /\ attempts (exec env schedule (act env Tick self))
              = attempts (act env Tick self)
           /\ emitted (exec env schedule (act env Tick self))
              = emitted (act env Tick self))
    /\ (forall w,
           progress_bar (deliver_all (emitted (act env Tick self)) w) = 100).
Proof.
  intros File Reader env self i j end_batch Hat Hj Hopen.
  apply (try_at_true File Reader env self j) in Hopen.
  destruct (successful_attempt_step File Reader env self i j end_batch
              Hat Hj Hopen) as (s' & Hstep & Hat' & Hatt' & Hem' & _).
  unfold act at 1 2 3. rewrite Hstep.
  split; [exact Hat'|]. split; [exact Hatt'|]. split; [exact Hem'|].
  assert (Hact : act env Tick self = s') by (unfold act; now rewrite Hstep).
  rewrite Hact.
  split.
  - intro schedule. now apply (stopped_exec File Reader env).
  - intro w. rewrite Hem', app_assoc, deliver_all_app. reflexivity.
Qed.

(** An instance of C3: the first candidate opens the document. *)
Lemma success_stops_the_search_witness :
  at_ worker_in_first_batch = BatchStep 0 0 2
  /\ (0 < 2)%nat
  /\ opens_with_password (locked_library "a") "document.pdf" "a"
  /\ at_ (act (locked_surroundings "a") Tick worker_in_first_batch)
     = Stopped (Found "a")
  /\ emitted (act (locked_surroundings "a") Tick worker_in_first_batch)
     = [current_password_update "a"; password_found "a"].
Proof.
  split; [reflexivity|]. split; [lia|].
  split; [apply locked_library_opens|].
  pose proof (success_stops_the_search unit unit (locked_surroundings "a")
                worker_in_first_batch 0 0 2 eq_refl
                (le_n_S _ _ (le_S _ _ (le_n 0)))
                (locked_library_opens "a" "document.pdf"))
    as (H1 & _ & H3 & _).
  split; [exact H1 | exact H3].
Defined.

(** ** Cancelling a paused worker *)

Section Cancelled_search.

Variables File Reader : Type.
Variable env : surroundings File Reader.

(** After a [cancel] the worker never reaches the pause gate again. *)
Definition past_the_gate (self : thread) : Prop :=
  cancelled self = true
  /\ match at_ self with
     | NotStarted => False
     | PauseGate _ => False
     | Waiting _ => False
     | _ => True
     end.

(** The worker's own steps that remain, at most, once it is cancelled. *)
Definition steps_left (self : thread) : nat :=
  match at_ self with
  | NotStarted => 0
  | LoopHead _ => 1
  | PauseGate _ => 0
  | Waiting _ => 0
  | Woken i =>
      Nat.min (i + 100) (List.length (password_list self)) - i + 4
  | BatchStep _ j end_batch => end_batch - j + 3
  | BatchEnd _ _ => 2
  | Stopped _ => 0
  end.

Lemma check_memory_usage_position (reading : memory_reading) (self : thread) :
  (forall i, at_ self <> Waiting i) ->
  at_ (check_memory_usage reading self) = at_ self
  /\ (cancelled self = true ->
      cancelled (check_memory_usage reading self) = true)
  /\ password_list (check_memory_usage reading self) = password_list self.
Proof.
  intro Hnw.
  destruct self as [pa li lim pau can cur pos em att].
  cbn [at_] in Hnw.
  destruct reading as [|bytes|]; [repeat split; auto| |repeat split; auto].
  unfold check_memory_usage. cbv zeta. cbn [memory_limit_mb].
  repeat match goal with
         | |- context [if ?c then _ else _] =>
             destruct c; cbn [emit memory_limit_mb]
         end;
    unfold cancel, wakeAll; cbn;
    destruct pos; cbn; repeat split; auto;
    exfalso; eapply Hnw; reflexivity.
Qed.

Lemma cancelled_tick (self : thread) :
  past_the_gate self ->
  past_the_gate (act env Tick self)
  /\ ((forall v, at_ self <> Stopped v) ->
      (steps_left (act env Tick self) < steps_left self)%nat).
Proof.
  intros [Hc Hpos]. unfold act, past_the_gate, steps_left.
  destruct (at_ self) as [|i|i|i|i|i j e|i e|v] eqn:Hat; try contradiction.
  - unfold worker_step. rewrite Hat. unfold check_cancelled. rewrite Hc.
    destruct (i <? List.length (password_list self))%nat; cbn;
      repeat split; auto.
  - unfold worker_step. rewrite Hat. cbn. repeat split; auto. intros _. lia.
  - destruct (j <? e)%nat eqn:Hlt.
    + apply Nat.ltb_lt in Hlt.
      destruct (try_at env self j (candidate self j)) eqn:Htry.
      * destruct (successful_attempt_step File Reader env self i j e
                    Hat Hlt Htry)
          as (s' & Hstep & Hat' & _ & _ & _ & _ & _ & Hc' & _).
        rewrite Hstep. cbv beta iota. rewrite Hat', Hc', Hc.
        repeat split; auto. intros _. lia.
      * destruct (failed_attempt_step File Reader env self i j e
                    Hat Hlt Htry)
          as (s' & Hstep & Hat' & _ & _ & _ & _ & _ & Hc' & _).
        rewrite Hstep. cbv beta iota. rewrite Hat', Hc', Hc.
        repeat split; auto. intros _. lia.
    + unfold worker_step. rewrite Hat, Hlt. cbn.
      repeat split; auto. intros _. lia.
  - unfold worker_step. rewrite Hat.
    set (s1 := emit (progress_update
                       (progress_of e (List.length (password_list self)))) self).
    assert (G : cancelled s1 = true /\ forall i', at_ s1 <> Waiting i').
    { unfold s1. cbn. split; [exact Hc|]. rewrite Hat. discriminate. }
    destruct G as [G1 G2].
    set (s2 := if (i mod 1000 =? 0)%nat
               then check_memory_usage (memory_at env i) s1 else s1).
    assert (K : cancelled s2 = true).
    { unfold s2. destruct (i mod 1000 =? 0)%nat; [|exact G1].
      now apply check_memory_usage_position. }
    cbn. rewrite K. repeat split; auto.
  - unfold worker_step. rewrite Hat. rewrite Hat, Hc.
    split; [auto|]. intro Hns. exfalso. now apply (Hns v).
Qed.

Lemma cancelled_control (a : action) (self : thread) :
  a <> Tick -> past_the_gate self ->
  past_the_gate (act env a self)
  /\ steps_left (act env a self) = steps_left self.
Proof.
  intros Ha [Hc Hpos]. unfold past_the_gate, steps_left.
  destruct a; try contradiction;
    unfold act, pause, resume, cancel, wakeAll; cbn [set_flags at_];
    destruct (at_ self) eqn:Hat; try contradiction; cbn; rewrite ?Hat;
    auto.
Qed.

(** Counting the worker's own steps in a schedule. *)
Definition ticks (schedule : list action) : nat :=
  List.length (filter (fun a => match a with Tick => true | _ => false end)
                 schedule).

Lemma cancelled_run_stops (schedule : list action) (self : thread) :
  past_the_gate self ->
  (steps_left self <= ticks schedule)%nat ->
  exists v, at_ (exec env schedule self) = Stopped v.
Proof.
  revert self.
  induction schedule as [|a schedule IH]; intros self Hg Hn.
  - cbn [exec fold_left].
    unfold steps_left, ticks in Hn. cbn [filter List.length] in Hn.
    destruct Hg as [_ Hg].
    remember (at_ self) as p eqn:Hat.
    destruct p as [|i|i|i|i|i j e|i e|v]; try contradiction; try lia.
    now exists v.
  - cbn [exec fold_left]. fold (exec env schedule (act env a self)).
    destruct a.
    + destruct (cancelled_tick self Hg) as [Hg' Hlt].
      unfold ticks in Hn |- *. cbn [filter List.length] in Hn.
      destruct (at_ self) as [|i|i|i|i|i j e|i e|v] eqn:Hat;
        try (apply IH; [exact Hg'|];
             assert (Hless := Hlt ltac:(intros ?; discriminate));
             unfold ticks; lia).
      exists v.
      destruct (stopped_act File Reader env Tick self v Hat) as [Hstill _].
      exact (proj1 (stopped_exec File Reader env schedule _ v Hstill)).
    + destruct (cancelled_control Pause self ltac:(discriminate) Hg) as [Hg' He].
      apply IH; [exact Hg'|]. rewrite He. exact Hn.
    + destruct (cancelled_control Resume self ltac:(discriminate) Hg) as [Hg' He].
      apply IH; [exact Hg'|]. rewrite He. exact Hn.
    + destruct (cancelled_control Cancel self ltac:(discriminate) Hg) as [Hg' He].
      apply IH; [exact Hg'|]. rewrite He. exact Hn.
Qed.

(** The part of C9 the code does deliver: [cancel] wakes a worker that
    waits at the pause gate, and the worker then leaves [run] within 104 of
    its own steps, whatever the controlling thread calls in between. *)
Lemma cancel_releases_paused_worker (schedule : list action) (self : thread)
  (k : nat) :
  at_ self = Waiting k ->
  (104 <= ticks schedule)%nat ->
  at_ (act env Cancel self) = Woken k
  /\ exists v, at_ (exec env (Cancel :: schedule) self) = Stopped v.
Proof.
  intros Hat Hn.
  assert (Hw : at_ (act env Cancel self) = Woken k).
  { unfold act, cancel, wakeAll. cbn [set_flags at_]. now rewrite Hat. }
  split; [exact Hw|].
  cbn [exec fold_left]. fold (exec env schedule (act env Cancel self)).
  apply cancelled_run_stops.
  - split.
    + unfold act, cancel, wakeAll. cbn [set_flags at_]. now rewrite Hat.
    + now rewrite Hw.
  - unfold steps_left. rewrite Hw. lia.
Qed.

End Cancelled_search.

(** A search of one candidate: [pause] is called before the worker reaches
    the gate, the worker blocks there, [cancel] is called, and the worker is
    left to run. *)
Definition cancelled_while_paused (secret : string) : thread :=
  exec (locked_surroundings secret)
    ([Pause; Tick; Tick; Cancel] ++ repeat Tick 10)
    (start (init "document.pdf" ["a"%string] 1000)).

(** C9 on the code.  The worker blocked at the pause gate is woken by
    [cancel], but it does not look at the cancellation before it runs the
    batch it was about to run: with one candidate that opens the document it
    ends by emitting [password_found], and with one that does not it ends by
    emitting [password_not_found]; in neither run does [run] end by the
    bare return of a cancelled search. *)
Theorem cancel_while_paused_still_runs_a_batch :
  at_ (exec (locked_surroundings "a") [Pause; Tick; Tick]
         (start (init "document.pdf" ["a"%string] 1000))) = Waiting 0
  /\ cancelled (cancelled_while_paused "a") = true
  /\ at_ (cancelled_while_paused "a") = Stopped (Found "a")
  /\ emitted (cancelled_while_paused "a")
     = [current_password_update "a"; password_found "a"]
  /\ cancelled (cancelled_while_paused "z") = true
  /\ at_ (cancelled_while_paused "z") = Stopped NotFound
  /\ emitted (cancelled_while_paused "z")
     = [current_password_update "a"; progress_update 100; password_not_found].
Proof. vm_compute. repeat split; reflexivity. Qed.

(** * Further properties of the document check *)

Section Validation.

Variables File Reader : Type.
Variable lib : pdf_library File Reader.
Variable path_exists : string -> bool.
Variable pdf_path : string.

(** The file exists, opens, parses as an encrypted document and closes. *)
Definition valid_encrypted_pdf : Prop :=
  path_exists pdf_path = true
  /\ exists file reader,
       open_rb lib pdf_path = Ok file
       /\ PdfReader lib file = Ok reader
       /\ is_encrypted lib reader = Ok true
       /\ close lib file = Ok tt.

Lemma validate_pdf_accepts :
  fst (validate_pdf lib path_exists pdf_path) = true ->
  valid_encrypted_pdf
  /\ validate_pdf lib path_exists pdf_path
     = (true, "Valid password-protected PDF"%string).
Proof.
  unfold validate_pdf, validate_pdf_attempt, with_open, valid_encrypted_pdf,
    bind.
  destruct (path_exists pdf_path); cbn [negb]; [|discriminate].
  destruct (open_rb lib pdf_path) as [file|e] eqn:Ho; [|discriminate].
  destruct (PdfReader lib file) as [reader|e] eqn:Hr.
  2:{ destruct (close lib file); discriminate. }
  destruct (is_encrypted lib reader) as [enc|e] eqn:He.
  2:{ destruct (close lib file); discriminate. }
  destruct enc; cbn [negb];
    destruct (close lib file) as [[]|e] eqn:Hc; try discriminate.
  intros _. split; [|reflexivity].
  split; [reflexivity|]. exists file, reader. auto.
Qed.

Lemma valid_encrypted_pdf_accepted :
  valid_encrypted_pdf ->
  validate_pdf lib path_exists pdf_path
  = (true, "Valid password-protected PDF"%string).
Proof.
  intros (Hex & file & reader & Ho & Hr & He & Hc).
  unfold validate_pdf, validate_pdf_attempt, with_open, bind.
  now rewrite Hex, Ho, Hr, He, Hc.
Qed.

End Validation.

Arguments valid_encrypted_pdf {File Reader} lib path_exists pdf_path.

(** An instance for the theorems on [validate_pdf]: every path exists. *)
Definition every_path_exists (path : string) : bool := true.

(** X6. [validate_pdf] answers [(True, "Valid password-protected PDF")]
    exactly when the file exists, [open] succeeds, [PdfReader] accepts the
    file, [is_encrypted] is true and the file closes without an error; in
    every other case its first component is [False]. *)
Theorem validate_pdf_accepts_encrypted_documents_only :
  forall (File Reader : Type) (lib : pdf_library File Reader)
         (path_exists : string -> bool) (pdf_path : string),
    (fst (validate_pdf lib path_exists pdf_path) = true
     <-> valid_encrypted_pdf lib path_exists pdf_path)
    /\ (validate_pdf lib path_exists pdf_path
        = (true, "Valid password-protected PDF"%string)
        \/ fst (validate_pdf lib path_exists pdf_path) = false).
Proof.
  intros File Reader lib path_exists pdf_path.
  split.
  - split.
    + intro H. now apply validate_pdf_accepts.
    + intro H.
      now rewrite (valid_encrypted_pdf_accepted File Reader lib path_exists
                     pdf_path H).
  - destruct (fst (validate_pdf lib path_exists pdf_path)) eqn:Hv;
      [left | now right].
    now apply validate_pdf_accepts.
Qed.

(** X7. For a document that [validate_pdf] accepts, [try_password] answers
    [True] exactly for the passwords for which [decrypt] returns a value
    that counts as true: the branch in which [try_password] accepts every
    password, that of a document that is not encrypted, is excluded. *)
Theorem validated_document_needs_its_password :
  forall (File Reader : Type) (lib : pdf_library File Reader)
         (path_exists : string -> bool) (pdf_path password : string),
    fst (validate_pdf lib path_exists pdf_path) = true ->
    (fst (try_password lib pdf_path password) = Ok true
     <-> exists file reader v,
           open_rb lib pdf_path = Ok file
           /\ PdfReader lib file = Ok reader
           /\ decrypt lib reader password = Ok v
           /\ v <> 0).
Proof.
  intros File Reader lib path_exists pdf_path password Hvalid.
  destruct (validate_pdf_accepts File Reader lib path_exists pdf_path Hvalid)
    as [(_ & file & reader & Ho & Hr & He & Hc) _].
  rewrite try_password_total.
  assert (Hiff : try_password_attempt lib pdf_path password = Ok true
                 <-> opens_with_password lib pdf_path password)
    by apply try_password_attempt_true.
  split.
  - intro H.
    assert (Hok : try_password_attempt lib pdf_path password = Ok true).
    { destruct (try_password_attempt lib pdf_path password) as [[|]|e];
        [reflexivity | discriminate H | discriminate H]. }
    apply Hiff in Hok.
    destruct Hok as (file' & reader' & Ho' & Hr' & _ & Hcase).
    rewrite Ho in Ho'. injection Ho' as <-.
    rewrite Hr in Hr'. injection Hr' as <-.
    destruct Hcase as [Hno|(_ & v & Hd & Hv)]; [congruence|].
    now exists file, reader, v.
  - intros (file' & reader' & v & Ho' & Hr' & Hd & Hv).
    rewrite Ho in Ho'. injection Ho' as <-.
    rewrite Hr in Hr'. injection Hr' as <-.
    rewrite (proj2 Hiff); [reflexivity|].
    exists file, reader. split; [exact Ho|]. split; [exact Hr|].
    split; [now exists tt|]. right. split; [exact He|]. now exists v.
Qed.

(** An instance of X7: the document that [secret] opens. *)
Lemma validated_document_needs_its_password_witness :
  fst (validate_pdf (locked_library "secret") every_path_exists "document.pdf")
  = true
  /\ (fst (try_password (locked_library "secret") "document.pdf" "secret")
      = Ok true
      <-> exists (file reader : unit) (v : Z),
            open_rb (locked_library "secret") "document.pdf" = Ok file
            /\ PdfReader (locked_library "secret") file = Ok reader
            /\ decrypt (locked_library "secret") reader "secret" = Ok v
            /\ v <> 0).
Proof.
  split; [reflexivity|].
  apply (validated_document_needs_its_password unit unit
           (locked_library "secret") every_path_exists "document.pdf" "secret").
  reflexivity.
Defined.

(** * Further properties of the search worker *)

(** The two signals that end a search. *)
Definition final_signal (s : signal) : bool :=
  match s with
  | password_found _ => true
  | password_not_found => true
  | _ => false
  end.

(** Signals among which no search has ended. *)
Definition quiet (signals : list signal) : Prop :=
  Forall (fun s => final_signal s = false) signals.

Lemma quiet_app (xs ys : list signal) :
  quiet xs -> quiet ys -> quiet (xs ++ ys).
Proof. intros Hx Hy. apply Forall_app. now split. Qed.

Lemma quiet_not_in (xs : list signal) (s : signal) :
  quiet xs -> final_signal s = true -> ~ In s xs.
Proof.
  intros Hq Hs Hin. unfold quiet in Hq. rewrite Forall_forall in Hq.
  specialize (Hq s Hin). congruence.
Qed.

Lemma check_memory_usage_frame (reading : memory_reading) (self : thread) :
  pdf_path (check_memory_usage reading self) = pdf_path self
  /\ password_list (check_memory_usage reading self) = password_list self
  /\ attempts (check_memory_usage reading self) = attempts self
  /\ (cancelled self = true ->
      cancelled (check_memory_usage reading self) = true)
  /\ ((forall i, at_ self <> Waiting i) ->
      at_ (check_memory_usage reading self) = at_ self)
  /\ exists extra,
       emitted (check_memory_usage reading self) = emitted self ++ extra
       /\ quiet extra.
Proof.
  destruct self as [pa li lim pau can cur pos em att].
  destruct reading as [|bytes|]; cbn [check_memory_usage];
    try (repeat split; auto; exists []; split;
         [now rewrite app_nil_r | constructor]).
  cbv zeta.
  assert (Hextra : forall c : bool,
            exists extra,
              emitted (if c
                       then emit (memory_warning (memory_mb_of bytes))
                              {| pdf_path := pa; password_list := li;
                                 memory_limit_mb := lim; paused := pau;
                                 cancelled := can; current_position := cur;
                                 at_ := pos; emitted := em; attempts := att |}
                       else {| pdf_path := pa; password_list := li;
                               memory_limit_mb := lim; paused := pau;
                               cancelled := can; current_position := cur;
                               at_ := pos; emitted := em; attempts := att |})
              = em ++ extra /\ quiet extra).
  { intros [|]; cbn.
    - exists [memory_warning (memory_mb_of bytes)].
      split; [reflexivity | repeat constructor].
    - exists []. split; [now rewrite app_nil_r | constructor]. }
  cbn [memory_limit_mb emitted].
  match goal with
  | |- context [if ?c then emit _ _ else _] =>
      specialize (Hextra c); destruct c
  end;
    cbn [emit memory_limit_mb pdf_path password_list paused cancelled
         current_position at_ emitted attempts] in *;
    match goal with
    | |- context [if ?c then cancel _ else _] => destruct c
    end;
    unfold cancel, wakeAll, set_flags;
    cbn [pdf_path password_list memory_limit_mb paused cancelled
         current_position at_ emitted attempts];
    (split; [now destruct pos|]); (split; [now destruct pos|]);
    (split; [now destruct pos|]); (split; [now destruct pos|]);
    (split;
     [intro Hnw; cbn [at_] in Hnw; destruct pos; cbn; try reflexivity;
      exfalso; eapply Hnw; reflexivity|]);
    destruct Hextra as (extra & Hem & Hq); exists extra;
    (split; [destruct pos; exact Hem | exact Hq]).
Qed.

Section Protocol.

Variables File Reader : Type.
Variable env : surroundings File Reader.
Variable path : string.
Variable pl : list string.

Local Notation "'total'" := (List.length pl).

(** What holds of the worker wherever it stands, whatever the controlling
    thread calls: batches are at most 100 candidates long, a search ends
    with one final signal, and [password_found] carries a candidate that
    [try_password] accepted. *)
Definition orderly (self : thread) : Prop :=
  pdf_path self = path
  /\ password_list self = pl
  /\ match at_ self with
     | BatchStep i j end_batch =>
         (i <= j /\ end_batch <= i + 100 /\ end_batch <= total)%nat
         /\ quiet (emitted self)
     | Stopped (Found p) =>
         exists j pre,
           (j < total)%nat
           /\ p = nth j pl EmptyString
           /\ opens_with_password (library_at env j) path p
           /\ emitted self = pre ++ [password_found p]
           /\ quiet pre
     | Stopped NotFound =>
         exists pre,
           emitted self = pre ++ [password_not_found] /\ quiet pre
     | _ => quiet (emitted self)
     end.

Lemma orderly_control (a : action) (self : thread) :
  a <> Tick -> orderly self -> orderly (act env a self).
Proof.
  intros Ha (Hp & Hl & Hpos).
  destruct self as [pa li lim pau can cur pos em att].
  cbn [pdf_path password_list at_ emitted] in *.
  destruct a; try contradiction;
    unfold orderly, act, pause, resume, cancel, wakeAll, set_flags;
    cbn [pdf_path password_list memory_limit_mb paused cancelled
         current_position at_ emitted attempts];
    destruct pos; cbn; auto.
Qed.

Lemma orderly_tick (self : thread) :
  orderly self -> orderly (act env Tick self).
Proof.
  intros (Hp & Hl & Hpos).
  unfold act.
  destruct (at_ self) as [|i|i|i|i|i j e|i e|v] eqn:Hat.
  - unfold worker_step. rewrite Hat. unfold orderly. now rewrite Hat.
  - unfold worker_step. rewrite Hat, Hl.
    destruct (i <? total)%nat.
    + destruct (check_cancelled self); unfold orderly; cbn; auto.
    + unfold orderly. cbn. split; [exact Hp|]. split; [exact Hl|].
      now exists (emitted self).
  - unfold worker_step. rewrite Hat, Hl.
    destruct (paused self); unfold orderly; cbn; repeat split; auto; lia.
  - unfold worker_step. rewrite Hat. unfold orderly. now rewrite Hat.
  - unfold worker_step. rewrite Hat, Hl.
    unfold orderly; cbn; repeat split; auto; lia.
  - destruct Hpos as [(Hij & He & Het) Hq].
    destruct (j <? e)%nat eqn:Hlt.
    + apply Nat.ltb_lt in Hlt.
      destruct (try_at env self j (candidate self j)) eqn:Htry.
      * destruct (successful_attempt_step File Reader env self i j e
                    Hat Hlt Htry)
          as (s' & Hstep & Hat' & _ & Hem & Hp' & Hl' & _).
        rewrite Hstep. unfold orderly. rewrite Hat', Hp', Hl'.
        split; [exact Hp|]. split; [exact Hl|].
        exists j.
        exists (emitted self
                ++ (if (j mod 10 =? 0)%nat
                    then [current_password_update (candidate self j)]
                    else [])).
        split; [lia|].
        split; [unfold candidate; now rewrite Hl|].
        split; [rewrite <- Hp; now apply try_at_true|].
        split; [now rewrite Hem, app_assoc|].
        apply quiet_app; [exact Hq|].
        destruct (j mod 10 =? 0)%nat; repeat constructor.
      * unfold worker_step. rewrite Hat.
        rewrite (proj2 (Nat.ltb_lt _ _) Hlt). cbv zeta.
        fold (candidate self j).
        set (s1 := if (j mod 10 =? 0)%nat
                   then emit (current_password_update (candidate self j)) self
                   else self).
        assert (Hsame : try_at env (record_attempt j (candidate self j) s1) j
                          (candidate self j)
                        = try_at env self j (candidate self j)).
        { unfold s1. now destruct (j mod 10 =? 0)%nat. }
        rewrite Hsame, Htry.
        unfold orderly, s1.
        destruct (j mod 10 =? 0)%nat; cbn;
          (split; [exact Hp|]); (split; [exact Hl|]);
          (split; [lia|]); [|exact Hq].
        apply quiet_app; [exact Hq | repeat constructor].
    + unfold worker_step. rewrite Hat, Hlt. unfold orderly. cbn. auto.
  - unfold worker_step. rewrite Hat. cbv zeta.
    set (s1 := emit _ self).
    assert (H1 : pdf_path s1 = path /\ password_list s1 = pl
                 /\ quiet (emitted s1) /\ forall i', at_ s1 <> Waiting i').
    { unfold s1. cbn. repeat split; auto.
      - apply quiet_app; [exact Hpos | repeat constructor].
      - rewrite Hat. discriminate. }
    destruct H1 as (Hp1 & Hl1 & Hq1 & Hw1).
    set (s2 := if (i mod 1000 =? 0)%nat
               then check_memory_usage (memory_at env i) s1 else s1).
    assert (H2 : pdf_path s2 = path /\ password_list s2 = pl
                 /\ quiet (emitted s2)).
    { unfold s2. destruct (i mod 1000 =? 0)%nat; [|auto].
      destruct (check_memory_usage_frame (memory_at env i) s1)
        as (Ha & Hb & _ & _ & _ & extra & Hem & Hqe).
      rewrite Ha, Hb, Hem. repeat split; auto. now apply quiet_app. }
    destruct H2 as (Hp2 & Hl2 & Hq2).
    unfold orderly. cbn. auto.
  - unfold worker_step. rewrite Hat. unfold orderly. now rewrite Hat.
Qed.

Lemma orderly_act (a : action) (self : thread) :
  orderly self -> orderly (act env a self).
Proof.
  destruct a; [apply orderly_tick | | |];
    apply orderly_control; discriminate.
Qed.

Lemma orderly_exec (schedule : list action) (self : thread) :
  orderly self -> orderly (exec env schedule self).
Proof.
  revert self.
  induction schedule as [|a schedule IH]; intros self Hs; [exact Hs|].
  cbn [exec fold_left]. apply IH. now apply orderly_act.
Qed.

End Protocol.

Lemma started_is_orderly {File Reader : Type} (env : surroundings File Reader)
  (path : string) (pl : list string) (limit : Z) (schedule : list action) :
  orderly File Reader env path pl
    (exec env schedule (start (init path pl limit))).
Proof.
  apply orderly_exec. unfold orderly. cbn.
  split; [reflexivity|]. split; [reflexivity | constructor].
Qed.

(** X8. Whatever the controlling thread calls and whenever it does, a search
    that has emitted [password_found(p)] has returned from [run] with it,
    and [p] is a candidate of the list for which [try_password] succeeded:
    the file opened, parsed and closed, and the document was not encrypted
    or [decrypt] accepted [p]. *)
Theorem password_found_names_an_opening_candidate :
  forall (File Reader : Type) (env : surroundings File Reader)
         (path : string) (pl : list string) (limit : Z)
         (schedule : list action) (p : string),
    let final := exec env schedule (start (init path pl limit)) in
    In (password_found p) (emitted final) ->
    at_ final = Stopped (Found p)
    /\ exists j : nat,
         (j < List.length pl)%nat
         /\ nth j pl EmptyString = p
         /\ opens_with_password (library_at env j) path p.
Proof.
  intros File Reader env path pl limit schedule p final Hin.
  destruct (started_is_orderly env path pl limit schedule) as (_ & _ & Hpos).
  fold final in Hpos.
  assert (Hfinal : final_signal (password_found p) = true) by reflexivity.
  destruct (at_ final) as [|i|i|i|i|i j e|i e|[q| |]];
    try (exfalso; now apply (quiet_not_in _ _ Hpos Hfinal)).
  - destruct Hpos as [_ Hq]. exfalso. now apply (quiet_not_in _ _ Hq Hfinal).
  - destruct Hpos as (j & pre & Hj & Hq & Hopen & Hem & Hquiet).
    rewrite Hem in Hin. apply in_app_or in Hin.
    destruct Hin as [Hin|[Heq|[]]];
      [exfalso; now apply (quiet_not_in _ _ Hquiet Hfinal)|].
    injection Heq as ->.
    split; [reflexivity|]. exists j. auto.
  - destruct Hpos as (pre & Hem & Hquiet).
    rewrite Hem in Hin. apply in_app_or in Hin.
    destruct Hin as [Hin|[Heq|[]]];
      [exfalso; now apply (quiet_not_in _ _ Hquiet Hfinal) | discriminate Heq].
Qed.

(** An instance of X8: the search of three candidates of which the second
    opens the document. *)
Lemma password_found_names_an_opening_candidate_witness :
  In (password_found "b")
    (emitted (exec (locked_surroundings "b") (repeat Tick 10)
                (start (init "document.pdf" ["a"; "b"; "c"]%string 1000))))
  /\ at_ (exec (locked_surroundings "b") (repeat Tick 10)
            (start (init "document.pdf" ["a"; "b"; "c"]%string 1000)))
     = Stopped (Found "b")
  /\ exists j : nat,
       (j < List.length ["a"; "b"; "c"]%string)%nat
       /\ nth j ["a"; "b"; "c"]%string EmptyString = "b"%string
       /\ opens_with_password (library_at (locked_surroundings "b") j)
            "document.pdf" "b".
Proof.
  assert (Hin : In (password_found "b")
                  (emitted (exec (locked_surroundings "b") (repeat Tick 10)
                              (start (init "document.pdf"
                                        ["a"; "b"; "c"]%string 1000)))))
    by (vm_compute; auto).
  split; [exact Hin|].
  exact (password_found_names_an_opening_candidate unit unit
           (locked_surroundings "b") "document.pdf" ["a"; "b"; "c"]%string
           1000 (repeat Tick 10) "b" Hin).
Defined.

(** X9. Whatever the controlling thread calls and whenever it does, [run]
    emits at most one of [password_found] and [password_not_found], as the
    last signal of the search and exactly when it returns with that result;
    a search that is still running, waits at the pause gate or has returned
    because it was cancelled has emitted neither. *)
Theorem search_ends_with_one_final_signal :
  forall (File Reader : Type) (env : surroundings File Reader)
         (path : string) (pl : list string) (limit : Z)
         (schedule : list action),
    let final := exec env schedule (start (init path pl limit)) in
    match at_ final with
    | Stopped (Found p) =>
        exists pre, emitted final = pre ++ [password_found p] /\ quiet pre
    | Stopped NotFound =>
        exists pre, emitted final = pre ++ [password_not_found] /\ quiet pre
    | _ => quiet (emitted final)
    end.
Proof.
  intros File Reader env path pl limit schedule final.
  destruct (started_is_orderly env path pl limit schedule) as (_ & _ & Hpos).
  fold final in Hpos.
  destruct (at_ final) as [|i|i|i|i|i j e|i e|[q| |]]; try exact Hpos.
  - apply Hpos.
  - destruct Hpos as (j & pre & _ & _ & _ & Hem & Hquiet). now exists pre.
Qed.

(** ** How far a cancelled search still goes *)

Section Latency.

Variables File Reader : Type.
Variable env : surroundings File Reader.
Variable path : string.
Variable pl : list string.

(** The attempts a cancelled worker can still make before it looks at the
    flag again. *)
Definition batch_left (self : thread) : nat :=
  match at_ self with
  | PauseGate _ => 100
  | Waiting _ => 100
  | Woken _ => 100
  | BatchStep _ j end_batch => end_batch - j
  | _ => 0
  end.

Lemma cancelled_budget_control (a : action) (self : thread) :
  a <> Tick -> cancelled self = true ->
  cancelled (act env a self) = true
  /\ attempts (act env a self) = attempts self
  /\ batch_left (act env a self) = batch_left self.
Proof.
  intros Ha Hc.
  destruct self as [pa li lim pau can cur pos em att].
  cbn [cancelled] in Hc. subst can.
  destruct a; try contradiction;
    unfold act, pause, resume, cancel, wakeAll, set_flags, batch_left;
    cbn [pdf_path password_list memory_limit_mb paused cancelled
         current_position at_ emitted attempts];
    destruct pos; cbn; auto.
Qed.

Lemma cancelled_budget_tick (self : thread) :
  orderly File Reader env path pl self ->
  cancelled self = true ->
  cancelled (act env Tick self) = true
  /\ (List.length (attempts (act env Tick self))
      + batch_left (act env Tick self)
      <= List.length (attempts self) + batch_left self)%nat.
Proof.
  intros (Hp & Hl & Hpos) Hc.
  unfold act, batch_left.
  destruct (at_ self) as [|i|i|i|i|i j e|i e|v] eqn:Hat.
  - unfold worker_step. rewrite Hat, Hat. auto.
  - unfold worker_step. rewrite Hat. unfold check_cancelled. rewrite Hc.
    destruct (i <? List.length (password_list self))%nat; cbn; auto.
  - unfold worker_step. rewrite Hat.
    destruct (paused self); cbn; split; auto; lia.
  - unfold worker_step. rewrite Hat, Hat. auto.
  - unfold worker_step. rewrite Hat. cbn. split; auto. lia.
  - destruct (j <? e)%nat eqn:Hlt.
    + apply Nat.ltb_lt in Hlt.
      destruct (try_at env self j (candidate self j)) eqn:Htry.
      * destruct (successful_attempt_step File Reader env self i j e
                    Hat Hlt Htry)
          as (s' & Hstep & Hat' & Hatt & _ & _ & _ & _ & Hc' & _).
        rewrite Hstep. cbv beta iota. rewrite Hat', Hc', Hatt, length_app.
        cbn [List.length]. split; [exact Hc | lia].
      * destruct (failed_attempt_step File Reader env self i j e
                    Hat Hlt Htry)
          as (s' & Hstep & Hat' & _ & Hatt & _ & _ & _ & Hc' & _).
        rewrite Hstep. cbv beta iota. rewrite Hat', Hc', Hatt, length_app.
        cbn [List.length]. split; [exact Hc | lia].
    + unfold worker_step. rewrite Hat, Hlt. cbn. split; auto. lia.
  - unfold worker_step. rewrite Hat. cbv zeta.
    set (s1 := emit _ self).
    assert (H1 : cancelled s1 = true /\ attempts s1 = attempts self)
      by (unfold s1; cbn; auto).
    destruct H1 as [Hc1 Ha1].
    set (s2 := if (i mod 1000 =? 0)%nat
               then check_memory_usage (memory_at env i) s1 else s1).
    assert (H2 : cancelled s2 = true /\ attempts s2 = attempts self).
    { unfold s2. destruct (i mod 1000 =? 0)%nat; [|auto].
      destruct (check_memory_usage_frame (memory_at env i) s1)
        as (_ & _ & Hatt & Hcan & _).
      rewrite Hatt. auto. }
    destruct H2 as [Hc2 Ha2]. cbn. rewrite Ha2. split; [exact Hc2 | lia].
  - unfold worker_step. rewrite Hat, Hat. auto.
Qed.

Lemma cancelled_budget_exec (schedule : list action) (self : thread) :
  orderly File Reader env path pl self ->
  cancelled self = true ->
  (List.length (attempts (exec env schedule self))
   <= List.length (attempts self) + batch_left self)%nat.
Proof.
  revert self.
  induction schedule as [|a schedule IH]; intros self Hs Hc;
    cbn [exec fold_left]; [lia|].
  fold (exec env schedule (act env a self)).
  pose proof (orderly_act File Reader env path pl a self Hs) as Hs'.
  destruct a.
  - destruct (cancelled_budget_tick self Hs Hc) as [Hc' Hle].
    specialize (IH _ Hs' Hc'). lia.
  - destruct (cancelled_budget_control Pause self ltac:(discriminate) Hc)
      as (Hc' & Ha & Hb).
    specialize (IH _ Hs' Hc'). rewrite Ha, Hb in IH. exact IH.
  - destruct (cancelled_budget_control Resume self ltac:(discriminate) Hc)
      as (Hc' & Ha & Hb).
    specialize (IH _ Hs' Hc'). rewrite Ha, Hb in IH. exact IH.
  - destruct (cancelled_budget_control Cancel self ltac:(discriminate) Hc)
      as (Hc' & Ha & Hb).
    specialize (IH _ Hs' Hc'). rewrite Ha, Hb in IH. exact IH.
Qed.

Lemma cancel_budget (self : thread) :
  orderly File Reader env path pl self ->
  cancelled (act env Cancel self) = true
  /\ attempts (act env Cancel self) = attempts self
  /\ (batch_left (act env Cancel self) <= 100)%nat.
Proof.
  intros (_ & _ & Hpos).
  destruct self as [pa li lim pau can cur pos em att].
  cbn [at_] in Hpos.
  unfold act, cancel, wakeAll, set_flags, batch_left;
    cbn [pdf_path password_list memory_limit_mb paused cancelled
         current_position at_ emitted attempts].
  destruct pos; cbn; repeat split; lia.
Qed.

End Latency.

(** X10. After [cancel()] the worker makes at most 100 further attempts,
    the rest of one batch, whatever is called afterwards and whenever:
    the attempts of the whole search number at most 100 more than those
    made when [cancel] was called. *)
Theorem cancel_stops_within_a_batch :
  forall (File Reader : Type) (env : surroundings File Reader)
         (path : string) (pl : list string) (limit : Z)
         (earlier later : list action),
    let self := start (init path pl limit) in
    (List.length (attempts (exec env (earlier ++ Cancel :: later) self))
     <= List.length (attempts (exec env earlier self)) + 100)%nat.
Proof.
  intros File Reader env path pl limit earlier later self.
  unfold exec. rewrite fold_left_app. cbn [fold_left].
  fold (exec env earlier self).
  fold (exec env later (act env Cancel (exec env earlier self))).
  pose proof (started_is_orderly env path pl limit earlier) as Hs.
  fold self in Hs.
  destruct (cancel_budget File Reader env path pl _ Hs) as (Hc & Ha & Hb).
  pose proof (cancelled_budget_exec File Reader env path pl later _
                (orderly_act File Reader env path pl Cancel _ Hs) Hc) as Hle.
  rewrite Ha in Hle. lia.
Qed.

(** ** A search that is left alone *)

Lemma first_true (f : nat -> bool) (n : nat) :
  (forall j, (j < n)%nat -> f j = false)
  \/ exists j, (j < n)%nat /\ f j = true
               /\ forall j', (j' < j)%nat -> f j' = false.
Proof.
  induction n as [|n [IH|IH]].
  - left. intros j Hj. lia.
  - destruct (f n) eqn:Hn.
    + right. exists n. split; [lia|]. split; [exact Hn | exact IH].
    + left. intros j Hj.
      destruct (Nat.eq_dec j n) as [->|Hne]; [exact Hn | apply IH; lia].
  - right. destruct IH as (j & Hj & Hyes & Hno).
    exists j. split; [lia|]. split; [exact Hyes | exact Hno].
Qed.

Lemma answer_opens {File Reader : Type} (env : surroundings File Reader)
  (path : string) (pl : list string) (j : nat) :
  answer File Reader env path pl j = true
  <-> opens_with_password (library_at env j) path (nth j pl EmptyString).
Proof. exact (answer_true env (init path pl 0) j). Qed.

Lemma answer_fails {File Reader : Type} (env : surroundings File Reader)
  (path : string) (pl : list string) (j : nat) :
  answer File Reader env path pl j = false
  <-> ~ opens_with_password (library_at env j) path (nth j pl EmptyString).
Proof.
  rewrite <- answer_opens.
  destruct (answer File Reader env path pl j); split; congruence.
Qed.

Lemma uninterrupted_search {File Reader : Type} (env : surroundings File Reader)
  (path : string) (pl : list string) (limit : Z) (n : nat) :
  calm env limit ->
  (5 * List.length pl + 1 <= n)%nat ->
  let final := exec env (repeat Tick n) (start (init path pl limit)) in
  (forall j,
      (j < List.length pl)%nat ->
      answer File Reader env path pl j = true ->
      (forall j', (j' < j)%nat -> answer File Reader env path pl j' = false) ->
      at_ final = Stopped (Found (nth j pl EmptyString))
      /\ attempts final = tests pl 0 (S j))
  /\ ((forall j, (j < List.length pl)%nat ->
                 answer File Reader env path pl j = false) ->
      at_ final = Stopped NotFound
      /\ attempts final = tests pl 0 (List.length pl)).
Proof.
  intros Hcalm Hn final.
  set (self := start (init path pl limit)).
  assert (Hs : steady File Reader env path pl limit 0 [] self).
  { unfold steady, tested_upto, self. cbn.
    repeat split; try reflexivity; try lia. }
  assert (Hr : runnable self).
  { unfold runnable, self. cbn. split; [reflexivity | discriminate]. }
  assert (Hd : (distance pl self <= n)%nat).
  { unfold distance, self. cbn. lia. }
  destruct (run_to_stop File Reader env path pl limit 0 [] Hcalm n self
              Hs Hr Hd) as [v Hv].
  fold final in Hv.
  assert (Hno : ~ In Cancel (repeat Tick n)).
  { intro Hin. apply repeat_spec in Hin. discriminate Hin. }
  pose proof (steady_exec File Reader env path pl limit 0 [] Hcalm
                (repeat Tick n) self Hno Hs) as Hfin.
  fold final in Hfin.
  destruct (steady_account File Reader env path pl limit 0 [] final Hfin)
    as (m & Hm & Hatt & Hfail & Hnf & Hf & Hnc).
  cbn [app] in Hatt.
  split.
  - intros j Hj Hyes Hfirst.
    destruct v as [p| |].
    + destruct (Hf p Hv) as (Hpos & -> & Hlast).
      assert (Heq : m = S j).
      { destruct (Nat.lt_trichotomy (m - 1) j) as [Hlt|[Heq|Hgt]].
        - rewrite (Hfirst _ Hlt) in Hlast. discriminate.
        - lia.
        - rewrite (Hfail j) in Hyes by lia. discriminate. }
      subst m. replace (S j - 1)%nat with j in Hv by lia.
      split; [exact Hv | exact Hatt].
    + destruct (Hnf Hv) as [_ Hall].
      rewrite (Hall j) in Hyes by lia. discriminate.
    + contradiction.
  - intros Hnone.
    destruct v as [p| |].
    + destruct (Hf p Hv) as (Hpos & _ & Hlast).
      rewrite (Hnone (m - 1)%nat) in Hlast by lia. discriminate.
    + destruct (Hnf Hv) as [-> _]. split; [exact Hv | exact Hatt].
    + contradiction.
Qed.

Lemma locked_surroundings_calm (secret : string) (limit : Z) :
  calm (locked_surroundings secret) limit.
Proof. intros i bytes H. discriminate H. Defined.

(** X11. A search that is started and left alone, with memory under the
    ceiling, stops within [5 * total + 1] steps of the worker.  If some
    candidate opens the document, it stops with [password_found] for the
    first one in list order that does, after testing the candidates before
    it and that one, each once; if none does, it stops with
    [password_not_found] after testing every candidate once, in order. *)
Theorem uninterrupted_search_finds_the_first_match :
  forall (File Reader : Type) (env : surroundings File Reader)
         (path : string) (pl : list string) (limit : Z) (n : nat),
    calm env limit ->
    (5 * List.length pl + 1 <= n)%nat ->
    let final := exec env (repeat Tick n) (start (init path pl limit)) in
    (forall j,
        (j < List.length pl)%nat ->
        opens_with_password (library_at env j) path (nth j pl EmptyString) ->
        (forall j', (j' < j)%nat ->
            ~ opens_with_password (library_at env j') path
                (nth j' pl EmptyString)) ->
        at_ final = Stopped (Found (nth j pl EmptyString))
        /\ attempts final = tests pl 0 (S j))
    /\ ((forall j, (j < List.length pl)%nat ->
            ~ opens_with_password (library_at env j) path
                (nth j pl EmptyString)) ->
        at_ final = Stopped NotFound
        /\ attempts final = tests pl 0 (List.length pl)).
Proof.
  intros File Reader env path pl limit n Hcalm Hn final.
  destruct (uninterrupted_search env path pl limit n Hcalm Hn) as [H1 H2].
  split.
  - intros j Hj Hopen Hfirst. apply H1; [exact Hj | now apply answer_opens|].
    intros j' Hj'. apply answer_fails. now apply Hfirst.
  - intro Hnone. apply H2. intros j Hj. apply answer_fails. now apply Hnone.
Qed.

(** An instance of X11: three candidates of which the second opens the
    document. *)
Lemma uninterrupted_search_finds_the_first_match_witness :
  calm (locked_surroundings "b") 1000
  /\ (5 * List.length ["a"; "b"; "c"]%string + 1 <= 16)%nat
  /\ at_ (exec (locked_surroundings "b") (repeat Tick 16)
            (start (init "document.pdf" ["a"; "b"; "c"]%string 1000)))
     = Stopped (Found "b")
  /\ attempts (exec (locked_surroundings "b") (repeat Tick 16)
                 (start (init "document.pdf" ["a"; "b"; "c"]%string 1000)))
     = tests ["a"; "b"; "c"]%string 0 2.
Proof.
  split; [apply locked_surroundings_calm|].
  split; [apply le_n|].
  destruct (uninterrupted_search_finds_the_first_match unit unit
              (locked_surroundings "b") "document.pdf"
              ["a"; "b"; "c"]%string 1000 16
              (locked_surroundings_calm "b" 1000) (le_n _)) as [Hfound _].
  apply (Hfound 1%nat).
  - apply le_n_S, le_n_S, Nat.le_0_l.
  - apply locked_library_opens.
  - intros j' Hj' (file & reader & _ & _ & _ & Hcase).
    assert (Hzero : j' = 0%nat) by lia. subst j'.
    destruct Hcase as [He|(_ & v & Hd & Hv)]; [discriminate He|].
    cbn in Hd. injection Hd as <-. now apply Hv.
Defined.

(** X12. The generator and the search together: let no callback cancel the
    generation, let the search space fit (the generator is unlimited, or the
    sum of [len(chars) ** length] is at most 1,000,000), and let the
    document open with a password whose length lies between [min_length]
    and [max_length] and whose characters are among those selected.  Then
    a search over the generated list that is left alone, with memory under
    the ceiling and the document unchanged, ends with [password_found] for
    a generated candidate that opens the document. *)
Theorem password_in_the_search_space_is_recovered :
  forall (W File Reader : Type) (env : surroundings File Reader)
         (lib : pdf_library File Reader)
         (min_len max_len : nat) (lo up di sp unlimited : bool)
         (cbs : callbacks W) (w : W)
         (path secret : string) (limit : Z) (n : nat),
    let generator :=
      password_generator.init min_len max_len lo up di sp unlimited in
    let pl := generate_passwords generator cbs w in
    never_cancels cbs ->
    unlimited = true
    \/ sum_of_powers (charset_size lo up di sp) min_len
         (max_len + 1 - min_len) <= 1000000 ->
    (min_len <= String.length secret <= max_len)%nat ->
    uses (list_ascii_of_string (charset generator)) secret ->
    (forall j, library_at env j = lib) ->
    opens_with_password lib path secret ->
    calm env limit ->
    (5 * List.length pl + 1 <= n)%nat ->
    exists p,
      at_ (exec env (repeat Tick n) (start (init path pl limit)))
      = Stopped (Found p)
      /\ In p pl
      /\ opens_with_password lib path p.
Proof.
  intros W File Reader env lib min_len max_len lo up di sp unlimited cbs w
    path secret limit n generator pl Hnc Hfit Hlen Huses Hlib Hopen Hcalm Hn.
  assert (Hin : In secret pl).
  { unfold pl, generator.
    rewrite (generate_passwords_in_full min_len max_len lo up di sp unlimited
               cbs w Hnc Hfit).
    apply in_concat. exists (product (charset generator) (String.length secret)).
    split.
    - apply in_map. unfold range. apply in_seq. lia.
    - now apply product_chars_complete. }
  destruct (In_nth pl secret EmptyString Hin) as (j0 & Hj0 & Hnth).
  assert (Hyes0 : answer File Reader env path pl j0 = true).
  { apply answer_opens. now rewrite Hlib, Hnth. }
  destruct (first_true (answer File Reader env path pl) (S j0))
    as [Hnone|(j & Hj & Hyes & Hfirst)].
  { rewrite (Hnone j0) in Hyes0 by lia. discriminate. }
  destruct (uninterrupted_search env path pl limit n Hcalm Hn) as [Hfound _].
  destruct (Hfound j ltac:(lia) Hyes Hfirst) as [Hat _].
  exists (nth j pl EmptyString).
  split; [exact Hat|].
  split; [apply nth_In; lia|].
  rewrite <- (Hlib j). now apply answer_opens.
Qed.

(** An instance of X12: the digit strings of lengths 1 and 2 against a
    document that [42] opens. *)
Definition two_digits : PasswordGenerator :=
  password_generator.init 1 2 false false true false false.

Lemma password_in_the_search_space_is_recovered_witness :
  never_cancels no_callbacks
  /\ (false = true
      \/ sum_of_powers (charset_size false false true false) 1 (2 + 1 - 1)
         <= 1000000)
  /\ (1 <= String.length "42" <= 2)%nat
  /\ uses (list_ascii_of_string (charset two_digits)) "42"
  /\ (forall j : nat,
        library_at (locked_surroundings "42") j = locked_library "42")
  /\ opens_with_password (locked_library "42") "document.pdf" "42"
  /\ calm (locked_surroundings "42") 1000
  /\ (5 * List.length (generate_passwords two_digits no_callbacks tt) + 1
      <= 551)%nat
  /\ exists p,
       at_ (exec (locked_surroundings "42") (repeat Tick 551)
              (start (init "document.pdf"
                        (generate_passwords two_digits no_callbacks tt) 1000)))
       = Stopped (Found p)
       /\ In p (generate_passwords two_digits no_callbacks tt)
       /\ opens_with_password (locked_library "42") "document.pdf" p.
Proof.
  assert (Hfit : false = true
                 \/ sum_of_powers (charset_size false false true false) 1
                      (2 + 1 - 1) <= 1000000)
    by (right; vm_compute; discriminate).
  assert (Hlen : (1 <= String.length "42" <= 2)%nat) by (cbn; lia).
  assert (Huses : uses (list_ascii_of_string (charset two_digits)) "42").
  { unfold uses. cbn. repeat constructor; cbn; tauto. }
  assert (Hn : (5 * List.length (generate_passwords two_digits no_callbacks tt)
                + 1 <= 551)%nat)
    by (vm_compute; apply le_n).
  split; [exact no_callbacks_never_cancel|].
  split; [exact Hfit|]. split; [exact Hlen|]. split; [exact Huses|].
  split; [reflexivity|].
  split; [apply locked_library_opens|].
  split; [apply locked_surroundings_calm|].
  split; [exact Hn|].
  exact (password_in_the_search_space_is_recovered unit unit unit
           (locked_surroundings "42") (locked_library "42")
           1 2 false false true false false no_callbacks tt
           "document.pdf" "42" 1000 551
           no_callbacks_never_cancel Hfit Hlen Huses (fun _ => eq_refl)
           (locked_library_opens "42" "document.pdf")
           (locked_surroundings_calm "42" 1000) Hn).
Defined.

(** ** The order of the attempts *)

Section Sequence.

Variables File Reader : Type.
Variable env : surroundings File Reader.
Variable pl : list string.

Local Notation "'total'" := (List.length pl).

(** The attempts made so far are those at the indices below the cursor,
    in order, each once. *)
Definition in_sequence (self : thread) : Prop :=
  password_list self = pl
  /\ match at_ self with
     | NotStarted => attempts self = []
     | LoopHead i => (i <= total)%nat /\ attempts self = tests pl 0 i
     | PauseGate i => (i <= total)%nat /\ attempts self = tests pl 0 i
     | Waiting i => (i <= total)%nat /\ attempts self = tests pl 0 i
     | Woken i => (i <= total)%nat /\ attempts self = tests pl 0 i
     | BatchStep _ j end_batch =>
         (j <= end_batch <= total)%nat /\ attempts self = tests pl 0 j
     | BatchEnd _ end_batch =>
         (end_batch <= total)%nat /\ attempts self = tests pl 0 end_batch
     | Stopped _ =>
         exists n, (n <= total)%nat /\ attempts self = tests pl 0 n
     end.

Lemma in_sequence_control (a : action) (self : thread) :
  a <> Tick -> in_sequence self -> in_sequence (act env a self).
Proof.
  intros Ha (Hl & Hpos).
  destruct self as [pa li lim pau can cur pos em att].
  cbn [password_list at_ attempts] in *.
  destruct a; try contradiction;
    unfold in_sequence, act, pause, resume, cancel, wakeAll, set_flags;
    cbn [pdf_path password_list memory_limit_mb paused cancelled
         current_position at_ emitted attempts];
    destruct pos; cbn; auto.
Qed.

Lemma in_sequence_tick (self : thread) :
  in_sequence self -> in_sequence (act env Tick self).
Proof.
  intros (Hl & Hpos).
  unfold act.
  destruct (at_ self) as [|i|i|i|i|i j e|i e|v] eqn:Hat.
  - unfold worker_step. rewrite Hat. unfold in_sequence. now rewrite Hat.
  - unfold worker_step. rewrite Hat, Hl.
    destruct (i <? total)%nat eqn:Hi.
    + destruct (check_cancelled self); unfold in_sequence; cbn; split; auto.
      exists i. exact Hpos.
    + unfold in_sequence. cbn. split; [exact Hl|]. exists i. exact Hpos.
  - unfold worker_step. rewrite Hat, Hl.
    destruct (paused self); unfold in_sequence; cbn; split; auto.
    destruct Hpos as [Hi Hatt]. split; [lia | exact Hatt].
  - unfold worker_step. rewrite Hat. unfold in_sequence. now rewrite Hat.
  - unfold worker_step. rewrite Hat, Hl.
    unfold in_sequence; cbn; split; auto.
    destruct Hpos as [Hi Hatt]. split; [lia | exact Hatt].
  - destruct Hpos as [Hj Hatt].
    destruct (j <? e)%nat eqn:Hlt.
    + apply Nat.ltb_lt in Hlt.
      assert (Hnext : attempts self ++ [(j, candidate self j)]
                      = tests pl 0 (S j)).
      { rewrite Hatt. unfold candidate, tests. rewrite Hl.
        replace (S j - 0)%nat with (j + 1)%nat by lia.
        rewrite Nat.sub_0_r, seq_app, map_app. reflexivity. }
      destruct (try_at env self j (candidate self j)) eqn:Htry.
      * destruct (successful_attempt_step File Reader env self i j e
                    Hat Hlt Htry)
          as (s' & Hstep & Hat' & Hatt' & _ & _ & Hl' & _).
        rewrite Hstep. unfold in_sequence. rewrite Hat', Hl', Hatt', Hnext.
        split; [exact Hl|]. exists (S j). split; [lia | reflexivity].
      * destruct (failed_attempt_step File Reader env self i j e
                    Hat Hlt Htry)
          as (s' & Hstep & Hat' & _ & Hatt' & _ & Hl' & _).
        rewrite Hstep. unfold in_sequence. rewrite Hat', Hl', Hatt', Hnext.
        split; [exact Hl|]. split; [lia | reflexivity].
    + apply Nat.ltb_ge in Hlt.
      unfold worker_step. rewrite Hat.
      rewrite (proj2 (Nat.ltb_ge j e) Hlt).
      unfold in_sequence. cbn. split; [exact Hl|].
      replace e with j by lia. split; [lia | exact Hatt].
  - unfold worker_step. rewrite Hat. cbv zeta.
    set (s1 := emit _ self).
    assert (H1 : password_list s1 = pl /\ attempts s1 = attempts self)
      by (unfold s1; cbn; auto).
    destruct H1 as [Hl1 Ha1].
    set (s2 := if (i mod 1000 =? 0)%nat
               then check_memory_usage (memory_at env i) s1 else s1).
    assert (H2 : password_list s2 = pl /\ attempts s2 = attempts self).
    { unfold s2. destruct (i mod 1000 =? 0)%nat; [|auto].
      destruct (check_memory_usage_frame (memory_at env i) s1)
        as (_ & Hb & Hatt & _).
      rewrite Hb, Hatt. auto. }
    destruct H2 as [Hl2 Ha2].
    unfold in_sequence. cbn. rewrite Ha2. auto.
  - unfold worker_step. rewrite Hat. unfold in_sequence. now rewrite Hat.
Qed.

Lemma in_sequence_exec (schedule : list action) (self : thread) :
  in_sequence self -> in_sequence (exec env schedule self).
Proof.
  revert self.
  induction schedule as [|a schedule IH]; intros self Hs; [exact Hs|].
  cbn [exec fold_left]. apply IH.
  destruct a; [now apply in_sequence_tick | | |];
    apply in_sequence_control; (discriminate || assumption).
Qed.

Lemma in_sequence_account (self : thread) :
  in_sequence self ->
  exists n, (n <= total)%nat /\ attempts self = tests pl 0 n.
Proof.
  intros (_ & Hpos).
  destruct (at_ self) as [|i|i|i|i|i j e|i e|v].
  - exists 0%nat. split; [lia | exact Hpos].
  - now exists i.
  - now exists i.
  - now exists i.
  - now exists i.
  - exists j. split; [lia | apply Hpos].
  - now exists e.
  - exact Hpos.
Qed.

End Sequence.

(** X17. Whatever [pause], [resume] and [cancel] calls are interleaved with
    the worker and whenever, a search started from the beginning never skips
    a candidate and never tries one twice: at every moment the attempts made
    are those at the indices [0], [1], ..., [n - 1] of the list, in this
    order, for some [n] up to the length of the list. *)
Theorem attempts_follow_the_list :
  forall (File Reader : Type) (env : surroundings File Reader)
         (path : string) (pl : list string) (limit : Z)
         (schedule : list action),
    exists n : nat,
      (n <= List.length pl)%nat
      /\ attempts (exec env schedule (start (init path pl limit)))
         = tests pl 0 n.
Proof.
  intros File Reader env path pl limit schedule.
  apply in_sequence_account.
  apply (in_sequence_exec File Reader env).
  unfold in_sequence. cbn. split; [reflexivity|].
  split; [lia | reflexivity].
Qed.

(** ** How far a paused search still goes *)

Section PauseLatency.

Variables File Reader : Type.
Variable env : surroundings File Reader.
Variable path : string.
Variable pl : list string.

(** The worker will stop at the gate or at the head of the loop: it is
    paused, or it was cancelled and is past the gate. *)
Definition held (self : thread) : Prop :=
  paused self = true
  \/ (cancelled self = true
      /\ match at_ self with
         | PauseGate _ => False
         | Waiting _ => False
         | _ => True
         end).

(** The attempts a held worker can still make. *)
Definition batch_rest (self : thread) : nat :=
  match at_ self with
  | Woken _ => 100
  | BatchStep _ j end_batch => end_batch - j
  | _ => 0
  end.

Lemma held_pause (self : thread) :
  held (act env Pause self)
  /\ attempts (act env Pause self) = attempts self
  /\ batch_rest (act env Pause self) = batch_rest self.
Proof.
  unfold held, act, pause, set_flags, batch_rest. cbn. auto.
Qed.

Lemma held_tick (self : thread) :
  orderly File Reader env path pl self ->
  held self ->
  held (act env Tick self)
  /\ (List.length (attempts (act env Tick self))
      + batch_rest (act env Tick self)
      <= List.length (attempts self) + batch_rest self)%nat.
Proof.
  intros (Hp & Hl & Hpos) Hheld.
  unfold act, batch_rest.
  destruct (at_ self) as [|i|i|i|i|i j e|i e|v] eqn:Hat.
  - unfold worker_step. rewrite Hat, Hat. auto.
  - unfold worker_step. rewrite Hat. unfold check_cancelled, held in *.
    rewrite Hat in Hheld.
    destruct (i <? List.length (password_list self))%nat; cbn;
      [|split; [tauto | lia]].
    destruct (cancelled self) eqn:Hc; cbn; split; try lia.
    + right. auto.
    + left. destruct Hheld as [Hpa|[Hcc _]]; [exact Hpa | discriminate].
  - unfold worker_step. rewrite Hat. unfold held in *. rewrite Hat in Hheld.
    destruct Hheld as [Hpa|[_ []]]. rewrite Hpa. cbn. split; [auto | lia].
  - unfold worker_step. rewrite Hat, Hat. auto.
  - unfold worker_step. rewrite Hat. unfold held in *. rewrite Hat in Hheld.
    cbn. split; [|lia]. destruct Hheld as [Hpa|[Hc _]]; auto.
  - assert (Hkeep : forall s',
              paused s' = paused self -> cancelled s' = cancelled self ->
              (forall i', at_ s' <> PauseGate i') ->
              (forall i', at_ s' <> Waiting i') -> held s').
    { intros s' Hpa Hca Hng Hnw. unfold held in *. rewrite Hpa, Hca.
      destruct Hheld as [H|[H _]]; [now left | right].
      split; [exact H|].
      destruct (at_ s') eqn:Hs'; auto; [now apply (Hng i0) | now apply (Hnw i0)]. }
    destruct (j <? e)%nat eqn:Hlt.
    + apply Nat.ltb_lt in Hlt.
      destruct (try_at env self j (candidate self j)) eqn:Htry.
      * destruct (successful_attempt_step File Reader env self i j e
                    Hat Hlt Htry)
          as (s' & Hstep & Hat' & Hatt & _ & _ & _ & _ & Hc' & Hpa').
        rewrite Hstep. cbv beta iota. rewrite Hat', Hatt, length_app.
        cbn [List.length]. split; [|lia].
        apply Hkeep; auto; intros i'; rewrite Hat'; discriminate.
      * destruct (failed_attempt_step File Reader env self i j e
                    Hat Hlt Htry)
          as (s' & Hstep & Hat' & _ & Hatt & _ & _ & _ & Hc' & Hpa').
        rewrite Hstep. cbv beta iota. rewrite Hat', Hatt, length_app.
        cbn [List.length]. split; [|lia].
        apply Hkeep; auto; intros i'; rewrite Hat'; discriminate.
    + unfold worker_step. rewrite Hat, Hlt. cbn. split; [|lia].
      apply Hkeep; auto; intros i'; cbn; discriminate.
  - unfold worker_step. rewrite Hat. cbv zeta.
    set (s1 := emit _ self).
    assert (H1 : paused s1 = paused self /\ cancelled s1 = cancelled self
                 /\ attempts s1 = attempts self /\ at_ s1 = BatchEnd i e)
      by (unfold s1; cbn; auto).
    destruct H1 as (Hp1 & Hc1 & Ha1 & Hat1).
    set (s2 := if (i mod 1000 =? 0)%nat
               then check_memory_usage (memory_at env i) s1 else s1).
    assert (H2 : attempts s2 = attempts self
                 /\ (paused s2 = true \/ cancelled s2 = true)).
    { unfold held in Hheld. rewrite Hat in Hheld.
      unfold s2. destruct (i mod 1000 =? 0)%nat.
      - destruct (check_memory_usage_frame (memory_at env i) s1)
          as (_ & _ & Hatt & Hcan & _).
        split; [now rewrite Hatt|].
        destruct (cancelled s1) eqn:Hcs1; [right; now apply Hcan|].
        destruct Hheld as [Hpa|[Hc _]]; [|congruence].
        destruct (memory_at env i) as [|bytes|]; cbn [check_memory_usage];
          try (left; congruence).
        cbv zeta.
        destruct (float_gt (memory_mb_of bytes) _);
          cbn [emit memory_limit_mb];
          destruct (float_gt (memory_mb_of bytes) _);
          try (left; cbn; congruence);
          right; unfold cancel, wakeAll, set_flags; cbn;
          rewrite ?Hat1, ?Hat; reflexivity.
      - split; [exact Ha1|].
        destruct Hheld as [Hpa|[Hc _]]; [left | right]; congruence. }
    destruct H2 as [Ha2 Hflags]. cbn. rewrite Ha2. split; [|lia].
    unfold held. cbn. destruct Hflags; auto.
  - unfold worker_step. rewrite Hat, Hat. auto.
Qed.

Lemma held_exec (schedule : list action) (self : thread) :
  Forall (fun a => a = Tick \/ a = Pause) schedule ->
  orderly File Reader env path pl self ->
  held self ->
  (List.length (attempts (exec env schedule self))
   <= List.length (attempts self) + batch_rest self)%nat.
Proof.
  revert self.
  induction schedule as [|a schedule IH]; intros self Hsched Hs Hh;
    cbn [exec fold_left]; [lia|].
  fold (exec env schedule (act env a self)).
  inversion Hsched as [|a' l' Ha Hrest]; subst.
  pose proof (orderly_act File Reader env path pl a self Hs) as Hs'.
  destruct Ha as [->| ->].
  - destruct (held_tick self Hs Hh) as [Hh' Hle].
    specialize (IH _ Hrest Hs' Hh'). lia.
  - destruct (held_pause self) as (Hh' & Ha & Hb).
    specialize (IH _ Hrest Hs' Hh'). rewrite Ha, Hb in IH. exact IH.
Qed.

Lemma pause_budget (self : thread) :
  orderly File Reader env path pl self ->
  (batch_rest self <= 100)%nat.
Proof.
  intros (_ & _ & Hpos). unfold batch_rest.
  destruct (at_ self); try lia.
Qed.

End PauseLatency.

(** X18. After [pause()] the worker makes at most 100 further attempts, the
    rest of one batch, as long as neither [resume] nor [cancel] is called:
    the attempts of the search number at most 100 more than those made when
    [pause] was called. *)
Theorem pause_holds_within_a_batch :
  forall (File Reader : Type) (env : surroundings File Reader)
         (path : string) (pl : list string) (limit : Z)
         (earlier later : list action),
    Forall (fun a => a = Tick \/ a = Pause) later ->
    let self := start (init path pl limit) in
    (List.length (attempts (exec env (earlier ++ Pause :: later) self))
     <= List.length (attempts (exec env earlier self)) + 100)%nat.
Proof.
  intros File Reader env path pl limit earlier later Hlater self.
  unfold exec. rewrite fold_left_app. cbn [fold_left].
  fold (exec env earlier self).
  fold (exec env later (act env Pause (exec env earlier self))).
  pose proof (started_is_orderly env path pl limit earlier) as Hs.
  fold self in Hs.
  destruct (held_pause File Reader env (exec env earlier self))
    as (Hh & Ha & Hb).
  pose proof (held_exec File Reader env path pl later _ Hlater
                (orderly_act File Reader env path pl Pause _ Hs) Hh) as Hle.
  pose proof (pause_budget File Reader env path pl _ Hs) as Hbudget.
  rewrite Ha, Hb in Hle. lia.
Qed.

(** An instance of X18: paused in the first batch of 250 candidates, the
    worker is left to run. *)
Lemma pause_holds_within_a_batch_witness :
  Forall (fun a => a = Tick \/ a = Pause) (repeat Tick 300)
  /\ (List.length
        (attempts
           (exec unreadable_surroundings
              (repeat Tick 5 ++ Pause :: repeat Tick 300)
              (start (init "document.pdf" (repeat "a"%string 250) 1000))))
      <= List.length
           (attempts
              (exec unreadable_surroundings (repeat Tick 5)
                 (start (init "document.pdf" (repeat "a"%string 250) 1000))))
         + 100)%nat.
Proof.
  assert (Hlater : Forall (fun a => a = Tick \/ a = Pause) (repeat Tick 300)).
  { apply Forall_forall. intros a Ha. apply repeat_spec in Ha. now left. }
  split; [exact Hlater|].
  exact (pause_holds_within_a_batch unit unit unreadable_surroundings
           "document.pdf" (repeat "a"%string 250) 1000
           (repeat Tick 5) (repeat Tick 300) Hlater).
Defined.


(** * Properties of the generation thread *)

Import PasswordGenerationRun.

(** The signals [run] emits before it ends: progress below 100, pattern
    updates, memory warnings and the notice of a large list. *)
Definition ordinary (s : signal) : Prop :=
  match s with
  | progress_update value => value <= 99
  | current_pattern_update _ => True
  | memory_warning _ => True
  | processing_large_list _ => True
  | password_list_ready _ => False
  | generation_failed _ => False
  end.

(** The thread is cancelled, or an exception is on its way to [run]. *)
Definition halted (self : thread) : bool :=
  cancelled self || match raised self with Some _ => true | None => false end.

(** [self'] is [self] later in the same run: ordinary signals were added
    and a thread that was halted still is. *)
Definition later (self self' : thread) : Prop :=
  (exists more, emitted self' = emitted self ++ more /\ Forall ordinary more)
  /\ (halted self = true -> halted self' = true).

Lemma later_refl (self : thread) : later self self.
Proof.
  split; [|auto]. exists []. split; [now rewrite app_nil_r | constructor].
Qed.

Lemma later_trans (a b c : thread) : later a b -> later b c -> later a c.
Proof.
  intros [(m1 & H1 & F1) S1] [(m2 & H2 & F2) S2].
  split; [|auto].
  exists (m1 ++ m2). split; [now rewrite H2, H1, app_assoc|].
  apply Forall_app. now split.
Qed.

Lemma later_emit (s : signal) (self : thread) :
  ordinary s -> later self (emit s self).
Proof.
  intro Hs. split; [|auto].
  exists [s]. split; [reflexivity | now constructor].
Qed.

Lemma later_raise (message : string) (self : thread) :
  later self (raise message self).
Proof.
  split.
  - exists []. split; [cbn; now rewrite app_nil_r | constructor].
  - intros _. unfold halted. cbn. apply orb_true_r.
Qed.

Lemma generation_check_cancelled (reading : memory_reading)
  (self : PasswordGenerationThread.thread) :
  PasswordGenerationThread.cancelled
    (PasswordGenerationThread.check_memory_usage reading self)
  = PasswordGenerationThread.cancelled self
    || match reading with
       | Rss bytes =>
           float_gt (memory_mb_of bytes)
             (PrimFloat.mul
                (float_of_int (PasswordGenerationThread.memory_limit_mb self))
                0.95)
       | _ => false
       end.
Proof.
  unfold PasswordGenerationThread.check_memory_usage.
  destruct reading as [|bytes|]; try (now rewrite orb_false_r).
  cbv zeta.
  destruct (float_gt (memory_mb_of bytes)
              (PrimFloat.mul
                 (float_of_int (PasswordGenerationThread.memory_limit_mb self))
                 0.8));
    cbn [PasswordGenerationThread.emit PasswordGenerationThread.memory_limit_mb
         PasswordGenerationThread.cancelled];
    destruct (float_gt (memory_mb_of bytes) _);
    cbn [PasswordGenerationThread.cancel PasswordGenerationThread.cancelled
         PasswordGenerationThread.emit];
    now rewrite ?orb_true_r, ?orb_false_r.
Qed.

Section GenerationCallbacks.

Variable env : surroundings.

Lemma check_cancelled_answer (self : thread) :
  fst (check_cancelled env self) = cancelled (snd (check_cancelled env self))
  /\ emitted (snd (check_cancelled env self)) = emitted self
  /\ raised (snd (check_cancelled env self)) = raised self
  /\ (cancelled self = true -> fst (check_cancelled env self) = true)
  /\ (fst (check_cancelled env self) = false -> cancelled self = false).
Proof.
  unfold check_cancelled. cbn.
  repeat split; try reflexivity.
  - intros ->. reflexivity.
  - intro H. now apply orb_false_elim in H.
Qed.

Lemma later_check_cancelled (self : thread) :
  later self (snd (check_cancelled env self)).
Proof.
  split.
  - exists []. split; [cbn; now rewrite app_nil_r | constructor].
  - unfold halted, check_cancelled. cbn.
    destruct (cancelled self), (raised self),
      (cancel_called env (checks self)); cbn; auto.
Qed.

Lemma later_check_memory_usage (self : thread) :
  later self (check_memory_usage env self)
  /\ raised (check_memory_usage env self) = raised self.
Proof.
  split; [|reflexivity].
  split.
  - unfold check_memory_usage. cbn [emitted].
    rewrite generation_check_emitted. cbn [PasswordGenerationThread.emitted app].
    eexists. split; [reflexivity|].
    destruct (memory_at env (probes self)) as [|bytes|]; try constructor.
    destruct (float_gt _ _); repeat constructor.
  - unfold halted, check_memory_usage. cbn [cancelled raised].
    rewrite generation_check_cancelled.
    cbn [PasswordGenerationThread.cancelled].
    destruct (cancelled self); cbn; [auto|].
    destruct (raised self); [now rewrite orb_true_r | discriminate].
Qed.

Lemma min_99 (v : Z) : Z.min v 99 <= 99.
Proof. lia. Qed.

Lemma progress_callback_later (count total : Z) (self : thread) :
  later self (snd (progress_callback env count total self))
  /\ (fst (progress_callback env count total self) = false ->
      halted (snd (progress_callback env count total self)) = true).
Proof.
  unfold progress_callback.
  pose proof (later_check_cancelled self) as H1.
  destruct (check_cancelled_answer self) as (Hans & _).
  destruct (check_cancelled env self) as [c s1]. cbn [fst snd] in *.
  destruct c.
  - cbn [fst snd]. split; [exact H1|].
    intros _. unfold halted. now rewrite <- Hans.
  - set (s2 := if count mod 10000 =? 0 then check_memory_usage env s1 else s1).
    assert (H2 : later s1 s2).
    { unfold s2. destruct (count mod 10000 =? 0);
        [apply later_check_memory_usage | apply later_refl]. }
    destruct (progress_of count total) as [message|progress] eqn:Hp;
      cbn [fst snd].
    + split.
      * eapply later_trans; [exact H1|].
        eapply later_trans; [exact H2 | apply later_raise].
      * intros _. unfold halted. cbn. apply orb_true_r.
    + split; [|discriminate].
      eapply later_trans; [exact H1|].
      eapply later_trans; [exact H2|]. apply later_emit.
      unfold progress_of in Hp.
      destruct (int_true_div count total); [discriminate|].
      destruct (int_of_float_or_raise _); [discriminate|].
      injection Hp as <-. apply min_99.
Qed.

Lemma pattern_callback_later (pattern : string) (self : thread) :
  later self (snd (pattern_callback env pattern self))
  /\ (fst (pattern_callback env pattern self) = false ->
      halted (snd (pattern_callback env pattern self)) = true).
Proof.
  unfold pattern_callback.
  pose proof (later_check_cancelled self) as H1.
  destruct (check_cancelled_answer self) as (Hans & _).
  destruct (check_cancelled env self) as [c s1]. cbn [fst snd] in *.
  destruct c; cbn [fst snd].
  - split; [exact H1|]. intros _. unfold halted. now rewrite <- Hans.
  - split; [|discriminate].
    eapply later_trans; [exact H1|]. now apply later_emit.
Qed.

Lemma unless_raised_later (callback : thread -> bool * thread) (self : thread) :
  (later self (snd (callback self))
   /\ (fst (callback self) = false -> halted (snd (callback self)) = true)) ->
  later self (snd (unless_raised callback self))
  /\ (fst (unless_raised callback self) = false ->
      halted (snd (unless_raised callback self)) = true).
Proof.
  intro H. unfold unless_raised.
  destruct (raised self) as [message|] eqn:Hr; [|exact H].
  cbn [fst snd]. split; [apply later_refl|].
  intros _. unfold halted. rewrite Hr. apply orb_true_r.
Qed.

End GenerationCallbacks.

Section GenerationRun.

Variable env : surroundings.
Variables (min_len max_len : nat) (opts : options) (unlimited : bool).
Variable limit : Z.

(** The generator [run] creates, the thread when the generator is called
    and the generator's locals when it returns. *)
Definition generator_of_run : PasswordGenerator :=
  password_generator.init min_len max_len (lowercase opts) (uppercase opts)
    (digits opts) (special opts) unlimited.

Definition thread_at_call : thread :=
  emit (progress_update 0) (init min_len max_len opts unlimited limit).

Definition locals_at_return : gen_state thread :=
  generate_passwords_state generator_of_run (callbacks_of_run env)
    thread_at_call.

Lemma callbacks_keep_later (start : thread) :
  (forall f,
      password_generator.progress_callback (callbacks_of_run env) = Some f ->
      forall c t w, later start w -> later start (snd (f c t w)))
  /\ (forall f,
         password_generator.pattern_callback (callbacks_of_run env) = Some f ->
         forall p w, later start w -> later start (snd (f p w))).
Proof.
  split; intros f Hf; injection Hf as <-; intros.
  - eapply later_trans; [eassumption|].
    apply unless_raised_later, progress_callback_later.
  - eapply later_trans; [eassumption|].
    apply unless_raised_later, pattern_callback_later.
Qed.

Lemma callbacks_refuse_halted :
  (forall f,
      password_generator.progress_callback (callbacks_of_run env) = Some f ->
      forall c t w, fst (f c t w) = false -> halted (snd (f c t w)) = true)
  /\ (forall f,
         password_generator.pattern_callback (callbacks_of_run env) = Some f ->
         forall p w, fst (f p w) = false -> halted (snd (f p w)) = true).
Proof.
  split; intros f Hf; injection Hf as <-; intros.
  - now apply unless_raised_later; [apply progress_callback_later|].
  - now apply unless_raised_later; [apply pattern_callback_later|].
Qed.

Lemma callbacks_stay_halted :
  (forall f,
      password_generator.progress_callback (callbacks_of_run env) = Some f ->
      forall c t w, halted w = true -> halted (snd (f c t w)) = true)
  /\ (forall f,
         password_generator.pattern_callback (callbacks_of_run env) = Some f ->
         forall p w, halted w = true -> halted (snd (f p w)) = true).
Proof.
  split; intros f Hf; injection Hf as <-; intros.
  - destruct (unless_raised_later (progress_callback env c t) w
                (progress_callback_later env c t w)) as [[_ Hs] _].
    now apply Hs.
  - destruct (unless_raised_later (pattern_callback env p) w
                (pattern_callback_later env p w)) as [[_ Hs] _].
    now apply Hs.
Qed.

Lemma locals_later : later thread_at_call (world locals_at_return).
Proof.
  destruct (callbacks_keep_later thread_at_call) as [Hprog Hpat].
  apply (generate_keeps thread generator_of_run (callbacks_of_run env)
           (later thread_at_call) Hprog Hpat).
  apply later_refl.
Qed.

(** When the generator returns to a thread that is not halted, its list is
    the one of a run that nothing cancels. *)
Lemma locals_complete :
  halted (world locals_at_return) = false ->
  passwords locals_at_return
  = generate_passwords generator_of_run no_callbacks tt.
Proof.
  intro Hclear.
  destruct callbacks_refuse_halted as [Hr1 Hr2].
  destruct callbacks_stay_halted as [Hs1 Hs2].
  unfold locals_at_return.
  rewrite <- (generate_agrees thread generator_of_run (callbacks_of_run env)
                halted Hr1 Hr2 Hs1 Hs2 thread_at_call Hclear).
  apply (uncancelled_lists_agree min_len max_len (lowercase opts)
           (uppercase opts) (digits opts) (special opts) unlimited
           (assenting thread (callbacks_of_run env)) thread_at_call
           no_callbacks tt).
  - apply assenting_never_cancels.
  - exact no_callbacks_never_cancel.
Qed.

(** The signals [run] adds after the generator has returned, when it
    delivers the list. *)
Definition closing_signals (password_list : list string) : list signal :=
  (if (100000 <? List.length password_list)%nat
   then [progress_update 99;
         current_pattern_update
           ("Processing " ++ str_with_commas (List.length password_list)
            ++ " passwords")%string;
         processing_large_list (Z.of_nat (List.length password_list))]
   else [])
  ++ [progress_update 100; password_list_ready password_list].

Lemma run_unfold :
  run env (init min_len max_len opts unlimited limit)
  = match raised (world locals_at_return) with
    | Some message =>
        emit (generation_failed message) (world locals_at_return)
    | None =>
        let '(is_cancelled, self) :=
          check_cancelled env (world locals_at_return) in
        if is_cancelled then self
        else
          let password_list := passwords locals_at_return in
          let self :=
            if (100000 <? List.length password_list)%nat then
              emit (processing_large_list
                      (Z.of_nat (List.length password_list)))
                (emit (current_pattern_update
                         ("Processing "
                          ++ str_with_commas (List.length password_list)
                          ++ " passwords")%string)
                   (emit (progress_update 99) self))
            else self in
          emit (password_list_ready password_list)
            (emit (progress_update 100) self)
    end.
Proof. reflexivity. Qed.

(** The three ways in which [run] ends. *)
Lemma run_ends :
  let final := run env (init min_len max_len opts unlimited limit) in
  exists pre,
    emitted (world locals_at_return) = progress_update 0 :: pre
    /\ Forall ordinary pre
    /\ ((exists message,
            raised (world locals_at_return) = Some message
            /\ emitted final
               = emitted (world locals_at_return)
                 ++ [generation_failed message])
        \/ (raised (world locals_at_return) = None
            /\ cancelled final = true
            /\ emitted final = emitted (world locals_at_return))
        \/ (halted (world locals_at_return) = false
            /\ emitted final
               = emitted (world locals_at_return)
                 ++ closing_signals (passwords locals_at_return))).
Proof.
  intro final.
  destruct locals_later as [(pre & Hem & Hord) _].
  exists pre. split; [exact Hem|]. split; [exact Hord|].
  unfold final. rewrite run_unfold.
  destruct (raised (world locals_at_return)) as [message|] eqn:Hr.
  - left. exists message. split; reflexivity.
  - right.
    destruct (check_cancelled_answer env (world locals_at_return))
      as (Hans & Hsame & _ & _ & Hfalse).
    destruct (check_cancelled env (world locals_at_return)) as [c s2].
    cbn [fst snd] in *.
    destruct c.
    + left. split; [reflexivity|]. split; [now rewrite <- Hans | exact Hsame].
    + right. split.
      * unfold halted. now rewrite (Hfalse eq_refl), Hr.
      * unfold closing_signals. cbv zeta.
        destruct (100000 <? List.length (passwords locals_at_return))%nat;
          cbn [emit emitted app]; rewrite Hsame, <- ?app_assoc; reflexivity.
Qed.

End GenerationRun.

Lemma ordinary_not_ready (signals : list signal) (L : list string) :
  Forall ordinary signals -> ~ In (password_list_ready L) signals.
Proof.
  intros Hord Hin. rewrite Forall_forall in Hord.
  exact (Hord _ Hin).
Qed.

Lemma closing_signals_split (L : list string) :
  exists middle,
    Forall ordinary middle
    /\ closing_signals L
       = middle ++ [progress_update 100; password_list_ready L].
Proof.
  unfold closing_signals.
  destruct (100000 <? List.length L)%nat.
  - eexists. split; [|reflexivity]. repeat constructor. cbn. lia.
  - exists []. split; [constructor | reflexivity].
Qed.

(** X13. [PasswordGenerationThread.run] ends in one of three ways, and in
    each the signals before the end are [progress_update] values of at most
    99, pattern updates, memory warnings and the notice of a large list:
    with [generation_failed] as the last signal; with no closing signal, the
    thread being cancelled; or with [progress_update(100)] followed by
    [password_list_ready] as the last two signals. *)
Theorem generation_run_ends_in_one_of_three_ways :
  forall (env : surroundings) (min_len max_len : nat) (opts : options)
         (unlimited : bool) (limit : Z),
    let final := run env (init min_len max_len opts unlimited limit) in
    exists pre,
      Forall ordinary pre
      /\ ((exists message,
              emitted final
              = progress_update 0 :: pre ++ [generation_failed message])
          \/ (emitted final = progress_update 0 :: pre
              /\ cancelled final = true)
          \/ (exists L,
                 emitted final
                 = progress_update 0
                   :: pre ++ [progress_update 100; password_list_ready L])).
Proof.
  intros env min_len max_len opts unlimited limit final.
  destruct (run_ends env min_len max_len opts unlimited limit)
    as (pre & Hem & Hord & Hcases).
  fold final in Hcases.
  destruct Hcases as [(message & _ & Hf)|[(_ & Hc & Hf)|(_ & Hf)]].
  - exists pre. split; [exact Hord|]. left. exists message.
    now rewrite Hf, Hem.
  - exists pre. split; [exact Hord|]. right. left.
    split; [now rewrite Hf, Hem | exact Hc].
  - destruct (closing_signals_split
                (passwords (locals_at_return env min_len max_len opts
                              unlimited limit)))
      as (middle & Hmid & Hsplit).
    exists (pre ++ middle). split; [now apply Forall_app|].
    right. right. eexists.
    rewrite Hf, Hem, Hsplit. cbn [app]. now rewrite app_assoc.
Qed.

(** X14. A list that [run] delivers is never cut short by a cancellation:
    if [password_list_ready(L)] is emitted, then [L] is the list the
    generator returns when nothing cancels it, and the signal is the last
    one, preceded by [progress_update(100)]. *)
Theorem delivered_list_is_complete :
  forall (env : surroundings) (min_len max_len : nat) (opts : options)
         (unlimited : bool) (limit : Z) (L : list string),
    let final := run env (init min_len max_len opts unlimited limit) in
    In (password_list_ready L) (emitted final) ->
    L = generate_passwords
          (password_generator.init min_len max_len (lowercase opts)
             (uppercase opts) (digits opts) (special opts) unlimited)
          no_callbacks tt
    /\ exists pre,
         Forall ordinary pre
         /\ emitted final
            = progress_update 0
              :: pre ++ [progress_update 100; password_list_ready L].
Proof.
  intros env min_len max_len opts unlimited limit L final Hin.
  destruct (run_ends env min_len max_len opts unlimited limit)
    as (pre & Hem & Hord & Hcases).
  fold final in Hcases.
  assert (Hzero : ordinary (progress_update 0)) by (cbn; lia).
  destruct Hcases as [(message & _ & Hf)|[(_ & Hc & Hf)|(Hclear & Hf)]].
  - exfalso. rewrite Hf, Hem in Hin.
    apply in_app_or in Hin. destruct Hin as [Hin|[Hin|[]]]; [|discriminate Hin].
    now apply (ordinary_not_ready (progress_update 0 :: pre) L);
      [constructor|].
  - exfalso. rewrite Hf, Hem in Hin.
    now apply (ordinary_not_ready (progress_update 0 :: pre) L);
      [constructor|].
  - destruct (closing_signals_split
                (passwords (locals_at_return env min_len max_len opts
                              unlimited limit)))
      as (middle & Hmid & Hsplit).
    rewrite Hf, Hem, Hsplit in Hin.
    assert (HL : L = passwords (locals_at_return env min_len max_len opts
                                  unlimited limit)).
    { apply in_app_or in Hin. destruct Hin as [Hin|Hin].
      - exfalso.
        now apply (ordinary_not_ready (progress_update 0 :: pre) L);
          [constructor|].
      - apply in_app_or in Hin. destruct Hin as [Hin|Hin].
        + exfalso. now apply (ordinary_not_ready middle L).
        + destruct Hin as [Hin|[Hin|[]]]; [discriminate Hin|].
          now injection Hin. }
    split.
    + rewrite HL.
      now apply (locals_complete env min_len max_len opts unlimited limit).
    + exists (pre ++ middle). split; [now apply Forall_app|].
      rewrite Hf, Hem, Hsplit, HL. cbn [app]. now rewrite app_assoc.
Qed.

(** Surroundings in which nobody cancels and memory is not watched. *)
Definition undisturbed : surroundings :=
  {| cancel_called := fun _ => false; memory_at := fun _ => NoPsutil |}.

Definition digits_only : options :=
  {| lowercase := false; uppercase := false; digits := true;
     special := false |}.

(** An instance of X14: the ten digits, undisturbed. *)
Lemma delivered_list_is_complete_witness :
  In (password_list_ready
        ["0"; "1"; "2"; "3"; "4"; "5"; "6"; "7"; "8"; "9"]%string)
    (emitted (run undisturbed (init 1 1 digits_only false 1000)))
  /\ ["0"; "1"; "2"; "3"; "4"; "5"; "6"; "7"; "8"; "9"]%string
     = generate_passwords
         (password_generator.init 1 1 (lowercase digits_only)
            (uppercase digits_only) (digits digits_only)
            (special digits_only) false)
         no_callbacks tt
  /\ exists pre,
       Forall ordinary pre
       /\ emitted (run undisturbed (init 1 1 digits_only false 1000))
          = progress_update 0
            :: pre
               ++ [progress_update 100;
                   password_list_ready
                     ["0"; "1"; "2"; "3"; "4"; "5"; "6"; "7"; "8"; "9"]%string].
Proof.
  assert (Hin : In (password_list_ready
                      ["0"; "1"; "2"; "3"; "4"; "5"; "6"; "7"; "8"; "9"]%string)
                  (emitted (run undisturbed (init 1 1 digits_only false 1000)))).
  { vm_compute. repeat (first [left; reflexivity | right]). }
  split; [exact Hin|].
  exact (delivered_list_is_complete undisturbed 1 1 digits_only false 1000
           _ Hin).
Defined.

(** ** An empty range of lengths, and a start over the memory ceiling *)

Section GenerationEdges.

Variable env : surroundings.
Variables (min_len max_len : nat) (opts : options) (unlimited : bool).
Variable limit : Z.

Local Notation "'generator'" :=
  (generator_of_run min_len max_len opts unlimited).
Local Notation "'at_call'" :=
  (thread_at_call min_len max_len opts unlimited limit).
Local Notation "'locals'" :=
  (locals_at_return env min_len max_len opts unlimited limit).

(** The thread after the first report, [progress_callback(0, total)]. *)
Definition thread_after_first_report : thread :=
  world (start_state generator (callbacks_of_run env) at_call).

Lemma first_report :
  thread_after_first_report
  = snd (progress_callback env 0 (estimate_count generator) at_call).
Proof.
  unfold thread_after_first_report, start_state, notify_progress.
  cbn [callbacks_of_run password_generator.progress_callback].
  unfold call_progress. cbn [world].
  unfold unless_raised. cbn [thread_at_call emit init raised].
  now destruct (progress_callback env 0 (estimate_count generator) _).
Qed.

Lemma empty_range_estimate :
  (max_len < min_len)%nat -> estimate_count generator = 0.
Proof.
  intro Hlt. rewrite estimate_count_unfold. cbv zeta.
  cbn [generator_of_run password_generator.init password_generator.min_length
       password_generator.max_length MAX_PASSWORDS].
  replace (max_len + 1 - min_len)%nat with 0%nat by lia.
  cbn [sum_of_powers]. now destruct unlimited.
Qed.

Lemma empty_range_locals :
  (max_len < min_len)%nat ->
  world locals
  = snd (unless_raised (progress_callback env 0 0) thread_after_first_report).
Proof.
  intro Hlt.
  unfold locals_at_return, generate_passwords_state, run_lengths.
  cbn [generator_of_run password_generator.init password_generator.min_length
       password_generator.max_length].
  fold generator.
  unfold range. replace (max_len + 1 - min_len)%nat with 0%nat by lia.
  cbn [seq for_each].
  unfold thread_after_first_report.
  set (st := start_state generator (callbacks_of_run env) at_call).
  assert (Hc : count st = 0).
  { unfold st. apply (start_state_fresh generator). }
  rewrite Hc, (empty_range_estimate Hlt).
  unfold notify_progress.
  cbn [callbacks_of_run password_generator.progress_callback].
  unfold call_progress.
  now destruct (unless_raised (progress_callback env 0 0) (world st)).
Qed.

Lemma progress_callback_zero_total (count : Z) (self : thread) :
  fst (check_cancelled env self) = false ->
  progress_callback env count 0 self
  = (false,
     raise "division by zero"
       (if count mod 10000 =? 0
        then check_memory_usage env (snd (check_cancelled env self))
        else snd (check_cancelled env self))).
Proof.
  intro Hc. unfold progress_callback.
  destruct (check_cancelled env self) as [c s1]. cbn [fst snd] in *.
  subst c. reflexivity.
Qed.

End GenerationEdges.

(** X15. With [min_length] above [max_length] the range of lengths is empty
    and the estimate is 0: unless [cancel] was called before the first
    check, the first progress report divides by zero, and [run] emits
    [progress_update(0)], the memory warning of the first probe if there is
    one, and [generation_failed("division by zero")]; no list is
    delivered. *)
Theorem empty_length_range_fails :
  forall (env : surroundings) (min_len max_len : nat) (opts : options)
         (unlimited : bool) (limit : Z),
    (max_len < min_len)%nat ->
    cancel_called env 0 = false ->
    emitted (run env (init min_len max_len opts unlimited limit))
    = progress_update 0
      :: match memory_at env 0 with
         | Rss bytes =>
             if float_gt (memory_mb_of bytes) (warning_threshold limit)
             then [memory_warning (memory_mb_of bytes)]
             else []
         | _ => []
         end
      ++ [generation_failed "division by zero"].
Proof.
  intros env min_len max_len opts unlimited limit Hlt Hcancel.
  assert (Hfirst : thread_after_first_report env min_len max_len opts
                     unlimited limit
                   = raise "division by zero"
                       (check_memory_usage env
                          (snd (check_cancelled env
                                  (thread_at_call min_len max_len opts
                                     unlimited limit))))).
  { rewrite first_report, (empty_range_estimate _ _ _ _ Hlt).
    rewrite progress_callback_zero_total; [reflexivity|].
    unfold check_cancelled. cbn. exact Hcancel. }
  assert (Hlocals : world (locals_at_return env min_len max_len opts
                             unlimited limit)
                    = thread_after_first_report env min_len max_len opts
                        unlimited limit).
  { rewrite (empty_range_locals env min_len max_len opts unlimited limit Hlt).
    rewrite Hfirst. reflexivity. }
  rewrite run_unfold, Hlocals, Hfirst.
  cbn [raise raised emit emitted check_memory_usage].
  rewrite generation_check_emitted.
  cbn [PasswordGenerationThread.emitted PasswordGenerationThread.memory_limit_mb
       app check_cancelled snd probes thread_at_call emit init emitted
       memory_limit_mb].
  destruct (memory_at env 0) as [|bytes|]; cbn [map app]; try reflexivity.
  destruct (float_gt (memory_mb_of bytes) (warning_threshold limit));
    reflexivity.
Qed.

(** An instance of X15: lengths from 2 down to 1, nobody cancelling. *)
Lemma empty_length_range_fails_witness :
  (1 < 2)%nat
  /\ cancel_called undisturbed 0 = false
  /\ emitted (run undisturbed (init 2 1 digits_only false 1000))
     = [progress_update 0; generation_failed "division by zero"].
Proof.
  split; [lia|]. split; [reflexivity|].
  exact (empty_length_range_fails undisturbed 2 1 digits_only false 1000
           (le_n 2) eq_refl).
Defined.

Lemma halted_through_the_run (env : surroundings) (min_len max_len : nat)
  (opts : options) (unlimited : bool) (limit : Z) :
  halted (thread_after_first_report env min_len max_len opts unlimited limit)
  = true ->
  halted (world (locals_at_return env min_len max_len opts unlimited limit))
  = true.
Proof.
  intro Hfirst.
  destruct (callbacks_stay_halted env) as [Hs1 Hs2].
  unfold locals_at_return, generate_passwords_state, run_lengths.
  set (generator := generator_of_run min_len max_len opts unlimited) in *.
  set (start := start_state generator (callbacks_of_run env) _) in *.
  pose proof (run_keeps_world thread generator (callbacks_of_run env)
                (fun w => halted w = true) Hs1 Hs2
                (estimate_count generator)
                (progress_interval_of (estimate_count generator))
                (charset generator)
                (range (password_generator.min_length generator)
                   (password_generator.max_length generator + 1))
                start Hfirst) as Hrun.
  destruct (for_each _ _ start) as [st|st]; cbn [flow_state] in Hrun;
    [|exact Hrun].
  exact (notify_progress_keeps thread (callbacks_of_run env)
           (fun w => halted w = true) Hs1 (count st)
           (estimate_count generator) st Hrun).
Qed.

(** X16. The first progress report probes the memory.  If that probe reads
    above 95 percent of the limit, [run] delivers no list: its signals are
    ordinary ones, followed at most by [generation_failed]. *)
Theorem start_over_the_memory_ceiling_delivers_nothing :
  forall (env : surroundings) (min_len max_len : nat) (opts : options)
         (unlimited : bool) (limit bytes : Z),
    memory_at env 0 = Rss bytes ->
    float_gt (memory_mb_of bytes) (PrimFloat.mul (float_of_int limit) 0.95)
    = true ->
    let final := run env (init min_len max_len opts unlimited limit) in
    exists pre,
      Forall ordinary pre
      /\ (emitted final = progress_update 0 :: pre
          \/ exists message,
               emitted final
               = progress_update 0 :: pre ++ [generation_failed message]).
Proof.
  intros env min_len max_len opts unlimited limit bytes Hread Hover final.
  assert (Hfirst : halted (thread_after_first_report env min_len max_len opts
                             unlimited limit) = true).
  { rewrite first_report. unfold progress_callback.
    set (at_call := thread_at_call min_len max_len opts unlimited limit).
    destruct (check_cancelled_answer env at_call) as (Hans & _).
    assert (Hprobe : probes (snd (check_cancelled env at_call)) = 0%nat)
      by reflexivity.
    assert (Hlimit : memory_limit_mb (snd (check_cancelled env at_call))
                     = limit) by reflexivity.
    destruct (check_cancelled env at_call) as [c s1]. cbn [fst snd] in *.
    destruct c; cbn [snd].
    - unfold halted. now rewrite <- Hans.
    - change (0 mod 10000 =? 0) with true. cbv iota.
      assert (Hc : cancelled (check_memory_usage env s1) = true).
      { unfold check_memory_usage. cbn [cancelled].
        rewrite generation_check_cancelled, Hprobe, Hread.
        cbn [PasswordGenerationThread.memory_limit_mb
             PasswordGenerationThread.cancelled].
        rewrite Hlimit, Hover. apply orb_true_r. }
      destruct (progress_of 0 _) as [message|progress]; cbn [snd];
        unfold halted; cbn [raise emit cancelled raised];
        rewrite Hc; reflexivity. }
  pose proof (halted_through_the_run env min_len max_len opts unlimited limit
                Hfirst) as Hhalted.
  destruct (run_ends env min_len max_len opts unlimited limit)
    as (pre & Hem & Hord & Hcases).
  fold final in Hcases.
  exists pre. split; [exact Hord|].
  destruct Hcases as [(message & _ & Hf)|[(_ & _ & Hf)|(Hclear & _)]].
  - right. exists message. now rewrite Hf, Hem.
  - left. now rewrite Hf, Hem.
  - rewrite Hhalted in Hclear. discriminate Hclear.
Qed.

(** An instance of X16: 1000 MB in use against a limit of 1000 MB. *)
Definition over_the_ceiling : surroundings :=
  {| cancel_called := fun _ => false;
     memory_at := fun _ => Rss 1048576000 |}.

Lemma start_over_the_memory_ceiling_delivers_nothing_witness :
  memory_at over_the_ceiling 0 = Rss 1048576000
  /\ float_gt (memory_mb_of 1048576000)
       (PrimFloat.mul (float_of_int 1000) 0.95) = true
  /\ exists pre,
       Forall ordinary pre
       /\ (emitted (run over_the_ceiling (init 1 1 digits_only false 1000))
           = progress_update 0 :: pre
           \/ exists message,
                emitted (run over_the_ceiling (init 1 1 digits_only false 1000))
                = progress_update 0 :: pre ++ [generation_failed message]).
Proof.
  split; [reflexivity|]. split; [vm_compute; reflexivity|].
  apply (start_over_the_memory_ceiling_delivers_nothing over_the_ceiling
           1 1 digits_only false 1000 1048576000 eq_refl).
  vm_compute. reflexivity.
Defined.
